(** * Verification of the distributed test doubles and the stats-export script

    The development embeds, as executable Rocq definitions,
    - [gpus_for_rank], [DummyWork], [DummyProcessGroup] and the tests of
      [PythonProcessGroupExtensionTest] and [ComputeBucketAssignmentTest]
      from [test/distributed/test_c10d_common.py];
    - [get_sha_of_generated_stats_branch] and [main] from
      [tools/stats/export_test_times.py];
    together with the small part of the Python runtime and of the host
    library they call. *)

From Stdlib Require Import ZArith NArith Lia SpecFloat.
From Stdlib Require Strings.Byte.
From Stdlib Require Import Strings.Ascii.
From stdpp Require Import gmap strings list list_numbers fin_maps sorting.

Local Open Scope Z_scope.

(** ** The Python runtime the sources rely on *)

Module Py.

(** The exceptions raised in the modelled fragment. *)
Inductive exn : Type :=
| IndexError
| ZeroDivisionError
| RuntimeError (msg : string)
| ValueError (msg : string)
| CalledProcessError (returncode : Z)
| UnicodeDecodeError
| AssertionError
| FileNotFoundError.

(** A call either returns a value or raises. *)
Inductive outcome (A : Type) : Type :=
| Ok (a : A)
| Raised (e : exn).
Arguments Ok {A} a.
Arguments Raised {A} e.

Definition bind {A B} (m : outcome A) (k : A → outcome B) : outcome B :=
  match m with
  | Ok a => k a
  | Raised e => Raised e
  end.

(** [range(n)]: 0, 1, ..., n - 1, empty when [n <= 0]. *)
Definition range (n : Z) : list Z := seqZ 0 n.

(** [a // b] on ints: floor division, [ZeroDivisionError] on [b = 0]. *)
Definition floordiv (a b : Z) : outcome Z :=
  if decide (b = 0) then Raised ZeroDivisionError else Ok (a `div` b).

(** How a slice bound is clipped against a sequence of length [len]:
    a negative bound counts from the end, and everything is clamped to
    [0, len]. *)
Definition slice_bound (len i : Z) : Z :=
  if decide (i < 0) then Z.max 0 (i + len) else Z.min i len.

(** [l[lo:hi]] *)
Definition slice {A} (l : list A) (lo hi : Z) : list A :=
  let len := Z.of_nat (length l) in
  let lo' := slice_bound len lo in
  let hi' := slice_bound len hi in
  take (Z.to_nat (hi' - lo')) (drop (Z.to_nat lo') l).

(** [l[i]]: a negative index counts from the end; outside the list the
    access raises [IndexError]. *)
Definition index {A} (l : list A) (i : Z) : outcome A :=
  let len := Z.of_nat (length l) in
  let j := if decide (i < 0) then i + len else i in
  if decide (0 ≤ j < len) then
    match l !! Z.to_nat j with
    | Some x => Ok x
    | None => Raised IndexError
    end
  else Raised IndexError.

(** [zip(xs, ys)], which stops at the shorter argument, is the [zip] of
    the list library. *)

(** Text.  The literals of the sources are ASCII and are written as
    strings; text that is decoded from bytes is the list of its code
    points. *)
Definition str : Type := list N.

(** The code points [str.split()] treats as whitespace. *)
Definition isspace (c : N) : bool :=
  ((9 <=? c) && (c <=? 13) || (28 <=? c) && (c <=? 32)
   || (c =? 133) || (c =? 160) || (c =? 5760)
   || (8192 <=? c) && (c <=? 8202)
   || (c =? 8232) || (c =? 8233) || (c =? 8239) || (c =? 8287)
   || (c =? 12288))%N.

(** [s.split()]: the maximal runs of characters that are not whitespace.
    [cur] is the run that is being read. *)
Fixpoint split_from (cur : str) (s : str) : list str :=
  match s with
  | [] => match cur with [] => [] | _ => [cur] end
  | c :: s' =>
      if isspace c
      then match cur with
           | [] => split_from [] s'
           | _ => cur :: split_from [] s'
           end
      else split_from (cur ++ [c]) s'
  end.

Definition split (s : str) : list str := split_from [] s.

(** [s.split(sep)] for a separator of one character: every occurrence
    separates, and empty pieces are kept. *)
Fixpoint split_on (sep : Ascii.ascii) (s : string) : list string :=
  match s with
  | EmptyString => [EmptyString]
  | String c s' =>
      if decide (c = sep) then EmptyString :: split_on sep s'
      else match split_on sep s' with
           | [] => [String c EmptyString]
           | w :: ws => String c w :: ws
           end
  end.

(** [b.decode("utf-8")]: the strict decoder, which raises
    [UnicodeDecodeError] on a byte sequence that is not well-formed
    UTF-8 (a stray or missing continuation byte, an overlong form, a
    surrogate, a code point above U+10FFFF). *)
Definition continuation (lo hi : N) (b : Byte.byte) : option N :=
  let x := Strings.Byte.to_N b in
  if ((lo <=? x) && (x <=? hi))%N then Some (x - 128)%N else None.

Fixpoint decode_utf8 (bs : list Byte.byte) : outcome str :=
  match bs with
  | [] => Ok []
  | b0 :: bs1 =>
      let x0 := Strings.Byte.to_N b0 in
      let emit (c : N) (rest : list Byte.byte) : outcome str :=
        bind (decode_utf8 rest) (λ s, Ok (c :: s)) in
      if (x0 <? 128)%N then
        bind (decode_utf8 bs1) (λ s, Ok (x0 :: s))
      else if ((194 <=? x0) && (x0 <=? 223))%N then
        match bs1 with
        | b1 :: bs2 =>
            match continuation 128 191 b1 with
            | Some x1 =>
                bind (decode_utf8 bs2)
                     (λ s, Ok (((x0 - 192) * 64 + x1)%N :: s))
            | None => Raised UnicodeDecodeError
            end
        | _ => Raised UnicodeDecodeError
        end
      else if ((224 <=? x0) && (x0 <=? 239))%N then
        match bs1 with
        | b1 :: b2 :: bs3 =>
            let lo := if (x0 =? 224)%N then 160%N else 128%N in
            let hi := if (x0 =? 237)%N then 159%N else 191%N in
            match continuation lo hi b1, continuation 128 191 b2 with
            | Some x1, Some x2 =>
                bind (decode_utf8 bs3)
                     (λ s, Ok (((x0 - 224) * 4096 + x1 * 64 + x2)%N :: s))
            | _, _ => Raised UnicodeDecodeError
            end
        | _ => Raised UnicodeDecodeError
        end
      else if ((240 <=? x0) && (x0 <=? 244))%N then
        match bs1 with
        | b1 :: b2 :: b3 :: bs4 =>
            let lo := if (x0 =? 240)%N then 144%N else 128%N in
            let hi := if (x0 =? 244)%N then 143%N else 191%N in
            match continuation lo hi b1, continuation 128 191 b2,
                  continuation 128 191 b3 with
            | Some x1, Some x2, Some x3 =>
                bind (decode_utf8 bs4)
                     (λ s, Ok (((x0 - 240) * 262144 + x1 * 4096
                                + x2 * 64 + x3)%N :: s))
            | _, _, _ => Raised UnicodeDecodeError
            end
        | _ => Raised UnicodeDecodeError
        end
      else Raised UnicodeDecodeError
  end.

(** The code points of an ASCII literal. *)
Fixpoint str_of_string (s : string) : str :=
  match s with
  | EmptyString => []
  | String c s' => Ascii.N_of_ascii c :: str_of_string s'
  end.

(** The bytes of an ASCII literal. *)
Fixpoint bytes_of_string (s : string) : list Byte.byte :=
  match s with
  | EmptyString => []
  | String c s' => Ascii.byte_of_ascii c :: bytes_of_string s'
  end.

End Py.

(** ** The host library's tensors *)

Module Torch.
Import Py.

(** Modelled from the spec: the host's tensor type and the two in-place
    primitives the test double calls, [add_] and [copy_], which are not
    part of the sources.  A tensor is its shape and its entries in
    row-major order.  Tensors are mutable objects that lists refer to, so
    they live in a heap and lists hold locations. *)

(** The arithmetic of a dtype is the host's and is a parameter of the
    model: [of_number c] is the Python number [c] as an entry (as in
    [torch.full]), [add_number x c] and [mul_number x c] are [x + c] and
    [x * c] as the host computes them on one entry, rounded for a
    floating-point dtype and wrapped for a fixed-width integer one. *)
Class Scalar (E : Type) : Type := mkScalar {
  scalar_eq_dec :: EqDecision E;
  of_number : Z → E;
  add_number : E → Z → E;
  mul_number : E → Z → E
}.

(** [torch.float32], the dtype of [torch.zeros], [torch.ones] and
    [torch.rand] in the sources: IEEE 754 binary32 numbers (24 bits of
    precision, exponents below 128), with the operations rounding to the
    nearest, ties to even.  A Python number is converted first. *)
Definition Float32 : Type := spec_float.

Global Instance Float32_eq_dec : EqDecision Float32.
Proof. unfold Float32. solve_decision. Defined.

Definition Float32_of_Z (c : Z) : Float32 := binary_normalize 24 128 c 0 false.

Global Instance Float32_scalar : Scalar Float32 := {|
  of_number := Float32_of_Z;
  add_number x c := SFadd 24 128 x (Float32_of_Z c);
  mul_number x c := SFmul 24 128 x (Float32_of_Z c)
|}.

(** [torch.int64]: whole numbers from [-2^63] to [2^63 - 1], with the
    operations wrapping around. *)
Definition Int64 : Type := Z.

Definition wrap64 (z : Z) : Int64 := (z + 2 ^ 63) `mod` 2 ^ 64 - 2 ^ 63.

Global Instance Int64_eq_dec : EqDecision Int64.
Proof. unfold Int64. apply _. Defined.

Global Instance Int64_scalar : Scalar Int64 := {|
  of_number := wrap64;
  add_number x c := wrap64 (x + c);
  mul_number x c := wrap64 (x * c)
|}.

Record Tensor (E : Type) : Type := mkTensor { shape : list nat; data : list E }.
Arguments mkTensor {E} shape data.
Arguments shape {E} t.
Arguments data {E} t.

Global Instance Tensor_eq_dec {E} `{EqDecision E} : EqDecision (Tensor E).
Proof. solve_decision. Defined.

Definition numel (sh : list nat) : nat := foldr Nat.mul 1%nat sh.

Definition loc : Type := positive.
Abbreviation heap E := (gmap loc (Tensor E)).

(** Calls that read or write tensors thread the heap and may raise; the
    heap at the point of the raise is kept. *)
Definition M (E A : Type) : Type := heap E → outcome A * heap E.

(** When [src.expand(dst)] of the host is defined: [src] has no more
    dimensions than [dst], and, the shapes being aligned at their last
    dimensions, every dimension of [src] is the one of [dst] or is 1. *)
Definition broadcastable (src dst : list nat) : Prop :=
  (length src ≤ length dst)%nat
  ∧ Forall2 (λ s d, s = d ∨ s = 1%nat) src (drop (length dst - length src) dst).

Global Instance broadcastable_dec src dst : Decision (broadcastable src dst).
Proof. unfold broadcastable. apply _. Defined.

(** The entries of a tensor of shape [src] repeated to fill the shape [dst]
    of as many dimensions: a dimension of size 1 is read again for every
    index of [dst], any other dimension is walked in step with [dst]. *)
Fixpoint expand {E} (src dst : list nat) (xs : list E) : list E :=
  match src, dst with
  | s :: src', d :: dst' =>
      let chunk := numel src' in
      mjoin ((λ i, expand src' dst'
                     (take chunk
                        (drop ((if decide (s = 1%nat) then 0 else i) * chunk)
                              xs)))
               <$> seq 0 d)
  | _, _ => xs
  end.

(** Missing leading dimensions count as dimensions of size 1. *)
Definition broadcast_to {E} (src dst : list nat) (xs : list E) : list E :=
  expand (replicate (length dst - length src) 1%nat ++ src) dst xs.

Section Tensors.
Context {E : Type} `{!Scalar E}.

Definition full (sh : list nat) (v : Z) : Tensor E :=
  mkTensor sh (replicate (numel sh) (of_number v)).
Definition zeros (sh : list nat) : Tensor E := full sh 0.
Definition ones (sh : list nat) : Tensor E := full sh 1.

(** [t + c] and [t * c] for a number [c]: entry by entry. *)
Definition add_scalar (c : Z) (t : Tensor E) : Tensor E :=
  mkTensor (shape t) ((λ x, add_number x c) <$> data t).
Definition mul_scalar (c : Z) (t : Tensor E) : Tensor E :=
  mkTensor (shape t) ((λ x, mul_number x c) <$> data t).

Definition ret {A} (a : A) : M E A := λ h, (Ok a, h).
Definition raise {A} (e : exn) : M E A := λ h, (Raised e, h).
Definition bindM {A B} (m : M E A) (k : A → M E B) : M E B :=
  λ h, match m h with
       | (Ok a, h') => k a h'
       | (Raised e, h') => (Raised e, h')
       end.
Definition lift {A} (o : outcome A) : M E A := λ h, (o, h).

(** [for x in xs: body(x)] *)
Fixpoint for_ {A} (xs : list A) (body : A → M E unit) : M E unit :=
  match xs with
  | [] => ret tt
  | x :: xs' => bindM (body x) (λ _, for_ xs' body)
  end.

(** Modelled from the spec: [t.add_(c)] of the host adds the number [c] to
    every entry of [t], in place, in the arithmetic of the dtype. *)
Definition add_ (t : loc) (c : Z) : M E unit :=
  λ h, (Ok tt, alter (add_scalar c) t h).

(** Modelled from the spec: [dst.copy_(src)] of the host overwrites the
    entries of [dst] with those of [src], in place: entry by entry for
    tensors of one shape, with [src] expanded to the shape of [dst] where
    the shapes differ and the host can broadcast, and with a
    [RuntimeError] where it cannot.  [dst] keeps its shape.  Both tensors
    have the one dtype of the heap. *)
Definition copy_ (dst src : loc) : M E unit :=
  λ h, match h !! dst, h !! src with
       | Some d, Some s =>
           if decide (shape d = shape s)
           then (Ok tt, <[dst := mkTensor (shape d) (data s)]> h)
           else if decide (broadcastable (shape s) (shape d))
           then (Ok tt,
                 <[dst := mkTensor (shape d)
                            (broadcast_to (shape s) (shape d) (data s))]> h)
           else (Raised (RuntimeError "shape mismatch"), h)
       | _, _ => (Ok tt, h)
       end.

(** A new tensor object. *)
Definition alloc (t : Tensor E) : M E loc :=
  λ h, let l := fresh (dom h) in (Ok l, <[l := t]> h).

(** What a name refers to. *)
Definition read (l : loc) : M E (Tensor E) :=
  λ h, (Ok (default (mkTensor [] []) (h !! l)), h).

End Tensors.

End Torch.

(** ** test/distributed/test_c10d_common.py *)

Module C10dCommon.
Import Py Torch.

(** [gpus_for_rank(world_size)], with the value of
    [torch.cuda.device_count()] as the first argument.  The [for] loop
    appends one slice of [visible_devices] per rank. *)
Definition gpus_for_rank (device_count world_size : Z)
  : outcome (list (list Z)) :=
  let visible_devices := range device_count in
  bind (floordiv device_count world_size) (λ gpus_per_process,
    Ok (foldl
          (λ gpus_for_rank rank,
             gpus_for_rank ++
             [slice visible_devices
                    (rank * gpus_per_process)
                    ((rank + 1) * gpus_per_process)])
          [] (range world_size))).


Declare Scope py_scope.
Delimit Scope py_scope with py.
Notation "'let*' x := m 'in' k" := (bindM m (λ x, k))
  (at level 10, x name, m at level 100, k at level 200) : py_scope.
Notation "m >>> k" := (bindM m (λ _, k))
  (at level 100, right associativity) : py_scope.
Local Open Scope py_scope.

(** [class DummyWork(dist._Work)]: an object without fields. *)
Inductive DummyWork : Type := mkDummyWork.

Global Instance DummyWork_eq_dec : EqDecision DummyWork.
Proof. solve_decision. Defined.

(** What [wait] does besides returning. *)
Inductive cuda_event : Type := Synchronize.

(** [DummyWork.wait(timeout=5.0)], with the answer of
    [torch.cuda.is_available()] as a parameter: the current stream is
    synchronised when there is a device, and the result is [True].  The
    body does not look at [timeout], which is left out. *)
Definition wait (cuda_is_available : bool) (self : DummyWork)
  : list cuda_event * bool :=
  ((if cuda_is_available then [Synchronize] else []), true).

(** [class DummyProcessGroup(dist.ProcessGroup)], built by
    [DummyProcessGroup(rank, size)]; the host's base class keeps the two
    numbers and answers [rank()] and [size()] with them. *)
Record DummyProcessGroup : Type :=
  mkDummyProcessGroup { rank : Z; size : Z }.

Definition getBackendName (self : DummyProcessGroup) : string := "Dummy".

(** The collectives on tensors, for tensors of any one dtype.  No body
    looks at the argument [opts] (default [None]), which is left out; each
    ends in [return DummyWork()]. *)

Section Collectives.
Context {E : Type} `{!Scalar E}.

Definition allgather (self : DummyProcessGroup)
    (output_tensor_lists : list (list loc)) (input_tensor_list : list loc)
  : M E DummyWork :=
  for_ (zip output_tensor_lists input_tensor_list)
       (λ '(output_tensor_list, input_tensor),
          for_ output_tensor_list
               (λ output_tensor, copy_ output_tensor input_tensor)) >>>
  ret mkDummyWork.

Definition allreduce (self : DummyProcessGroup) (tensor_list : list loc)
  : M E DummyWork :=
  for_ tensor_list (λ tensor, add_ tensor 2) >>>
  ret mkDummyWork.

Definition broadcast (self : DummyProcessGroup) (tensor_list : list loc)
  : M E DummyWork :=
  for_ tensor_list (λ tensor, add_ tensor 1) >>>
  ret mkDummyWork.

Definition reduce_scatter (self : DummyProcessGroup)
    (output_tensor_list : list loc) (input_tensor_lists : list (list loc))
  : M E DummyWork :=
  for_ (zip output_tensor_list input_tensor_lists)
       (λ '(output_tensor, input_tensor_list),
          let* src := lift (index input_tensor_list (rank self)) in
          copy_ output_tensor src) >>>
  ret mkDummyWork.

Definition send (self : DummyProcessGroup) (tensor_list : list loc)
    (dst tag : Z) : M E DummyWork :=
  for_ tensor_list (λ tensor, add_ tensor 1) >>>
  ret mkDummyWork.

Definition recv (self : DummyProcessGroup) (tensor_list : list loc)
    (src tag : Z) : M E DummyWork :=
  for_ tensor_list (λ tensor, add_ tensor 2) >>>
  ret mkDummyWork.

End Collectives.

(** *** The barrier and the shared store *)

(** Modelled from the spec: the counters of the host's key-value store
    ([c10d._get_default_store()]), which is not part of the sources; all
    ranks share the one store. *)
Abbreviation store := (gmap string Z).

(** The value of a counter; one that does not exist yet counts as 0. *)
Definition counter (key : string) (σ : store) : Z := default 0 (σ !! key).

(** Modelled from the spec: [store.add(key, amount)] of the host adds
    [amount] to the counter under [key] and returns the new value, in one
    atomic step. *)
Definition store_add (key : string) (amount : Z) (σ : store) : Z * store :=
  let v := counter key σ + amount in (v, <[key := v]> σ).

(** The calls a process makes on the store. *)
Inductive store_event : Type :=
| StoreAdd (key : string) (amount : Z).

Global Instance store_event_eq_dec : EqDecision store_event.
Proof. solve_decision. Defined.

Definition barrier_key : string := "TEST:DummyProcessGroup:barrier".

(** [barrier] runs next to the other ranks, so it is given as the steps
    of one process: where the process is in the body of [barrier], and
    one step from each point.  [BLoop worker_count] is the test of the
    [while] condition with the current value of the local variable. *)
Inductive barrier_pc : Type :=
| BEntry
| BLoop (worker_count : Z)
| BReturned (work : DummyWork).

Global Instance barrier_pc_eq_dec : EqDecision barrier_pc.
Proof. solve_decision. Defined.

Definition barrier_step (self : DummyProcessGroup) (pc : barrier_pc)
    (σ : store) : option (barrier_pc * store * option store_event) :=
  match pc with
  | BEntry =>
      if decide (rank self = 0)
      then Some (BLoop 0, σ, None)
      else let '(_, σ') := store_add barrier_key 1 σ in
           Some (BReturned mkDummyWork, σ', Some (StoreAdd barrier_key 1))
  | BLoop worker_count =>
      if decide (worker_count < size self - 1)
      then let '(v, σ') := store_add barrier_key 0 σ in
           Some (BLoop v, σ', Some (StoreAdd barrier_key 0))
      else Some (BReturned mkDummyWork, σ, None)
  | BReturned _ => None
  end.

(** [barrier] of one process while no other process touches the store:
    at most [fuel] steps; [None] when they do not reach the [return]. *)
Fixpoint barrier_alone (fuel : nat) (self : DummyProcessGroup)
    (pc : barrier_pc) (σ : store) : option (DummyWork * store) :=
  match pc with
  | BReturned w => Some (w, σ)
  | _ =>
      match fuel with
      | O => None
      | S fuel' =>
          match barrier_step self pc σ with
          | Some (pc', σ', _) => barrier_alone fuel' self pc' σ'
          | None => None
          end
      end
  end.

(** All ranks of a world of [size] processes inside [barrier], over one
    store: the point each rank has reached, the store, and the store
    calls made so far, oldest first, each with the rank that made it. *)
Record world : Type := mkWorld {
  procs : list barrier_pc;
  shared : store;
  calls : list (nat * store_event)
}.

(** Any rank that has not returned may take its next step. *)
Inductive world_step (n : Z) : world → world → Prop :=
| rank_steps (w : world) (r : nat) pc pc' σ' ev :
    procs w !! r = Some pc →
    barrier_step (mkDummyProcessGroup (Z.of_nat r) n) pc (shared w)
      = Some (pc', σ', ev) →
    world_step n w
      (mkWorld (<[r := pc']> (procs w)) σ'
               (calls w ++ match ev with
                           | Some e => [(r, e)]
                           | None => []
                           end)).

(** Every rank enters [barrier], over the store [σ0]. *)
Definition world_init (n : Z) (σ0 : store) : world :=
  mkWorld (replicate (Z.to_nat n) BEntry) σ0 [].

Inductive reachable (n : Z) (σ0 : store) : world → Prop :=
| reach_init : reachable n σ0 (world_init n σ0)
| reach_step w w' :
    reachable n σ0 w → world_step n w w' → reachable n σ0 w'.

(** The store calls of one rank, oldest first. *)
Definition calls_of (r : nat) (cs : list (nat * store_event))
  : list store_event :=
  snd <$> filter (λ c, fst c = r) cs.


Definition returned (pc : barrier_pc) : bool :=
  match pc with
  | BReturned _ => true
  | _ => false
  end.

(** How many of the given processes have returned. *)
Fixpoint count_returned (l : list barrier_pc) : nat :=
  match l with
  | [] => 0
  | pc :: l' => (if returned pc then 1 else 0) + count_returned l'
  end.

(** One run of the world under a given schedule: the listed ranks step
    one after the other; a rank that has returned, or that does not
    exist, is skipped. *)
Definition step_rank (n : Z) (w : world) (r : nat) : world :=
  match procs w !! r with
  | Some pc =>
      match barrier_step (mkDummyProcessGroup (Z.of_nat r) n) pc (shared w) with
      | Some (pc', σ', ev) =>
          mkWorld (<[r := pc']> (procs w)) σ'
                  (calls w ++ match ev with
                              | Some e => [(r, e)]
                              | None => []
                              end)
      | None => w
      end
  | None => w
  end.

Definition run_schedule (n : Z) (schedule : list nat) (w : world) : world :=
  foldl (step_rank n) w schedule.

(** *** The registered backend and the tests that use it *)

Section ClassDictionary.
Context {E : Type} `{!Scalar E}.

(** The body of [class DummyProcessGroup] as the dictionary of the class:
    each method under its name, by the shape of its arguments. *)
Inductive method : Type :=
| NameMethod (f : DummyProcessGroup → string)
| GatherMethod
    (f : DummyProcessGroup → list (list loc) → list loc → M E DummyWork)
| TensorsMethod (f : DummyProcessGroup → list loc → M E DummyWork)
| ScatterMethod
    (f : DummyProcessGroup → list loc → list (list loc) → M E DummyWork)
| PeerMethod (f : DummyProcessGroup → list loc → Z → Z → M E DummyWork)
| BarrierMethod
    (f : DummyProcessGroup → barrier_pc → store →
         option (barrier_pc * store * option store_event)).

Definition DummyProcessGroup_dict : list (string * method) :=
  [("getBackendName", NameMethod getBackendName);
   ("allgather", GatherMethod allgather);
   ("allreduce", TensorsMethod allreduce);
   ("barrier", BarrierMethod barrier_step);
   ("broadcast", TensorsMethod broadcast);
   ("reduce_scatter", ScatterMethod reduce_scatter);
   ("send", PeerMethod send);
   ("recv", PeerMethod recv)].

(** Attribute lookup on the class. *)
Definition DummyProcessGroup_method (name : string) : option method :=
  (λ found, found.2.2)
    <$> list_find (λ entry, entry.1 = name) DummyProcessGroup_dict.

End ClassDictionary.
Arguments method E : clear implicits.

(** The operations a process group has to offer. *)
Definition capability_set : list string :=
  ["allgather"; "allreduce"; "barrier"; "broadcast"; "reduce_scatter";
   "send"; "recv"].

(** The argument [timeout] of a backend constructor, in seconds. *)
Definition timedelta : Type := Z.

(** [PythonProcessGroupExtensionTest.create_dummy(store, rank, size, timeout)] *)
Definition create_dummy (store_ : store) (rank size : Z) (timeout : timedelta)
  : DummyProcessGroup :=
  mkDummyProcessGroup rank size.

(** A backend constructor as the registry keeps it. *)
Definition creator : Type := store → Z → Z → timedelta → DummyProcessGroup.

(** [str.upper()] on the ASCII letters. *)
Definition upper_ascii (c : Ascii.ascii) : Ascii.ascii :=
  let n := Ascii.nat_of_ascii c in
  if decide (97 ≤ n ≤ 122)%nat then Ascii.ascii_of_nat (n - 32) else c.

Fixpoint upper (s : string) : string :=
  match s with
  | EmptyString => EmptyString
  | String c s' => String (upper_ascii c) (upper s')
  end.

(** Modelled from the spec: the class [dist.Backend] of the host, which the
    sources only use: its string attributes and the dictionary [_plugins]
    of the registered constructors. *)
Record Backend : Type := mkBackend {
  attributes : gmap string string;
  _plugins : gmap string creator
}.

(** Modelled from the spec: [Backend.register_backend(name, func)], the
    backend-registration entry point of the host, sets the attribute named
    by the upper-cased name to that upper-cased name and records the
    constructor in [_plugins] under it. *)
Definition register_backend (name : string) (func : creator) (cls : Backend)
  : Backend :=
  mkBackend (<[upper name := upper name]> (attributes cls))
            (<[upper name := func]> (_plugins cls)).

(** The entry points [dist.all_gather], [dist.all_reduce],
    [dist.broadcast], [dist.reduce_scatter], [dist.send] and [dist.recv]
    of the host, which the sources only call, with the group that
    [init_process_group] has made the default one as first argument. *)
Module dist.

Section EntryPoints.
Context {E : Type} `{!Scalar E}.

(** Modelled from the spec: how an entry point ends.  It waits for the work
    and returns nothing, unless [async_op] is set, in which case it returns
    the work. *)
Definition finish (async_op : bool) (work : DummyWork) : M E (option DummyWork) :=
  ret (if async_op then Some work else None).

(** Modelled from the spec: [dist.all_gather(tensor_list, tensor)] hands the
    list of outputs and the input, each as a list of one, to [allgather] of
    the group. *)
Definition all_gather (group : DummyProcessGroup) (tensor_list : list loc)
    (tensor : loc) (async_op : bool) : M E (option DummyWork) :=
  let* work := allgather group [tensor_list] [tensor] in finish async_op work.

(** Modelled from the spec: [dist.all_reduce(tensor)] hands the tensor, as a
    list of one, to [allreduce] of the group. *)
Definition all_reduce (group : DummyProcessGroup) (tensor : loc)
    (async_op : bool) : M E (option DummyWork) :=
  let* work := allreduce group [tensor] in finish async_op work.

(** Modelled from the spec: [dist.broadcast(tensor, src)] hands the tensor,
    as a list of one, to [broadcast] of the group. *)
Definition broadcast (group : DummyProcessGroup) (tensor : loc) (src : Z)
    (async_op : bool) : M E (option DummyWork) :=
  let* work := broadcast group [tensor] in finish async_op work.

(** Modelled from the spec: [dist.reduce_scatter(output, input_list)] hands
    the output and the list of inputs, each as a list of one, to
    [reduce_scatter] of the group. *)
Definition reduce_scatter (group : DummyProcessGroup) (output : loc)
    (input_list : list loc) (async_op : bool) : M E (option DummyWork) :=
  let* work := reduce_scatter group [output] [input_list] in
  finish async_op work.

(** Modelled from the spec: [dist.send(tensor, dst)] hands the tensor, as a
    list of one, to [send] of the group, with tag 0, and waits. *)
Definition send (group : DummyProcessGroup) (tensor : loc) (dst : Z)
  : M E unit :=
  let* _ := send group [tensor] dst 0 in ret tt.

(** Modelled from the spec: [dist.recv(tensor, src)] hands the tensor, as a
    list of one, to [recv] of the group, with tag 0, and waits. *)
Definition recv (group : DummyProcessGroup) (tensor : loc) (src : Z)
  : M E unit :=
  let* _ := recv group [tensor] src 0 in ret tt.

End EntryPoints.

End dist.

Section TestHelpers.
Context {E : Type} `{!Scalar E}.

(** [self.assertEqual(a, b)] on two tensors. *)
Definition assertEqual (a b : Tensor E) : M E unit :=
  if decide (a = b) then ret tt else raise AssertionError.

(** [[f() for _ in range(n)]] for a constructor of tensors. *)
Definition alloc_each (ts : list (Tensor E)) : M E (list loc) :=
  foldr (λ t rest, let* l := alloc t in let* ls := rest in ret (l :: ls))
        (ret []) ts.

End TestHelpers.

(** The part of [test_collectives] between [init_process_group] and
    [dist.barrier()], for the process of rank [rank] in a world of
    [world_size]; the group is the one [create_dummy] builds.  The tensors
    of [torch.ones] and [torch.zeros] are [Float32]. *)
Definition test_collectives (σ : store) (rank world_size : Z)
  : M Float32 unit :=
  let group := create_dummy σ rank world_size 1800 in
  (* test all_gather *)
  let* input_tensor := alloc (mul_scalar 7 (ones [2; 2]%nat)) in
  let* output_tensor_list :=
    alloc_each ((λ _, zeros [2; 2]%nat) <$> range world_size) in
  let* _ := dist.all_gather group output_tensor_list input_tensor false in
  let* _ := for_ output_tensor_list (λ tensor,
              let* a := read tensor in
              let* b := read input_tensor in
              assertEqual a b) in
  (* test all_reduce *)
  let* input_tensor := alloc (mul_scalar 7 (ones [2; 2]%nat)) in
  let* _ := dist.all_reduce group input_tensor false in
  let* a := read input_tensor in
  let* _ := assertEqual a (add_scalar 2 (mul_scalar 7 (ones [2; 2]%nat))) in
  (* test broadcast *)
  let* input_tensor := alloc (zeros [2; 2]%nat) in
  let* _ := dist.broadcast group input_tensor 0 true in
  let* a := read input_tensor in
  let* _ := assertEqual (ones [2; 2]%nat) a in
  (* test reduce_scatter *)
  let* output_tensor := alloc (zeros [2; 2]%nat) in
  let* input_tensor_list :=
    alloc_each ((λ _, ones [2; 2]%nat) <$> range world_size) in
  let* _ := dist.reduce_scatter group output_tensor input_tensor_list false in
  let* a := read output_tensor in
  assertEqual a (add_scalar 1 (zeros [2; 2]%nat)).

(** The part of [test_send_recv] between [init_process_group] and
    [dist.barrier()]. *)
Definition test_send_recv (σ : store) (rank world_size : Z)
  : M Float32 unit :=
  let group := create_dummy σ rank world_size 1800 in
  let* input_tensor := alloc (zeros [2; 2]%nat) in
  let* peer := lift (if decide (world_size = 0) then Raised ZeroDivisionError
                     else Ok ((rank + 1) `mod` world_size)) in
  let* _ := dist.send group input_tensor peer in
  let* a := read input_tensor in
  let* _ := assertEqual a (add_scalar 1 (zeros [2; 2]%nat)) in
  let* input_tensor := alloc (zeros [2; 2]%nat) in
  let* _ := dist.recv group input_tensor peer in
  let* a := read input_tensor in
  assertEqual a (add_scalar 2 (zeros [2; 2]%nat)).

(** How often a tensor is listed. *)
Definition occurrences (l : loc) (ts : list loc) : nat :=
  length (filter (λ t, t = l) ts).

(** [c] is added to every entry of every listed tensor, in the arithmetic
    of the dtype, once for each time the tensor is listed (so once, for a
    list without repetition), and no other tensor changes. *)
Definition adds_elementwise {E : Type} `{!Scalar E} (c : Z) (ts : list loc)
    (h h' : heap E) : Prop :=
  (∀ l, l ∉ ts → h' !! l = h !! l)
  ∧ (∀ l x, l ∈ ts → h !! l = Some x →
       ∃ x', h' !! l = Some x'
             ∧ shape x' = shape x
             ∧ length (data x') = length (data x)
             ∧ ∀ (i : nat) v, data x !! i = Some v →
                 data x' !! i
                 = Some (Nat.iter (occurrences l ts) (λ v, add_number v c) v))
  ∧ (NoDup ts → ∀ l x, l ∈ ts → h !! l = Some x →
       h' !! l = Some (add_scalar c x)).

(** *** PowerSGD state *)

(** The message [test_invalid_powerSGD_state] expects, written as the two
    adjacent string literals of the source. *)
Definition powerSGD_message : string :=
  "Expect `start_powerSGD_iter` > 1 if `use_error_feedback` or `warm_start` is enabled, "
  +:+ "because PowerSGD can only be applied after the first two iterations in DDP.".

Record PowerSGDState : Type := mkPowerSGDState {
  matrix_approximation_rank : Z;
  start_powerSGD_iter : Z;
  use_error_feedback : bool;
  warm_start : bool
}.

(** Modelled from the spec: the constructor of [powerSGD.PowerSGDState],
    host code that the sources only call.  Of its checks the one on invalid
    combinations of the configuration is modelled, in the words of its
    message: [start_powerSGD_iter] has to exceed 1 when
    [use_error_feedback] or [warm_start] is enabled; otherwise the
    constructor raises [ValueError] with that message. *)
Definition PowerSGDState_init (matrix_approximation_rank start_powerSGD_iter : Z)
    (use_error_feedback warm_start : bool) : outcome PowerSGDState :=
  if (use_error_feedback || warm_start)
     && negb (bool_decide (1 < start_powerSGD_iter))
  then Raised (ValueError powerSGD_message)
  else Ok (mkPowerSGDState matrix_approximation_rank start_powerSGD_iter
                           use_error_feedback warm_start).

(** [re.search(pattern, text)] for a pattern whose only special character
    is the dot, which stands for any character but a newline. *)
Fixpoint re_match_here (pattern text : string) : bool :=
  match pattern, text with
  | EmptyString, _ => true
  | String _ _, EmptyString => false
  | String p pattern', String c text' =>
      (if decide (p = "."%char) then negb (bool_decide (c = "010"%char))
       else bool_decide (p = c))
      && re_match_here pattern' text'
  end.

Fixpoint re_search (pattern text : string) : bool :=
  re_match_here pattern text
  || match text with
     | EmptyString => false
     | String _ text' => re_search pattern text'
     end.

(** [with self.assertRaisesRegex(ValueError, expected_regex): body]: passes
    when the body raises a [ValueError] whose message the pattern is found
    in, fails when the body returns or the message is another, and lets
    any other exception through. *)
Definition assertRaisesRegex_ValueError {A} (expected_regex : string)
    (body : outcome A) : outcome unit :=
  match body with
  | Raised (ValueError msg) =>
      if re_search expected_regex msg then Ok tt else Raised AssertionError
  | Raised e => Raised e
  | Ok _ => Raised AssertionError
  end.

(** [itertools.product(xs, ys, zs)] *)
Definition product3 {A B C} (xs : list A) (ys : list B) (zs : list C)
  : list (A * B * C) :=
  x ← xs; y ← ys; z ← zs; [(x, y, z)].

(** [for x in xs: body(x)] for a body that may raise but has no state. *)
Fixpoint for_each {A} (xs : list A) (body : A → outcome unit) : outcome unit :=
  match xs with
  | [] => Ok tt
  | x :: xs' => bind (body x) (λ _, for_each xs' body)
  end.

(** [CommonDistributedDataParallelTest.test_invalid_powerSGD_state] *)
Definition test_invalid_powerSGD_state : outcome unit :=
  for_each (product3 [0; 1] [true; false] [true; false])
    (λ '(start_powerSGD_iter, use_error_feedback, warm_start),
       if negb use_error_feedback && negb warm_start then Ok tt
       else assertRaisesRegex_ValueError powerSGD_message
              (PowerSGDState_init 1 start_powerSGD_iter
                                  use_error_feedback warm_start)).

(** *** Bucket assignment *)

(** The element types of the tensors of [ComputeBucketAssignmentTest]:
    [torch.float] and [torch.double], with their sizes in bytes. *)
Inductive dtype : Type := float32 | float64.

Global Instance dtype_eq_dec : EqDecision dtype.
Proof. solve_decision. Defined.

Global Instance dtype_countable : Countable dtype.
Proof.
  refine (inj_countable' (λ d, match d with float32 => false | float64 => true end)
                         (λ b : bool, if b then float64 else float32) _).
  by intros [].
Defined.

Definition element_size (d : dtype) : Z :=
  match d with
  | float32 => 4
  | float64 => 8
  end.

(** [torch.empty([n], dtype=d)]: the entries are not initialised, and the
    assignment looks at the number of elements and the element type only. *)
Record grad_tensor : Type := empty { numel_of : nat; dtype_of : dtype }.

Definition nbytes (t : grad_tensor) : Z :=
  Z.of_nat (numel_of t) * element_size (dtype_of t).

(** The bucket being filled for one element type. *)
Record BucketAccumulator : Type := mkBucketAccumulator {
  indices : list nat;
  acc_size : Z;
  size_limit : Z
}.

Definition empty_accumulator : BucketAccumulator :=
  mkBucketAccumulator [] 0 0.

Record assignment : Type := mkAssignment {
  buckets : gmap dtype BucketAccumulator;
  limit_left : gmap dtype (list Z);
  result : list (list nat * Z)
}.

(** Modelled from the spec: one step of
    [dist._compute_bucket_assignment_by_size], host code that the sources
    only call.  A bucket groups tensors for one combined call and carries a
    byte-size limit.  The tensor goes into the open bucket of its element
    type; when the bytes of that bucket reach the limit in force for the
    type, the bucket is closed with that limit and the type moves on to the
    next limit of the list, the last one staying in force. *)
Definition assign_tensor (bucket_size_limits : list Z) (st : assignment)
    (it : nat * grad_tensor) : assignment :=
  let '(i, t) := it in
  let key := dtype_of t in
  let bucket := default empty_accumulator (buckets st !! key) in
  let idx := indices bucket ++ [i] in
  let sz := acc_size bucket + nbytes t in
  let remaining := default bucket_size_limits (limit_left st !! key) in
  let limit := hd 0 remaining in
  if decide (limit ≤ sz) then
    mkAssignment
      (<[key := empty_accumulator]> (buckets st))
      (<[key := match tl remaining with [] => remaining | next => next end]>
         (limit_left st))
      (result st ++ [(idx, limit)])
  else
    mkAssignment
      (<[key := mkBucketAccumulator idx sz limit]> (buckets st))
      (<[key := remaining]> (limit_left st))
      (result st).

Definition min_index (b : list nat * Z) : nat :=
  foldr Nat.min (hd 0%nat b.1) b.1.

Definition by_min_index (a b : list nat * Z) : Prop :=
  (min_index a ≤ min_index b)%nat.

Global Instance by_min_index_dec : RelDecision by_min_index.
Proof. intros a b. unfold by_min_index. apply _. Defined.

Definition open_buckets (st : assignment) : list (list nat * Z) :=
  (λ kb, (indices kb.2, size_limit kb.2))
    <$> filter (λ kb, indices kb.2 ≠ []) (map_to_list (buckets st)).

(** Modelled from the spec: [dist._compute_bucket_assignment_by_size], host
    code that the sources only call; the model is the assignment that the
    four tests of [ComputeBucketAssignmentTest] pin down.  Tensors are taken
    in index order, each by [assign_tensor]; buckets still open at the end
    are closed as they are, and the buckets are listed by their smallest
    index.  Without any limit there is no assignment. *)
Definition _compute_bucket_assignment_by_size (tensors : list grad_tensor)
    (bucket_size_limits : list Z) : option (list (list nat) * list Z) :=
  match bucket_size_limits with
  | [] => None
  | _ =>
      let st := foldl (assign_tensor bucket_size_limits)
                      (mkAssignment ∅ ∅ []) (imap pair tensors) in
      let sorted := merge_sort by_min_index (result st ++ open_buckets st) in
      Some (fst <$> sorted, snd <$> sorted)
  end.

(** The bytes of the tensors with the given indices. *)
Definition bucket_bytes (tensors : list grad_tensor) (idx : list nat) : Z :=
  foldr (λ i acc, from_option nbytes 0 (tensors !! i) + acc) 0 idx.

(** What holds of a bucket [(idx, limit)] of the assignment: it is not
    empty, its indices increase, its tensors have one element type, its
    limit is one of the given limits, and it was closed as soon as its bytes
    reached the limit, so without its last tensor it is empty or below the
    limit. *)
Definition good_bucket (tensors : list grad_tensor) (limits : list Z)
    (b : list nat * Z) : Prop :=
  b.1 ≠ []
  ∧ StronglySorted lt b.1
  ∧ (∃ d, ∀ i, i ∈ b.1 → ∃ t, tensors !! i = Some t ∧ dtype_of t = d)
  ∧ b.2 ∈ limits
  ∧ (∀ pre i, b.1 = pre ++ [i] → pre = [] ∨ bucket_bytes tensors pre < b.2).

(** The indices in the buckets that are still open. *)
Definition pending (m : gmap dtype BucketAccumulator) : list nat :=
  map_to_list m ≫= λ kb, indices kb.2.

(** *** Invariants and auxiliary notions of the proofs *)

(** What holds of every state the ranks can reach together from a store
    whose barrier counter is [c0]. *)
Record barrier_inv (n c0 : Z) (w : world) : Prop := {
  inv_length : length (procs w) = Z.to_nat n;
  inv_counter :
    counter barrier_key (shared w)
    = c0 + Z.of_nat (count_returned (tail (procs w)));
  inv_loop : ∀ wc, head (procs w) = Some (BLoop wc) →
                   wc ≤ counter barrier_key (shared w);
  inv_rank0 : ∀ wk, head (procs w) = Some (BReturned wk) →
                    n - 1 ≤ counter barrier_key (shared w);
  inv_others : ∀ r pc, tail (procs w) !! r = Some pc →
      (pc = BEntry ∧ calls_of (S r) (calls w) = [])
      ∨ (pc = BReturned mkDummyWork
         ∧ calls_of (S r) (calls w) = [StoreAdd barrier_key 1])
}.

(** The copies [allgather] makes, in order, each as (destination, source). *)
Definition allgather_pairs (outs : list (list loc)) (ins : list loc)
  : list (loc * loc) :=
  zip outs ins ≫= λ p, (λ o, (o, p.2)) <$> p.1.

(** The copies [reduce_scatter] makes when every index is in range. *)
Fixpoint reduce_scatter_pairs (rk : Z) (zs : list (loc * list loc))
  : outcome (list (loc * loc)) :=
  match zs with
  | [] => Ok []
  | (o, itl) :: zs' =>
      bind (index itl rk) (λ src,
        bind (reduce_scatter_pairs rk zs') (λ ps, Ok ((o, src) :: ps)))
  end.

(** What holds after the tensors [ts] have been taken. *)
Record assign_inv (limits : list Z) ts (st : assignment) : Prop := {
  ai_result : Forall (good_bucket ts limits) (result st);
  ai_open : ∀ k b, buckets st !! k = Some b →
    acc_size b = bucket_bytes ts (indices b)
    ∧ StronglySorted lt (indices b)
    ∧ (∀ i, i ∈ indices b → ∃ t, ts !! i = Some t ∧ dtype_of t = k)
    ∧ (indices b ≠ [] →
         acc_size b < size_limit b
         ∧ size_limit b = hd 0 (default limits (limit_left st !! k)));
  ai_left : ∀ k left, limit_left st !! k = Some left →
    left ≠ [] ∧ ∀ x, x ∈ left → x ∈ limits;
  ai_perm :
    concat ((result st).*1) ++ pending (buckets st) ≡ₚ seq 0 (length ts)
}.

(** *** Further helpers of the tests *)

(** [gpus_for_rank(self.world_size)[self.rank][0]]: the device on which
    [_gpu_model_with_ddp_comm_hook] and
    [_gpu_model_with_builtin_ddp_comm_hook] put the model of a rank. *)
Definition device_id (device_count world_size rank : Z) : outcome Z :=
  bind (gpus_for_rank device_count world_size) (λ gpus,
    bind (index gpus rank) (λ mine, index mine 0)).

(** [CommonDistributedDataParallelTest._prepare_dummy_data], over rows of
    any kind; [rand] and [randn] stand for [torch.rand((bs, 20))] and
    [torch.randn((bs, 20))], which give [bs] rows each. *)
Definition _prepare_dummy_data {Row : Type} (rand randn : Z → list Row)
    (rank world_size : Z) : list Row * list Row * list Row * list Row :=
  let ddp_bs := 16 in
  let bs := ddp_bs * world_size in
  let input := rand bs in
  let target := randn bs in
  let offset := rank * ddp_bs in
  let ddp_input := slice input offset (offset + ddp_bs) in
  let ddp_target := slice target offset (offset + ddp_bs) in
  (input, ddp_input, target, ddp_target).

(** The same tensor objects with the same shapes: nothing was created,
    dropped or reshaped. *)
Definition same_shapes {E : Type} (h h' : heap E) : Prop :=
  ∀ l, shape <$> h' !! l = shape <$> h !! l.

(** [dst.copy_(src)] has shapes it can work on: the shape of [src] is the
    one of [dst] or can be broadcast to it. *)
Definition can_copy {E : Type} (h : heap E) (dst src : loc) : Prop :=
  ∀ d s, h !! dst = Some d → h !! src = Some s →
    broadcastable (shape s) (shape d).

(** [AbstractCommTest._verify_sequence_number_across_pg], from the point
    where [dist.all_gather_object] has filled [obj_list] with the sequence
    numbers of the ranks of [verify_pg]: all of them have to be the same,
    and the first one is returned. *)
Definition _verify_sequence_number_across_pg (obj_list : list Z) : outcome Z :=
  if decide (base.size (list_to_set obj_list : gset Z) = 1%nat)
  then index obj_list 0
  else Raised AssertionError.

(** How the checks on lagging ranks end. *)
Inductive check_result : Type :=
| Passed
| AssertionFailed
| KeyError (key : Z).

(** [{rank: num for (rank, num) in obj_list}]: a later pair replaces an
    earlier one with the same rank. *)
Definition rank_to_seq_num (obj_list : list (Z * Z)) : gmap Z Z :=
  foldl (λ d p, <[p.1 := p.2]> d) ∅ obj_list.

(** The checks of [_test_sequence_num_incremented] after some ranks have
    skipped a collective, from the point where [dist.all_gather_object]
    has filled [obj_list] with the pairs (rank, sequence number). *)
Definition lagging_ranks_check (obj_list : list (Z * Z)) : check_result :=
  let d := rank_to_seq_num obj_list in
  if decide (base.size (map_img d : gset Z) = 2%nat) then
    match d !! 0 with
    | None => KeyError 0
    | Some n0 =>
        match d !! 2 with
        | None => KeyError 2
        | Some n2 =>
            if decide (n0 = n2) then
              let expected_same : gset Z :=
                map_img (filter (λ kv, kv.1 ∉ [0; 2]) d) in
              if decide (base.size expected_same = 1%nat) then
                match d !! 1 with
                | None => KeyError 1
                | Some n1 =>
                    if decide (n0 + 1 = n1) then Passed else AssertionFailed
                end
              else AssertionFailed
            else AssertionFailed
        end
    end
  else AssertionFailed.

(** [list(filter(lambda x: x % 2 == 0, range(self.world_size)))] of
    [_test_warn_not_in_group]. *)
Definition in_group_ranks (world_size : Z) : list Z :=
  filter (λ x, x `mod` 2 = 0) (range world_size).

(** The calls of [_test_warn_not_in_group] on the group of the even ranks. *)
Inductive group_call : Type :=
| CallAllGather (outputs : nat)
| CallAllReduce
| CallBarrier
| CallBroadcast (src : Z).

(** [_test_warn_not_in_group] after the groups are made: the calls the
    process of rank [rank] makes, in order, each with whether a warning
    that the rank does not belong to the group is expected.  [xs] has one
    tensor for each rank of the group. *)
Definition _test_warn_not_in_group (rank world_size : Z)
  : list (group_call * bool) :=
  let in_group_ranks := in_group_ranks world_size in
  let xs := length in_group_ranks in
  if decide (rank ∉ in_group_ranks) then
    [(CallAllGather xs, true); (CallAllReduce, true); (CallBarrier, true);
     (CallBroadcast 0, true)]
  else
    [(CallAllGather xs, false); (CallAllReduce, false); (CallBarrier, false);
     (CallBroadcast 0, false)].

End C10dCommon.

(** ** tools/stats/export_test_times.py *)

Module ExportTestTimes.
Import Py.

(** How a child process ended: with a return code and what it wrote to its
    standard output, or not started at all because the program is missing. *)
Inductive process_result : Type :=
| Exited (returncode : Z) (stdout : list Byte.byte)
| NotStarted.

(** Modelled from the spec: [subprocess.check_output(args)] of the host,
    over what running [args] does, which is the environment's: the output
    of a process that exits with 0, [CalledProcessError] for another
    return code. *)
Definition check_output (run : list string → process_result)
    (args : list string) : outcome (list Byte.byte) :=
  match run args with
  | Exited 0 stdout => Ok stdout
  | Exited returncode _ => Raised (CalledProcessError returncode)
  | NotStarted => Raised FileNotFoundError
  end.

Definition get_sha_of_generated_stats_branch
    (run : list string → process_result) : outcome str :=
  let command :=
    "git ls-remote https://github.com/pytorch/test-infra generated-stats" in
  bind (check_output run (split_on " "%char command)) (λ output,
    bind (decode_utf8 output) (λ text,
      index (split text) 0)).

(** The files, by path, with their text. *)
Abbreviation files := (gmap string str).

Definition sha_file : string := "test-infra_generated-stats_branch_sha.txt".

(** [main()]: [open(..., "w")] creates the file or empties it; the argument
    of [f.write] is evaluated next; leaving the [with] block closes the
    file, also when that evaluation raised. *)
Definition main (run : list string → process_result) (fs : files)
  : outcome unit * files :=
  let fs := <[sha_file := []]> fs in
  match get_sha_of_generated_stats_branch run with
  | Ok sha => (Ok tt, alter (λ text, text ++ sha) sha_file fs)
  | Raised e => (Raised e, fs)
  end.

(** The command line [main] runs. *)
Definition ls_remote : list string :=
  ["git"; "ls-remote"; "https://github.com/pytorch/test-infra";
   "generated-stats"].

End ExportTestTimes.

Import Py Torch C10dCommon ExportTestTimes.

Example gpus_for_rank_7_3 :
  gpus_for_rank 7 3 = Ok [[0; 1]; [2; 3]; [4; 5]].
Proof. reflexivity. Qed.

Example gpus_for_rank_2_4 :
  gpus_for_rank 2 4 = Ok [[]; []; []; []].
Proof. reflexivity. Qed.

Example gpus_for_rank_zero_world :
  gpus_for_rank 4 0 = Raised ZeroDivisionError.
Proof. reflexivity. Qed.

(** ** Devices per rank *)

Section GpusForRank.

Lemma foldl_snoc_fmap {A B} (f : A → B) (l : list A) (acc : list B) :
  foldl (λ acc x, acc ++ [f x]) acc l = acc ++ (f <$> l).
Proof.
  revert acc. induction l as [|x l IH]; intros acc; simpl.
  - by rewrite app_nil_r.
  - rewrite IH. by rewrite <- app_assoc.
Qed.

Lemma slice_range (d a b : Z) :
  0 ≤ a → a ≤ b → b ≤ d → slice (range d) a b = seqZ a (b - a).
Proof.
  intros Ha Hab Hbd. unfold slice, range, slice_bound.
  rewrite length_seqZ, Z2Nat.id by lia.
  rewrite !decide_False by lia.
  rewrite !Z.min_l by lia.
  replace d with (a + ((b - a) + (d - b))) at 1 by lia.
  rewrite seqZ_app by lia.
  rewrite drop_app_length' by (rewrite length_seqZ; lia).
  rewrite seqZ_app by lia.
  rewrite take_app_length' by (rewrite length_seqZ; lia).
  by rewrite Z.add_0_l.
Qed.

Lemma gpus_for_rank_eq (d w : Z) :
  0 ≤ d → 1 ≤ w →
  gpus_for_rank d w =
    Ok ((λ r, seqZ (r * (d `div` w)) (d `div` w)) <$> range w).
Proof.
  intros Hd Hw. unfold gpus_for_rank, floordiv. simpl.
  rewrite decide_False by lia. simpl. f_equal.
  rewrite foldl_snoc_fmap. simpl.
  apply list_fmap_ext. intros i r Hr.
  apply list_elem_of_lookup_2, elem_of_seqZ in Hr.
  assert (0 ≤ d `div` w) by (apply Z.div_pos; lia).
  assert (w * (d `div` w) ≤ d) by (apply Z.mul_div_le; lia).
  rewrite slice_range by nia.
  f_equal. lia.
Qed.

End GpusForRank.

(** C8: for a world of at least one rank, [gpus_for_rank] returns one
    list per rank; with [k = device_count // world_size], rank [r] gets
    exactly the consecutive device indices [r*k .. (r+1)*k - 1] (so [k]
    devices each), the lists of two different ranks share no device, and
    the last [device_count mod world_size] devices are in no list. *)
Theorem gpus_for_rank_partition (d w : Z) :
  0 ≤ d → 1 ≤ w →
  ∃ L : list (list Z),
    gpus_for_rank d w = Ok L
    ∧ length L = Z.to_nat w
    ∧ (∀ r, 0 ≤ r < w →
         L !! Z.to_nat r = Some (seqZ (r * (d `div` w)) (d `div` w)))
    ∧ (∀ r l, L !! r = Some l →
         length l = Z.to_nat (d `div` w)
         ∧ ∀ x, x ∈ l ↔
                Z.of_nat r * (d `div` w) ≤ x ≤ (Z.of_nat r + 1) * (d `div` w) - 1)
    ∧ (∀ i j li lj, i ≠ j → L !! i = Some li → L !! j = Some lj →
         ∀ x, x ∈ li → x ∉ lj)
    ∧ (∀ x, d - d `mod` w ≤ x < d → ∀ l, l ∈ L → x ∉ l).
Proof.
  intros Hd Hw.
  set (k := d `div` w).
  assert (Hk : 0 ≤ k) by (apply Z.div_pos; lia).
  assert (Hlook : ∀ (r : nat) l,
            ((λ r, seqZ (r * k) k) <$> range w) !! r = Some l →
            l = seqZ (Z.of_nat r * k) k ∧ Z.of_nat r < w).
  { intros r l Hl. rewrite list_lookup_fmap in Hl.
    destruct (range w !! r) as [z|] eqn:Hz; simplify_eq/=.
    apply lookup_seqZ in Hz as [-> ?]. split; [f_equal; lia | done]. }
  eexists. split; [by apply gpus_for_rank_eq|]. fold k.
  split; [by rewrite length_fmap; unfold range; rewrite length_seqZ|].
  split.
  { intros r Hr. rewrite list_lookup_fmap. unfold range.
    rewrite lookup_seqZ_lt by lia. simpl. do 2 f_equal. lia. }
  split.
  { intros r l Hl. apply Hlook in Hl as [-> ?].
    split; [by rewrite length_seqZ|].
    intros x. rewrite elem_of_seqZ. lia. }
  split.
  { intros i j li lj Hij Hi Hj x.
    apply Hlook in Hi as [-> ?]. apply Hlook in Hj as [-> ?].
    rewrite !elem_of_seqZ. nia. }
  intros x Hx l Hl.
  apply list_elem_of_lookup in Hl as [r Hl].
  apply Hlook in Hl as [-> ?].
  rewrite elem_of_seqZ.
  pose proof (Z.div_mod d w ltac:(lia)) as Hdm. fold k in Hdm.
  nia.
Qed.

Lemma gpus_for_rank_partition_witness :
  0 ≤ 7 ∧ 1 ≤ 3 ∧
  ∃ L : list (list Z),
    gpus_for_rank 7 3 = Ok L
    ∧ length L = Z.to_nat 3
    ∧ (∀ r, 0 ≤ r < 3 →
         L !! Z.to_nat r = Some (seqZ (r * (7 `div` 3)) (7 `div` 3)))
    ∧ (∀ r l, L !! r = Some l →
         length l = Z.to_nat (7 `div` 3)
         ∧ ∀ x, x ∈ l ↔
                Z.of_nat r * (7 `div` 3) ≤ x ≤ (Z.of_nat r + 1) * (7 `div` 3) - 1)
    ∧ (∀ i j li lj, i ≠ j → L !! i = Some li → L !! j = Some lj →
         ∀ x, x ∈ li → x ∉ lj)
    ∧ (∀ x, 7 - 7 `mod` 3 ≤ x < 7 → ∀ l, l ∈ L → x ∉ l).
Proof.
  split; [lia|]. split; [lia|].
  apply (gpus_for_rank_partition 7 3); lia.
Defined.


Example test_send_recv_passes :
  ∀ ws r, ws ∈ [1; 2; 3] → r ∈ range ws →
    (test_send_recv ∅ r ws ∅).1 = Ok tt.
Proof.
  intros ws r Hws Hr.
  repeat (apply elem_of_cons in Hws as [->|Hws]);
    [ | | | by apply elem_of_nil in Hws];
    vm_compute in Hr;
    repeat (apply elem_of_cons in Hr as [->|Hr]);
    try (by apply elem_of_nil in Hr); vm_compute; reflexivity.
Qed.

(** ** The barrier *)

Section Barrier.

Lemma count_returned_replicate_entry k :
  count_returned (replicate k BEntry) = 0%nat.
Proof. induction k; simpl; auto. Qed.

Lemma count_returned_le l : (count_returned l ≤ length l)%nat.
Proof. induction l as [|pc l IH]; simpl; [lia|]. destruct (returned pc); lia. Qed.

Lemma count_returned_insert l i pc :
  l !! i = Some BEntry →
  count_returned (<[i := BReturned pc]> l) = S (count_returned l).
Proof.
  revert i. induction l as [|a l IH]; intros [|i] Hi; simplify_eq/=; auto.
  rewrite (IH i Hi). lia.
Qed.

Lemma count_returned_all l :
  count_returned l = length l →
  ∀ i pc, l !! i = Some pc → returned pc = true.
Proof.
  induction l as [|a l IH]; intros Hc [|i] pc Hi; simplify_eq/=.
  - destruct (returned pc); [done|].
    pose proof (count_returned_le l). lia.
  - apply (IH) with i; [|done].
    pose proof (count_returned_le l). destruct (returned a); lia.
Qed.

Lemma counter_store_add key a σ :
  counter key (store_add key a σ).2 = counter key σ + a.
Proof. unfold store_add, counter. simpl. by rewrite lookup_insert_eq. Qed.

Lemma calls_of_app r cs cs' :
  calls_of r (cs ++ cs') = calls_of r cs ++ calls_of r cs'.
Proof. unfold calls_of. by rewrite filter_app, fmap_app. Qed.

Lemma calls_of_other r r' e : r ≠ r' → calls_of r [(r', e)] = [].
Proof.
  intros Hr. unfold calls_of. rewrite filter_cons_False; [done|].
  simpl. congruence.
Qed.

Lemma calls_of_same r e : calls_of r [(r, e)] = [e].
Proof. unfold calls_of. by rewrite filter_cons_True. Qed.

Lemma barrier_inv_init n σ0 :
  barrier_inv n (counter barrier_key σ0) (world_init n σ0).
Proof.
  split; simpl.
  - by rewrite length_replicate.
  - destruct (Z.to_nat n); simpl; [lia|].
    rewrite count_returned_replicate_entry. lia.
  - destruct (Z.to_nat n); simpl; intros; simplify_eq.
  - destruct (Z.to_nat n); simpl; intros; simplify_eq.
  - intros r pc Hr. left. split; [|done].
    destruct (Z.to_nat n); simpl in Hr; [by rewrite lookup_nil in Hr|].
    by apply lookup_replicate in Hr as [-> _].
Qed.

Lemma barrier_inv_step n c0 w w' :
  0 ≤ c0 → barrier_inv n c0 w → world_step n w w' → barrier_inv n c0 w'.
Proof.
  intros Hc0 [Hlen Hcnt Hloop Hr0 Hoth] Hstep.
  destruct Hstep as [w r pc pc' σ' ev Hpc Hstep].
  destruct w as [ps σ cs]; simpl in *.
  destruct ps as [|p0 rest]; [by rewrite lookup_nil in Hpc|].
  destruct r as [|r]; simpl in *.
  - (* rank 0 *)
    simplify_eq. unfold barrier_step in Hstep; simpl in Hstep.
    destruct pc as [|wc|wk]; [| |done].
    + simplify_eq. split; simpl; [done|done| | |].
      * intros wc ?; simplify_eq. lia.
      * intros wk ?; simplify_eq.
      * intros r pc Hr. rewrite app_nil_r. by apply Hoth.
    + destruct (decide (wc < n - 1)).
      * simplify_eq. pose proof (counter_store_add barrier_key 0 σ) as Hc.
        simpl in Hc.
        split; simpl; rewrite ?Hc; [done|lia| | |].
        -- intros wc' ?; simplify_eq. lia.
        -- intros wk ?; simplify_eq.
        -- intros r pc Hr.
           rewrite calls_of_app, calls_of_other, app_nil_r by done.
           by apply Hoth.
      * simplify_eq. split; simpl; [done|done| | |].
        -- intros wc' ?; simplify_eq.
        -- intros wk _. specialize (Hloop wc eq_refl). lia.
        -- intros r pc Hr. rewrite app_nil_r. by apply Hoth.
  - (* a rank other than 0 *)
    destruct (Hoth r pc Hpc) as [[-> Hcs]|[-> Hcs]]; [|done].
    unfold barrier_step in Hstep; cbn [rank] in Hstep.
    destruct (decide (Z.of_nat (S r) = 0)) as [|_]; [lia|].
    simpl in Hstep. simplify_eq.
    pose proof (counter_store_add barrier_key 1 σ) as Hc. simpl in Hc.
    split; simpl; rewrite ?Hc.
    + by rewrite length_insert.
    + rewrite (count_returned_insert _ _ _ Hpc). lia.
    + intros wc Hwc. specialize (Hloop wc Hwc). lia.
    + intros wk Hwk. specialize (Hr0 wk Hwk). lia.
    + intros r' pc Hr'. rewrite calls_of_app.
      destruct (decide (r' = r)) as [->|Hne].
      * rewrite list_lookup_insert_eq in Hr'
          by (by apply lookup_lt_Some in Hpc).
        simplify_eq. right. by rewrite Hcs, calls_of_same.
      * rewrite list_lookup_insert_ne in Hr' by done.
        rewrite calls_of_other, app_nil_r by lia. by apply Hoth.
Qed.

Lemma barrier_inv_reachable n σ0 w :
  0 ≤ counter barrier_key σ0 →
  reachable n σ0 w → barrier_inv n (counter barrier_key σ0) w.
Proof.
  intros Hc0. induction 1; eauto using barrier_inv_init, barrier_inv_step.
Qed.

End Barrier.

Lemma reachable_step_rank n σ0 w r :
  reachable n σ0 w → reachable n σ0 (step_rank n w r).
Proof.
  intros Hw. unfold step_rank.
  destruct (procs w !! r) as [pc|] eqn:Hpc; [|done].
  destruct (barrier_step _ pc (shared w)) as [[[pc' σ'] ev]|] eqn:Hs; [|done].
  eapply reach_step; [done|]. by econstructor.
Qed.

Lemma reachable_run_schedule n σ0 schedule w :
  reachable n σ0 w → reachable n σ0 (run_schedule n schedule w).
Proof.
  unfold run_schedule. revert w.
  induction schedule as [|r sch IH]; intros w Hw; simpl; [done|].
  by apply IH, reachable_step_rank.
Qed.

Example barrier_two_ranks :
  run_schedule 2 [0; 0; 1; 0; 0]%nat (world_init 2 ∅)
  = mkWorld [BReturned mkDummyWork; BReturned mkDummyWork]
            {[ barrier_key := 1 ]}
            [(0, StoreAdd barrier_key 0); (1, StoreAdd barrier_key 1);
             (0, StoreAdd barrier_key 0)]%nat.
Proof. vm_compute. reflexivity. Qed.

(** Rank 0 alone keeps polling: with two ranks and an untouched store it has
    not returned after any number of its own steps. *)
Example barrier_rank0_alone_polls fuel :
  barrier_alone fuel (mkDummyProcessGroup 0 2) BEntry ∅ = None.
Proof.
  destruct fuel as [|fuel]; [done|]. simpl.
  assert (H : ∀ k σ, counter barrier_key σ = 0 →
            barrier_alone k (mkDummyProcessGroup 0 2) (BLoop 0) σ = None).
  { induction k as [|k IH]; intros σ Hσ; [done|]. simpl.
    rewrite Hσ. simpl. apply IH.
    unfold counter. by rewrite lookup_insert_eq. }
  by apply H.
Qed.

(** The counter is never reset: over a store whose counter already stands at
    [size - 1], rank 0 returns without waiting for the other rank. *)
Example barrier_stale_counter :
  run_schedule 2 [0; 0; 0]%nat (world_init 2 (<[barrier_key := 1]> ∅))
  = mkWorld [BReturned mkDummyWork; BEntry]
            {[ barrier_key := 1 ]}
            [(0, StoreAdd barrier_key 0)]%nat.
Proof. vm_compute. reflexivity. Qed.

(** The calls [store.add(key, 1)] made so far. *)
Lemma adds_counted n σ0 w :
  0 ≤ counter barrier_key σ0 →
  reachable n σ0 w →
  length (filter (λ c, c.2 = StoreAdd barrier_key 1) (calls w))
  = count_returned (tail (procs w)).
Proof.
  intros Hc0. induction 1 as [|w w' Hreach IH Hstep].
  - simpl. destruct (Z.to_nat n); simpl; [done|].
    by rewrite count_returned_replicate_entry.
  - destruct (barrier_inv_reachable n σ0 w Hc0 Hreach) as [_ _ _ _ Hoth].
    destruct Hstep as [w r pc pc' σ' ev Hpc Hstep].
    destruct w as [ps σ cs]; simpl in *.
    destruct ps as [|p0 rest]; [by rewrite lookup_nil in Hpc|].
    destruct r as [|r]; simpl in *.
    + simplify_eq. unfold barrier_step in Hstep; simpl in Hstep.
      destruct pc as [|wc|wk]; [| |done].
      * simplify_eq. by rewrite app_nil_r.
      * destruct (decide (wc < n - 1)); simplify_eq.
        -- rewrite filter_app, filter_cons_False, filter_nil, app_nil_r;
             [done|]. simpl. congruence.
        -- by rewrite app_nil_r.
    + destruct (Hoth r pc Hpc) as [[-> _]|[-> _]]; [|done].
      unfold barrier_step in Hstep; cbn [rank] in Hstep.
      destruct (decide (Z.of_nat (S r) = 0)) as [|_]; [lia|].
      simpl in Hstep. simplify_eq.
      rewrite filter_app, filter_cons_True, filter_nil, length_app by done.
      rewrite (count_returned_insert _ _ _ Hpc). simpl. lia.
Qed.

(** C9 as stated fails where the counter is not fresh: it is never reset,
    so in a second [barrier] over the store that a first one has left, in a
    world of two, rank 0 returns while rank 1 has not yet made its
    [store.add]. *)
Lemma barrier_rank0_returns_first_on_used_store :
  let σ1 := shared (run_schedule 2 [0; 0; 1; 0; 0]%nat (world_init 2 ∅)) in
  let w := run_schedule 2 [0; 0; 0]%nat (world_init 2 σ1) in
  counter barrier_key σ1 = 1
  ∧ reachable 2 σ1 w
  ∧ procs w !! 0%nat = Some (BReturned mkDummyWork)
  ∧ procs w !! 1%nat = Some BEntry
  ∧ calls_of 1 (calls w) = [].
Proof.
  intros σ1 w. split; [by vm_compute|].
  split; [apply reachable_run_schedule, reach_init|].
  split; [by vm_compute|]. split; by vm_compute.
Qed.

(** C9, as amended: in every state the ranks of a world can reach from a
    store whose barrier counter is not negative, the counter is its first
    value plus the number of calls [store.add(key, 1)] made so far; rank 0
    has returned from [barrier] only if the counter is at least [size - 1],
    which for a counter that started at 0 means that every other rank has
    made its [store.add] and returned; and every rank other than 0 makes
    exactly one store call, [store.add(key, 1)], in a single step that it
    can take in any state and that raises the counter by one, and has
    returned after it. *)
Theorem barrier_rank0_returns_last (n : Z) (σ0 : store) (w : world) :
  0 ≤ counter barrier_key σ0 →
  reachable n σ0 w →
  counter barrier_key (shared w)
  = counter barrier_key σ0
    + Z.of_nat (length (filter (λ c, c.2 = StoreAdd barrier_key 1) (calls w)))
  ∧ (∀ wk, procs w !! 0%nat = Some (BReturned wk) →
       n - 1 ≤ counter barrier_key (shared w)
       ∧ (counter barrier_key σ0 = 0 →
          ∀ r, (1 ≤ r)%nat → Z.of_nat r < n →
            procs w !! r = Some (BReturned mkDummyWork)
            ∧ calls_of r (calls w) = [StoreAdd barrier_key 1]))
  ∧ (∀ r, (1 ≤ r)%nat → Z.of_nat r < n →
       (procs w !! r = Some BEntry
        ∧ calls_of r (calls w) = []
        ∧ ∃ w', world_step n w w'
                ∧ procs w' !! r = Some (BReturned mkDummyWork)
                ∧ calls_of r (calls w') = [StoreAdd barrier_key 1]
                ∧ counter barrier_key (shared w')
                  = counter barrier_key (shared w) + 1)
       ∨ (procs w !! r = Some (BReturned mkDummyWork)
          ∧ calls_of r (calls w) = [StoreAdd barrier_key 1])).
Proof.
  intros Hc0 Hreach.
  destruct (barrier_inv_reachable n σ0 w Hc0 Hreach)
    as [Hlen Hcnt Hloop Hr0 Hoth].
  assert (Hnz : ∀ r, (1 ≤ r)%nat → Z.of_nat r < n →
            ∃ pc, procs w !! r = Some pc ∧ tail (procs w) !! pred r = Some pc).
  { intros r Hr1 Hrn.
    destruct (lookup_lt_is_Some_2 (procs w) r) as [pc Hpc]; [lia|].
    exists pc. split; [done|].
    destruct r as [|r]; [lia|]. simpl.
    destruct (procs w); simplify_eq/=; done. }
  split; [by rewrite (adds_counted n σ0 w Hc0 Hreach)|].
  split.
  - intros wk Hwk.
    assert (Hhead : head (procs w) = Some (BReturned wk)).
    { destruct (procs w); simplify_eq/=; done. }
    pose proof (Hr0 wk Hhead) as Hge. split; [done|].
    intros Hzero r Hr1 Hrn.
    destruct (Hnz r Hr1 Hrn) as (pc & Hpc & Htl).
    assert (Hall : count_returned (tail (procs w)) = length (tail (procs w))).
    { pose proof (count_returned_le (tail (procs w))) as Hle.
      assert (length (tail (procs w)) = pred (length (procs w)))
        by (destruct (procs w); done).
      lia. }
    pose proof (count_returned_all _ Hall _ _ Htl) as Hret.
    destruct (Hoth _ _ Htl) as [[-> _]|[-> Hcs]]; [done|].
    replace (S (pred r)) with r in Hcs by lia. done.
  - intros r Hr1 Hrn.
    destruct (Hnz r Hr1 Hrn) as (pc & Hpc & Htl).
    destruct (Hoth _ _ Htl) as [[-> Hcs]|[-> Hcs]];
      replace (S (pred r)) with r in Hcs by lia; [left|right; done].
    split; [done|]. split; [done|].
    eexists. split.
    + eapply rank_steps; [exact Hpc|].
      unfold barrier_step; cbn [rank].
      destruct (decide (Z.of_nat r = 0)) as [|_]; [lia|]. reflexivity.
    + cbn [procs calls shared]. split; [|split].
      * apply list_lookup_insert_eq. by apply lookup_lt_Some in Hpc.
      * by rewrite calls_of_app, Hcs, calls_of_same.
      * apply counter_store_add.
Qed.

Lemma barrier_rank0_returns_last_witness :
  let w := run_schedule 3 [0; 0; 2; 0]%nat (world_init 3 ∅) in
  0 ≤ counter barrier_key ∅
  ∧ reachable 3 ∅ w
  ∧ counter barrier_key (shared w) = 1
  ∧ procs w !! 1%nat = Some BEntry
  ∧ counter barrier_key (shared w)
    = counter barrier_key ∅
      + Z.of_nat (length (filter (λ c, c.2 = StoreAdd barrier_key 1) (calls w)))
  ∧ (∀ wk, procs w !! 0%nat = Some (BReturned wk) →
       3 - 1 ≤ counter barrier_key (shared w)
       ∧ (counter barrier_key ∅ = 0 →
          ∀ r, (1 ≤ r)%nat → Z.of_nat r < 3 →
            procs w !! r = Some (BReturned mkDummyWork)
            ∧ calls_of r (calls w) = [StoreAdd barrier_key 1]))
  ∧ (∀ r, (1 ≤ r)%nat → Z.of_nat r < 3 →
       (procs w !! r = Some BEntry
        ∧ calls_of r (calls w) = []
        ∧ ∃ w', world_step 3 w w'
                ∧ procs w' !! r = Some (BReturned mkDummyWork)
                ∧ calls_of r (calls w') = [StoreAdd barrier_key 1]
                ∧ counter barrier_key (shared w')
                  = counter barrier_key (shared w) + 1)
       ∨ (procs w !! r = Some (BReturned mkDummyWork)
          ∧ calls_of r (calls w) = [StoreAdd barrier_key 1])).
Proof.
  intros w.
  assert (Hc0 : 0 ≤ counter barrier_key ∅) by reflexivity.
  assert (Hreach : reachable 3 ∅ w)
    by apply reachable_run_schedule, reach_init.
  split; [exact Hc0|]. split; [exact Hreach|].
  split; [by vm_compute|]. split; [by vm_compute|].
  exact (barrier_rank0_returns_last 3 ∅ w Hc0 Hreach).
Defined.

Example test_collectives_passes :
  ∀ ws r, ws ∈ [1; 2; 3] → r ∈ range ws →
    (test_collectives ∅ r ws ∅).1 = Ok tt.
Proof.
  intros ws r Hws Hr.
  repeat (apply elem_of_cons in Hws as [->|Hws]);
    [ | | | by apply elem_of_nil in Hws];
    vm_compute in Hr;
    repeat (apply elem_of_cons in Hr as [->|Hr]);
    try (by apply elem_of_nil in Hr); vm_compute; reflexivity.
Qed.

(** ** Copies between tensors of different shapes *)

Example broadcast_one_entry :
  broadcast_to [1]%nat [2; 2]%nat [5] = [5; 5; 5; 5].
Proof. reflexivity. Qed.

Example broadcast_row :
  broadcast_to [2]%nat [2; 2]%nat [5; 6] = [5; 6; 5; 6].
Proof. reflexivity. Qed.

Example broadcast_column :
  broadcast_to [2; 1]%nat [2; 2]%nat [5; 6] = [5; 5; 6; 6].
Proof. reflexivity. Qed.

Example broadcastable_examples :
  broadcastable [2; 1]%nat [2; 2]%nat ∧ broadcastable [] [2; 2]%nat
  ∧ ¬ broadcastable [3]%nat [2; 2]%nat ∧ ¬ broadcastable [1; 2]%nat [2]%nat.
Proof. split_and!; by apply (bool_decide_unpack _). Qed.

Section Broadcasting.
Context {E : Type}.

Lemma join_chunks (c s : nat) (xs : list E) :
  length xs = (s * c)%nat →
  mjoin ((λ i, take c (drop (i * c) xs)) <$> seq 0 s) = xs.
Proof.
  revert xs. induction s as [|s IH]; intros xs Hlen.
  { by destruct xs. }
  rewrite <- cons_seq, fmap_cons, <- fmap_S_seq, <- list_fmap_compose. simpl.
  transitivity (take c xs ++ drop c xs); [|apply take_drop]. f_equal.
  rewrite <- (IH (drop c xs)) at 1 by (rewrite length_drop; lia).
  f_equal. apply list_fmap_ext. intros i j _. simpl.
  by rewrite drop_drop.
Qed.

(** On tensors whose entries fill their shape, expanding to the same shape
    changes nothing: the copy between tensors of one shape is the general
    rule. *)
Lemma broadcast_to_same_shape (sh : list nat) (xs : list E) :
  length xs = numel sh → broadcast_to sh sh xs = xs.
Proof.
  unfold broadcast_to. rewrite Nat.sub_diag. simpl.
  revert xs. induction sh as [|s sh IH]; intros xs Hlen; [done|].
  simpl in *.
  transitivity (mjoin ((λ i, take (numel sh) (drop (i * numel sh) xs))
                         <$> seq 0 s)); [|by apply join_chunks].
  f_equal. apply list_fmap_ext. intros i j Hj.
  apply lookup_seq in Hj as [Hj Hi]. simpl in Hj. subst j.
  destruct (decide (s = 1%nat)) as [->|_].
  - replace i with 0%nat by lia. apply IH.
    rewrite length_take, length_drop. simpl. lia.
  - apply IH. rewrite length_take, length_drop. nia.
Qed.

End Broadcasting.

(** ** The collectives on tensors *)

Section Collectives.
Context {E : Type} `{!Scalar E}.

Implicit Types (h : heap E) (l t : loc) (ts : list loc).

Lemma for_add_ ts c h :
  for_ ts (λ t, add_ t c) h
  = (Ok tt, foldl (λ h t, alter (add_scalar c) t h) h ts).
Proof.
  revert h. induction ts as [|t ts IH]; intros h; simpl; [done|].
  unfold bindM, add_ at 1. by rewrite IH.
Qed.

Lemma occurrences_cons l t ts :
  occurrences l (t :: ts)
  = ((if decide (t = l) then 1 else 0) + occurrences l ts)%nat.
Proof.
  unfold occurrences. destruct (decide (t = l)) as [->|Hne].
  - by rewrite filter_cons_True.
  - by rewrite filter_cons_False.
Qed.

Lemma occurrences_not_in l ts : l ∉ ts → occurrences l ts = 0%nat.
Proof.
  induction ts as [|t ts IH]; intros Hl; [done|].
  rewrite occurrences_cons. apply not_elem_of_cons in Hl as [? ?].
  rewrite decide_False by done. by rewrite IH.
Qed.

Lemma occurrences_NoDup l ts : NoDup ts → l ∈ ts → occurrences l ts = 1%nat.
Proof.
  induction 1 as [|t ts Hnin Hnd IH]; intros Hl; [by apply elem_of_nil in Hl|].
  rewrite occurrences_cons. apply elem_of_cons in Hl as [->|Hl].
  - rewrite decide_True by done. by rewrite occurrences_not_in.
  - rewrite decide_False by (intros ->; done). by rewrite IH.
Qed.

Lemma iter_add_scalar k c (x : Tensor E) :
  Nat.iter k (add_scalar c) x
  = mkTensor (shape x) (Nat.iter k (λ v, add_number v c) <$> data x).
Proof.
  induction k as [|k IH].
  - simpl. destruct x as [sh d]; simpl. f_equal.
    rewrite <- (list_fmap_id d) at 1. by apply list_fmap_ext.
  - simpl. rewrite IH. unfold add_scalar. simpl. f_equal.
    rewrite <- list_fmap_compose. by apply list_fmap_ext.
Qed.

Lemma lookup_foldl_alter (f : Tensor E → Tensor E) ts h l :
  foldl (λ h t, alter f t h) h ts !! l
  = Nat.iter (occurrences l ts) f <$> h !! l.
Proof.
  revert h. induction ts as [|t ts IH]; intros h; simpl.
  - by destruct (h !! l).
  - rewrite IH, occurrences_cons. destruct (decide (t = l)) as [->|Hne].
    + rewrite lookup_alter_eq. destruct (h !! l); simpl; [|done].
      f_equal. by rewrite <- Nat.iter_succ_r.
    + by rewrite lookup_alter_ne.
Qed.

(** Every listed tensor has [c] added to each entry once per listing; the
    other tensors are as before. *)
Lemma for_add_spec ts c h :
  ∃ h', for_ ts (λ t, add_ t c) h = (Ok tt, h')
        ∧ ∀ l, h' !! l
               = (λ x, mkTensor (shape x)
                         (Nat.iter (occurrences l ts) (λ v, add_number v c)
                            <$> data x))
                 <$> h !! l.
Proof.
  eexists. split; [apply for_add_|].
  intros l. rewrite lookup_foldl_alter.
  destruct (h !! l); simpl; [|done]. by rewrite iter_add_scalar.
Qed.

Lemma for_app {A} (xs ys : list A) (f : A → M E unit) h :
  for_ (xs ++ ys) f h = bindM (for_ xs f) (λ _, for_ ys f) h.
Proof.
  revert h. induction xs as [|x xs IH]; intros h; simpl; [reflexivity|].
  unfold bindM. destruct (f x h) as [[[]|e] h1]; [|done].
  rewrite IH. reflexivity.
Qed.

Lemma for_bind {A B} (g : A → list B) (xs : list A) (f : B → M E unit) h :
  for_ xs (λ x, for_ (g x) f) h = for_ (xs ≫= g) f h.
Proof.
  revert h. induction xs as [|x xs IH]; intros h; csimpl; [done|].
  rewrite for_app. unfold bindM.
  destruct (for_ (g x) f h) as [[[]|e] h1]; [|done]. apply IH.
Qed.

Lemma for_fmap {A B} (g : A → B) (xs : list A) (f : B → M E unit) h :
  for_ (g <$> xs) f h = for_ xs (λ x, f (g x)) h.
Proof.
  revert h. induction xs as [|x xs IH]; intros h; simpl; [done|].
  unfold bindM. destruct (f (g x) h) as [[[]|e] h1]; [|done]. apply IH.
Qed.

Lemma for_ext {A} (xs : list A) (f g : A → M E unit) h :
  (∀ x h, x ∈ xs → f x h = g x h) → for_ xs f h = for_ xs g h.
Proof.
  revert h. induction xs as [|x xs IH]; intros h Hfg; simpl; [done|].
  unfold bindM. rewrite Hfg by left. destruct (g x h) as [[[]|e] h1]; [|done].
  apply IH. intros; apply Hfg. by right.
Qed.

(** A run of copies [dst.copy_(src)] between allocated tensors of equal
    shapes, none of whose sources is also written: it does not raise, it
    leaves every tensor that is no destination as it was, and a destination
    that is only ever written from one source ends equal to that source. *)
Lemma for_copy_pairs (pairs : list (loc * loc)) h :
  (∀ d s, (d, s) ∈ pairs →
     ∃ td tsrc, h !! d = Some td ∧ h !! s = Some tsrc ∧ shape td = shape tsrc) →
  (∀ d s d' s', (d, s) ∈ pairs → (d', s') ∈ pairs → s ≠ d') →
  ∃ h', for_ pairs (λ '(d, s), copy_ d s) h = (Ok tt, h')
        ∧ (∀ l, (∀ s, (l, s) ∉ pairs) → h' !! l = h !! l)
        ∧ (∀ d s, (d, s) ∈ pairs → (∀ s', (d, s') ∈ pairs → s' = s) →
             h' !! d = h !! s).
Proof.
  revert h. induction pairs as [|[d0 s0] ps IH]; intros h Halloc Hsep.
  { exists h. split; [done|]. split; [done|].
    intros d s Hin. by apply elem_of_nil in Hin. }
  destruct (Halloc d0 s0 ltac:(left)) as (td0 & ts0 & Hd0 & Hs0 & Hsh0).
  set (h1 := <[d0 := mkTensor (shape td0) (data ts0)]> h).
  assert (Hval0 : mkTensor (shape td0) (data ts0) = ts0)
    by (rewrite Hsh0; by destruct ts0).
  assert (Hsrc : ∀ d s, (d, s) ∈ (d0, s0) :: ps → h1 !! s = h !! s).
  { intros d s Hin. unfold h1. apply lookup_insert_ne. intros Heq.
    apply (Hsep d s d0 s0 Hin); [by left|done]. }
  destruct (IH h1) as (h' & Hrun & Hother & Hdst).
  { intros d s Hin.
    destruct (Halloc d s ltac:(by right)) as (td & tsrc & Hd & Hs & Hsh).
    rewrite (Hsrc d s ltac:(by right)).
    destruct (decide (d = d0)) as [->|Hne].
    - exists (mkTensor (shape td0) (data ts0)), tsrc. unfold h1.
      rewrite lookup_insert_eq. split; [done|]. split; [done|].
      simpl. congruence.
    - exists td, tsrc. unfold h1. by rewrite lookup_insert_ne. }
  { intros d s d' s' Hin Hin'. apply (Hsep d s d' s'); by right. }
  exists h'. split; [|split].
  - simpl. unfold bindM, copy_ at 1. rewrite Hd0, Hs0.
    rewrite decide_True by done. exact Hrun.
  - intros l Hl. rewrite Hother.
    + unfold h1. apply lookup_insert_ne. intros Heq. apply (Hl s0).
      rewrite <- Heq. by left.
    + intros s Hin. apply (Hl s). by right.
  - intros d s Hin Huniq.
    destruct (decide ((d, s) ∈ ps)) as [Hps|Hps].
    + rewrite (Hdst d s Hps); [by apply (Hsrc d s)|].
      intros s' Hin'. apply Huniq. by right.
    + apply elem_of_cons in Hin as [Heq|Hin]; [|done]. simplify_eq.
      rewrite Hother.
      * unfold h1. by rewrite lookup_insert_eq, Hval0.
      * intros s Hin. assert (s = s0) as -> by (apply Huniq; by right). done.
Qed.

Lemma elem_of_allgather_pairs outs ins d s :
  (d, s) ∈ allgather_pairs outs ins
  ↔ ∃ (i : nat) otl, outs !! i = Some otl ∧ ins !! i = Some s ∧ d ∈ otl.
Proof.
  unfold allgather_pairs. rewrite list_elem_of_bind. split.
  - intros ([otl it] & Hin & Hzip). simpl in Hin.
    apply list_elem_of_fmap in Hin as (o & Heq & Ho). simplify_eq.
    apply list_elem_of_lookup in Hzip as [i Hi].
    apply lookup_zip_with_Some in Hi as (x & y & Heq & Hx & Hy). simplify_eq.
    eauto.
  - intros (i & otl & Ho & Hi & Hd). exists (otl, s). split.
    + simpl. apply list_elem_of_fmap. eauto.
    + apply list_elem_of_lookup. exists i.
      apply lookup_zip_with_Some. eauto.
Qed.

Lemma allgather_as_pairs self outs ins h :
  allgather self outs ins h
  = bindM (for_ (allgather_pairs outs ins) (λ '(d, s), copy_ d s))
          (λ _, ret mkDummyWork) h.
Proof.
  unfold allgather, bindM, allgather_pairs.
  rewrite <- for_bind.
  erewrite for_ext; [reflexivity|].
  intros [otl it] h0 _. simpl. by rewrite for_fmap.
Qed.

Lemma reduce_scatter_as_pairs self outs ins ps h :
  reduce_scatter_pairs (rank self) (zip outs ins) = Ok ps →
  reduce_scatter self outs ins h
  = bindM (for_ ps (λ '(d, s), copy_ d s)) (λ _, ret mkDummyWork) h.
Proof.
  unfold reduce_scatter. generalize (zip outs ins). intros zs Hps.
  unfold bindM at 1 3. f_equal.
  revert ps h Hps. induction zs as [|[o itl] zs IH]; intros ps h Hps.
  - simpl in Hps. by simplify_eq.
  - simpl in Hps. unfold bind in Hps.
    destruct (index itl (rank self)) as [src|] eqn:Hidx; [|done].
    destruct (reduce_scatter_pairs (rank self) zs) as [ps'|] eqn:Hps'; [|done].
    simplify_eq. simpl. unfold bindM at 1 2 4, lift. rewrite Hidx.
    destruct (copy_ o src h) as [[[]|e] h1]; [|done].
    by apply IH.
Qed.

Lemma elem_of_reduce_scatter_pairs rk zs ps d s :
  reduce_scatter_pairs rk zs = Ok ps →
  (d, s) ∈ ps ↔ ∃ itl, (d, itl) ∈ zs ∧ index itl rk = Ok s.
Proof.
  revert ps. induction zs as [|[o itl] zs IH]; intros ps Hps; simpl in Hps.
  - simplify_eq. split; [by intros ?%elem_of_nil|].
    by intros (? & ?%elem_of_nil & _).
  - unfold bind in Hps.
    destruct (index itl rk) as [src|] eqn:Hidx; [|done].
    destruct (reduce_scatter_pairs rk zs) as [ps'|] eqn:Hps'; [|done].
    simplify_eq. rewrite elem_of_cons, (IH ps') by done. split.
    + intros [?|(itl' & ? & ?)]; simplify_eq.
      * exists itl. split; [by left|done].
      * exists itl'. split; [by right|done].
    + intros (itl' & [?|?]%elem_of_cons & ?); simplify_eq.
      * left. congruence.
      * right. eauto.
Qed.

Lemma reduce_scatter_pairs_Ok rk zs :
  (∀ d itl, (d, itl) ∈ zs → ∃ s, index itl rk = Ok s) →
  ∃ ps, reduce_scatter_pairs rk zs = Ok ps.
Proof.
  induction zs as [|[o itl] zs IH]; intros Hidx; simpl; [eauto|].
  destruct (Hidx o itl ltac:(left)) as [s Hs]. rewrite Hs. simpl.
  destruct IH as [ps ->]; [|simpl; eauto].
  intros d itl' Hin. apply (Hidx d itl'). by right.
Qed.

Lemma for_add_adds_elementwise ts c h :
  ∃ h', for_ ts (λ t, add_ t c) h = (Ok tt, h') ∧ adds_elementwise c ts h h'.
Proof.
  destruct (for_add_spec ts c h) as (h' & Hrun & Hlook).
  exists h'. split; [done|]. split; [|split].
  - intros l Hl. rewrite Hlook, occurrences_not_in by done.
    destruct (h !! l) as [[sh d]|]; simpl; [|done]. do 2 f_equal.
    rewrite <- (list_fmap_id d) at 2. by apply list_fmap_ext.
  - intros l x Hl Hx. rewrite Hlook, Hx. simpl. eexists. split; [done|].
    simpl. split; [done|]. split; [by rewrite length_fmap|].
    intros i v Hv. by rewrite list_lookup_fmap, Hv.
  - intros Hnd l x Hl Hx. by rewrite Hlook, Hx, occurrences_NoDup by done.
Qed.

Lemma allreduce_spec self ts h :
  ∃ h', allreduce self ts h = (Ok mkDummyWork, h') ∧ adds_elementwise 2 ts h h'.
Proof.
  destruct (for_add_adds_elementwise ts 2 h) as (h' & Hrun & Hadd).
  exists h'. split; [|done]. unfold allreduce, bindM. by rewrite Hrun.
Qed.

Lemma broadcast_spec self ts h :
  ∃ h', broadcast self ts h = (Ok mkDummyWork, h') ∧ adds_elementwise 1 ts h h'.
Proof.
  destruct (for_add_adds_elementwise ts 1 h) as (h' & Hrun & Hadd).
  exists h'. split; [|done]. unfold broadcast, bindM. by rewrite Hrun.
Qed.

Lemma send_spec self ts dst tag h :
  ∃ h', send self ts dst tag h = (Ok mkDummyWork, h')
        ∧ adds_elementwise 1 ts h h'.
Proof.
  destruct (for_add_adds_elementwise ts 1 h) as (h' & Hrun & Hadd).
  exists h'. split; [|done]. unfold send, bindM. by rewrite Hrun.
Qed.

Lemma recv_spec self ts src tag h :
  ∃ h', recv self ts src tag h = (Ok mkDummyWork, h')
        ∧ adds_elementwise 2 ts h h'.
Proof.
  destruct (for_add_adds_elementwise ts 2 h) as (h' & Hrun & Hadd).
  exists h'. split; [|done]. unfold recv, bindM. by rewrite Hrun.
Qed.

Lemma allgather_spec self (outs : list (list loc)) (ins : list loc) h :
  (∀ (i : nat) otl it o, outs !! i = Some otl → ins !! i = Some it → o ∈ otl →
     ∃ td tsrc, h !! o = Some td ∧ h !! it = Some tsrc
                ∧ shape td = shape tsrc) →
  (∀ (i j : nat) otl it_i otl_j it,
     outs !! i = Some otl → ins !! i = Some it_i →
     outs !! j = Some otl_j → ins !! j = Some it → it ∉ otl) →
  ∃ h', allgather self outs ins h = (Ok mkDummyWork, h')
        ∧ (∀ l, (∀ (i : nat) otl it, outs !! i = Some otl → ins !! i = Some it →
                   l ∉ otl) → h' !! l = h !! l)
        ∧ (∀ (i : nat) otl it o,
             outs !! i = Some otl → ins !! i = Some it → o ∈ otl →
             (∀ (j : nat) otl' it', outs !! j = Some otl' → ins !! j = Some it' →
                o ∈ otl' → it' = it) →
             h' !! o = h !! it).
Proof.
  intros Halloc Hsep.
  destruct (for_copy_pairs (allgather_pairs outs ins) h) as (h' & Hrun & Hoth & Hdst).
  { intros d s (i & otl & Ho & Hi & Hd)%elem_of_allgather_pairs. eauto. }
  { intros d s d' s' (i & otl & Ho & Hi & Hd)%elem_of_allgather_pairs
      (j & otl' & Ho' & Hi' & Hd')%elem_of_allgather_pairs ->.
    by apply (Hsep j i otl' s' otl d'). }
  exists h'. split; [|split].
  - rewrite allgather_as_pairs. unfold bindM. by rewrite Hrun.
  - intros l Hl. apply Hoth. intros s (i & otl & Ho & Hi & Hd)%elem_of_allgather_pairs.
    by apply (Hl i otl s).
  - intros i otl it o Ho Hi Hin Huniq. apply Hdst.
    + apply elem_of_allgather_pairs. eauto.
    + intros s' (j & otl' & Ho' & Hi' & Hd')%elem_of_allgather_pairs. eauto.
Qed.

Lemma reduce_scatter_spec self (outs : list loc) (ins : list (list loc)) h :
  (∀ (i : nat) o itl, outs !! i = Some o → ins !! i = Some itl →
     ∃ src td tsrc, index itl (rank self) = Ok src
                    ∧ h !! o = Some td ∧ h !! src = Some tsrc
                    ∧ shape td = shape tsrc) →
  (∀ (i j : nat) o itl_i o_j itl src,
     outs !! i = Some o → ins !! i = Some itl_i →
     outs !! j = Some o_j → ins !! j = Some itl →
     index itl (rank self) = Ok src → src ≠ o) →
  ∃ h', reduce_scatter self outs ins h = (Ok mkDummyWork, h')
        ∧ (∀ l, (∀ (i : nat) itl, outs !! i = Some l → ins !! i = Some itl → False) →
             h' !! l = h !! l)
        ∧ (∀ (i : nat) o itl src,
             outs !! i = Some o → ins !! i = Some itl →
             index itl (rank self) = Ok src →
             (∀ (j : nat) itl' src', outs !! j = Some o → ins !! j = Some itl' →
                index itl' (rank self) = Ok src' → src' = src) →
             h' !! o = h !! src).
Proof.
  intros Halloc Hsep.
  assert (Hzip : ∀ d itl, (d, itl) ∈ zip outs ins
                 ↔ ∃ i : nat, outs !! i = Some d ∧ ins !! i = Some itl).
  { intros d itl. rewrite list_elem_of_lookup. split.
    - intros (i & (x & y & ? & ? & ?)%lookup_zip_with_Some). simplify_eq. eauto.
    - intros (i & ? & ?). exists i. apply lookup_zip_with_Some. eauto. }
  destruct (reduce_scatter_pairs_Ok (rank self) (zip outs ins)) as [ps Hps].
  { intros d itl (i & Ho & Hi)%Hzip.
    destruct (Halloc i d itl Ho Hi) as (src & _ & _ & ? & _). eauto. }
  pose proof (λ d s, elem_of_reduce_scatter_pairs _ _ _ d s Hps) as Hmem.
  destruct (for_copy_pairs ps h) as (h' & Hrun & Hoth & Hdst).
  { intros d s (itl & (i & Ho & Hi)%Hzip & Hidx)%Hmem.
    destruct (Halloc i d itl Ho Hi) as (src & td & tsrc & ? & ? & ? & ?).
    assert (src = s) as -> by congruence. eauto 10. }
  { intros d s d' s' (itl & (i & Ho & Hi)%Hzip & Hidx)%Hmem
      (itl' & (j & Ho' & Hi')%Hzip & Hidx')%Hmem.
    by apply (Hsep j i d' itl' d itl s). }
  exists h'. split; [|split].
  - rewrite (reduce_scatter_as_pairs _ _ _ ps) by done.
    unfold bindM. by rewrite Hrun.
  - intros l Hl. apply Hoth.
    intros s (itl & (i & Ho & Hi)%Hzip & Hidx)%Hmem. eauto.
  - intros i o itl src Ho Hi Hidx Huniq. apply Hdst.
    + apply Hmem. exists itl. split; [|done]. apply Hzip. eauto.
    + intros s' (itl' & (j & Ho' & Hi')%Hzip & Hidx')%Hmem. eauto.
Qed.

Lemma index_in_range {A} (xs : list A) (i : Z) :
  0 ≤ i < Z.of_nat (length xs) →
  ∃ x, index xs i = Ok x ∧ xs !! Z.to_nat i = Some x.
Proof.
  intros Hi. unfold index.
  destruct (decide (i < 0)) as [|_]; [lia|].
  rewrite decide_True by lia.
  destruct (lookup_lt_is_Some_2 xs (Z.to_nat i)) as [x Hx]; [lia|].
  rewrite Hx. eauto.
Qed.

End Collectives.

(** ** The tensors of [test_collectives] *)

Section Float32Tests.

Implicit Types (h : heap Float32) (l t : loc) (ts : list loc).

Lemma all_gather_sevens self (outs : list loc) inp h :
  h !! inp = Some (mul_scalar 7 (ones [2; 2]%nat)) →
  (∀ o, o ∈ outs → h !! o = Some (zeros [2; 2]%nat)) →
  inp ∉ outs →
  ∃ h', dist.all_gather self outs inp false h = (Ok None, h')
        ∧ h' !! inp = Some (mul_scalar 7 (ones [2; 2]%nat))
        ∧ ∀ o, o ∈ outs → h' !! o = h' !! inp.
Proof.
  intros Hinp Houts Hnin.
  destruct (allgather_spec self [outs] [inp] h) as (h' & Hrun & Hoth & Hdst).
  { intros i otl it o [-> <-]%list_lookup_singleton_Some
      [_ <-]%list_lookup_singleton_Some Ho.
    rewrite (Houts o Ho), Hinp. eauto. }
  { intros i j otl it_i otl_j it [-> <-]%list_lookup_singleton_Some _ _
      [_ <-]%list_lookup_singleton_Some. done. }
  assert (Hinp' : h' !! inp = Some (mul_scalar 7 (ones [2; 2]%nat))).
  { rewrite Hoth; [done|].
    intros i otl it [-> <-]%list_lookup_singleton_Some _. done. }
  exists h'. split; [|split; [done|]].
  - unfold dist.all_gather, bindM. by rewrite Hrun.
  - intros o Ho. rewrite Hinp', <- Hinp. apply (Hdst 0%nat outs); try done.
    intros j otl' it' _ [_ <-]%list_lookup_singleton_Some _. done.
Qed.

Lemma all_reduce_sevens self t h :
  h !! t = Some (mul_scalar 7 (ones [2; 2]%nat)) →
  ∃ h' x, dist.all_reduce self t false h = (Ok None, h')
          ∧ h' !! t = Some x
          ∧ shape x = [2; 2]%nat ∧ data x = replicate 4 (of_number 9).
Proof.
  intros Ht.
  destruct (allreduce_spec self [t] h) as (h' & Hrun & _ & _ & Hnd).
  exists h', (add_scalar 2 (mul_scalar 7 (ones [2; 2]%nat))).
  split; [|split; [|done]].
  - unfold dist.all_reduce, bindM. by rewrite Hrun.
  - apply Hnd; [apply NoDup_singleton|by left|done].
Qed.

Lemma broadcast_zeros self t src h :
  h !! t = Some (zeros [2; 2]%nat) →
  ∃ h', dist.broadcast self t src true h = (Ok (Some mkDummyWork), h')
        ∧ h' !! t = Some (ones [2; 2]%nat).
Proof.
  intros Ht.
  destruct (broadcast_spec self [t] h) as (h' & Hrun & _ & _ & Hnd).
  exists h'. split.
  - unfold dist.broadcast, bindM. by rewrite Hrun.
  - rewrite (Hnd (NoDup_singleton t) t (zeros [2; 2]%nat)); [done|by left|done].
Qed.

Lemma reduce_scatter_ones self out (ins : list loc) h :
  h !! out = Some (zeros [2; 2]%nat) →
  (∀ i, i ∈ ins → h !! i = Some (ones [2; 2]%nat)) →
  out ∉ ins →
  0 ≤ rank self < Z.of_nat (length ins) →
  ∃ h', dist.reduce_scatter self out ins false h = (Ok None, h')
        ∧ h' !! out = Some (ones [2; 2]%nat).
Proof.
  intros Hout Hins Hnin Hrank.
  destruct (index_in_range ins (rank self) Hrank) as (src & Hidx & Hsrc).
  assert (Hsrc_in : src ∈ ins) by (apply list_elem_of_lookup; eauto).
  destruct (reduce_scatter_spec self [out] [ins] h) as (h' & Hrun & Hoth & Hdst).
  { intros i o itl [-> <-]%list_lookup_singleton_Some
      [_ <-]%list_lookup_singleton_Some.
    exists src, (zeros [2; 2]%nat), (ones [2; 2]%nat).
    rewrite Hout, (Hins src Hsrc_in). done. }
  { intros i j o itl_i o_j itl src' [-> <-]%list_lookup_singleton_Some _ _
      [_ <-]%list_lookup_singleton_Some Hidx'.
    assert (src' = src) as -> by congruence. intros ->. done. }
  exists h'. split.
  - unfold dist.reduce_scatter, bindM. by rewrite Hrun.
  - rewrite (Hdst 0%nat out ins src); [by apply Hins|done..|].
    intros j itl' src' _ [_ <-]%list_lookup_singleton_Some ?. congruence.
Qed.

End Float32Tests.

(** ** [test_collectives], for every world *)

Section Allocation.
Context {E : Type} `{!Scalar E}.

Implicit Types (h : heap E) (l : loc).

Lemma bindM_ok {A B} (m : M E A) (k : A → M E B) h a h1 :
  m h = (Ok a, h1) → bindM m k h = k a h1.
Proof. intros Hm. unfold bindM. by rewrite Hm. Qed.

Lemma alloc_fresh (x : Tensor E) h :
  ∃ l, alloc x h = (Ok l, <[l := x]> h) ∧ h !! l = None.
Proof.
  exists (fresh (dom h)). split; [done|].
  apply not_elem_of_dom, is_fresh.
Qed.

Lemma alloc_each_fresh (xs : list (Tensor E)) h :
  ∃ ls h',
    alloc_each xs h = (Ok ls, h')
    ∧ length ls = length xs
    ∧ (∀ l, l ∈ ls → h !! l = None)
    ∧ (∀ (i : nat) l, ls !! i = Some l → h' !! l = xs !! i)
    ∧ (∀ l, l ∉ ls → h' !! l = h !! l).
Proof.
  revert h. induction xs as [|x xs IH]; intros h.
  { exists [], h. split_and!; [done|done| | |done].
    - by intros l ?%elem_of_nil.
    - intros i l Hl. by rewrite lookup_nil in Hl. }
  destruct (alloc_fresh x h) as (l0 & Halloc & Hl0).
  destruct (IH (<[l0 := x]> h)) as (ls & h' & Hrun & Hlen & Hfresh & Hat & Hoth).
  assert (Hl0_nin : l0 ∉ ls).
  { intros Hin. specialize (Hfresh l0 Hin). by rewrite lookup_insert_eq in Hfresh. }
  exists (l0 :: ls), h'. split_and!.
  - simpl. rewrite (bindM_ok _ _ _ _ _ Halloc), (bindM_ok _ _ _ _ _ Hrun). done.
  - simpl. by rewrite Hlen.
  - intros l [->|Hin]%elem_of_cons; [done|].
    specialize (Hfresh l Hin).
    rewrite lookup_insert_ne in Hfresh; [done|]. by intros ->.
  - intros [|i] l Hl; simplify_eq/=.
    + by rewrite Hoth, lookup_insert_eq.
    + by apply Hat.
  - intros l [Hne Hnin]%not_elem_of_cons.
    rewrite Hoth by done. by rewrite lookup_insert_ne.
Qed.

Lemma lookup_const_fmap {A} (x : A) (zs : list Z) (i : nat) :
  (i < length zs)%nat → ((λ _, x) <$> zs) !! i = Some x.
Proof.
  intros Hi. rewrite list_lookup_fmap.
  by destruct (lookup_lt_is_Some_2 zs i Hi) as [z ->].
Qed.

Lemma for_assertEqual (ts : list loc) l h x :
  h !! l = Some x → (∀ t, t ∈ ts → h !! t = Some x) →
  for_ ts (λ tensor, bindM (read tensor) (λ a,
             bindM (read l) (λ b, assertEqual a b))) h
  = (Ok tt, h).
Proof.
  intros Hl Hts. induction ts as [|t ts IH]; simpl; [done|].
  unfold bindM at 1 2 3, read at 1 2.
  rewrite (Hts t) by left. rewrite Hl. simpl.
  unfold assertEqual. rewrite decide_True by done.
  apply IH. intros; apply Hts. by right.
Qed.

End Allocation.

Section TestCollectives.

Implicit Types (h : heap Float32) (l : loc).

Lemma test_collectives_passes_always (σ : store) (rk ws : Z) h :
  0 ≤ rk < ws → (test_collectives σ rk ws h).1 = Ok tt.
Proof.
  intros Hrk. unfold test_collectives.
  set (group := create_dummy σ rk ws 1800).
  set (sevens := mul_scalar 7 (ones [2; 2]%nat)).
  (* all_gather *)
  destruct (alloc_fresh sevens h) as (inp & Ha1 & Hinp).
  rewrite (bindM_ok _ _ _ _ _ Ha1).
  destruct (alloc_each_fresh ((λ _, zeros [2; 2]%nat) <$> range ws)
              (<[inp := sevens]> h))
    as (outs & h2 & Ha2 & Hlen2 & Hfresh2 & Hat2 & Hoth2).
  rewrite (bindM_ok _ _ _ _ _ Ha2).
  assert (Hinp_nin : inp ∉ outs).
  { intros Hin. specialize (Hfresh2 inp Hin).
    by rewrite lookup_insert_eq in Hfresh2. }
  destruct (all_gather_sevens group outs inp h2) as (h3 & Hg & Hinp3 & Houts3).
  { by rewrite Hoth2, lookup_insert_eq. }
  { intros o [i Hi]%list_elem_of_lookup. rewrite (Hat2 i o Hi).
    apply lookup_const_fmap. apply lookup_lt_Some in Hi.
    rewrite length_fmap in Hlen2. lia. }
  { done. }
  rewrite (bindM_ok _ _ _ _ _ Hg).
  rewrite (bindM_ok _ _ _ _ _
             (for_assertEqual outs inp h3 sevens Hinp3
                (λ o Ho, eq_trans (Houts3 o Ho) Hinp3))).
  (* all_reduce *)
  destruct (alloc_fresh sevens h3) as (t4 & Ha4 & _).
  rewrite (bindM_ok _ _ _ _ _ Ha4).
  destruct (all_reduce_sevens group t4 (<[t4 := sevens]> h3))
    as (h5 & x5 & Hr5 & Hx5 & Hsh5 & Hd5); [by rewrite lookup_insert_eq|].
  rewrite (bindM_ok _ _ _ _ _ Hr5).
  unfold bindM at 1, read at 1. rewrite Hx5. simpl.
  assert (x5 = add_scalar 2 sevens) as ->
    by (destruct x5; simpl in *; by subst).
  unfold bindM at 1, assertEqual at 1. rewrite decide_True by done. simpl.
  (* broadcast *)
  destruct (alloc_fresh (zeros [2; 2]%nat) h5) as (t6 & Ha6 & _).
  rewrite (bindM_ok _ _ _ _ _ Ha6).
  destruct (broadcast_zeros group t6 0 (<[t6 := zeros [2; 2]%nat]> h5))
    as (h7 & Hb7 & Hx7); [by rewrite lookup_insert_eq|].
  rewrite (bindM_ok _ _ _ _ _ Hb7).
  unfold bindM at 1, read at 1. rewrite Hx7. simpl.
  unfold bindM at 1, assertEqual at 1. rewrite decide_True by done. simpl.
  (* reduce_scatter *)
  destruct (alloc_fresh (zeros [2; 2]%nat) h7) as (out & Ha8 & _).
  rewrite (bindM_ok _ _ _ _ _ Ha8).
  destruct (alloc_each_fresh ((λ _, ones [2; 2]%nat) <$> range ws)
              (<[out := zeros [2; 2]%nat]> h7))
    as (ins & h9 & Ha9 & Hlen9 & Hfresh9 & Hat9 & Hoth9).
  rewrite (bindM_ok _ _ _ _ _ Ha9).
  assert (Hout_nin : out ∉ ins).
  { intros Hin. specialize (Hfresh9 out Hin).
    by rewrite lookup_insert_eq in Hfresh9. }
  destruct (reduce_scatter_ones group out ins h9) as (h10 & Hrs & Hx10).
  { by rewrite Hoth9, lookup_insert_eq. }
  { intros o [i Hi]%list_elem_of_lookup. rewrite (Hat9 i o Hi).
    apply lookup_const_fmap. apply lookup_lt_Some in Hi.
    rewrite length_fmap in Hlen9. lia. }
  { done. }
  { rewrite Hlen9, length_fmap. unfold range. rewrite length_seqZ.
    simpl. lia. }
  rewrite (bindM_ok _ _ _ _ _ Hrs).
  unfold bindM at 1, read at 1. rewrite Hx10. done.
Qed.

End TestCollectives.

(** C1 as stated, for every input, fails.  With rank 1 and an input list
    of one tensor there is no tensor at index [rank]: [reduce_scatter]
    raises [IndexError] and copies nothing.  A tensor of three entries
    cannot be copied into one of shape 2 x 2: [allgather] raises.  A tensor
    of one entry can, by broadcasting, and the output then differs from
    its input.  And where an input is also written, an output ends
    different from the input it was filled from. *)
Lemma collectives_fail_on_some_inputs :
  let h : heap Float32 :=
    <[1%positive := zeros [2; 2]%nat]>
      (<[2%positive := ones [2; 2]%nat]>
         (<[3%positive := ones [3]%nat]>
            (<[4%positive := ones [1]%nat]> ∅))) in
  reduce_scatter (mkDummyProcessGroup 1 2) [1%positive] [[2%positive]] h
  = (Raised IndexError, h)
  ∧ (∃ msg, allgather (mkDummyProcessGroup 0 2) [[1%positive]] [3%positive] h
            = (Raised (RuntimeError msg), h))
  ∧ (∃ h', allgather (mkDummyProcessGroup 0 2) [[1%positive]] [4%positive] h
           = (Ok mkDummyWork, h')
           ∧ h' !! 1%positive = Some (ones [2; 2]%nat)
           ∧ h' !! 1%positive ≠ h' !! 4%positive)
  ∧ (∃ h', allgather (mkDummyProcessGroup 0 2)
             [[2%positive]; [1%positive]] [1%positive; 2%positive] h
           = (Ok mkDummyWork, h')
           ∧ h' !! 1%positive = h !! 1%positive
           ∧ h' !! 1%positive ≠ h !! 2%positive).
Proof.
  intros h. split; [by vm_compute|].
  split; [eexists; by vm_compute|].
  split; (eexists; split; [by vm_compute|split; by vm_compute]).
Qed.

Section CollectivesSemantics.
Context {E : Type} `{!Scalar E}.

(** C1, as amended: the collectives of [DummyProcessGroup] on tensors of any
    one dtype.  [allreduce] and [recv] add 2, [broadcast] and [send] add 1,
    in the arithmetic of the dtype, to every entry of every tensor of their
    list (once per listing) and return, for every list and heap;
    [allgather] copies the i-th input tensor into every tensor of the i-th
    output list, and [reduce_scatter] copies the tensor at index [rank] of
    the i-th input list into the i-th output tensor, for tensors of equal
    shapes where every input list has a tensor at index [rank], no tensor
    that is written is also read, and no output tensor is filled from two
    different inputs.  Hence, for the [Float32] tensors
    of [test_collectives]: after [dist.all_gather] every output tensor
    equals the input tensor, after [dist.all_reduce] of an all-sevens tensor
    every entry is 9, after [broadcast] of a zero tensor every entry is 1,
    and after [reduce_scatter] of all-ones input lists the output tensor is
    all ones. *)
Theorem dummy_collectives_semantics :
  (∀ self ts (h : heap E), ∃ h',
     allreduce self ts h = (Ok mkDummyWork, h') ∧ adds_elementwise 2 ts h h')
  ∧ (∀ self ts (h : heap E), ∃ h',
       broadcast self ts h = (Ok mkDummyWork, h') ∧ adds_elementwise 1 ts h h')
  ∧ (∀ self ts dst tag (h : heap E), ∃ h',
       send self ts dst tag h = (Ok mkDummyWork, h')
       ∧ adds_elementwise 1 ts h h')
  ∧ (∀ self ts src tag (h : heap E), ∃ h',
       recv self ts src tag h = (Ok mkDummyWork, h')
       ∧ adds_elementwise 2 ts h h')
  ∧ (∀ self (outs : list (list loc)) (ins : list loc) (h : heap E),
       (∀ (i : nat) otl it o,
          outs !! i = Some otl → ins !! i = Some it → o ∈ otl →
          ∃ td tsrc, h !! o = Some td ∧ h !! it = Some tsrc
                     ∧ shape td = shape tsrc) →
       (∀ (i j : nat) otl it_i otl_j it,
          outs !! i = Some otl → ins !! i = Some it_i →
          outs !! j = Some otl_j → ins !! j = Some it → it ∉ otl) →
       ∃ h', allgather self outs ins h = (Ok mkDummyWork, h')
             ∧ (∀ l, (∀ (i : nat) otl it,
                        outs !! i = Some otl → ins !! i = Some it → l ∉ otl) →
                     h' !! l = h !! l)
             ∧ (∀ (i : nat) otl it o,
                  outs !! i = Some otl → ins !! i = Some it → o ∈ otl →
                  (∀ (j : nat) otl' it',
                     outs !! j = Some otl' → ins !! j = Some it' →
                     o ∈ otl' → it' = it) →
                  h' !! o = h !! it))
  ∧ (∀ self (outs : list loc) (ins : list (list loc)) (h : heap E),
       (∀ (i : nat) o itl, outs !! i = Some o → ins !! i = Some itl →
          ∃ src td tsrc, index itl (rank self) = Ok src
                         ∧ h !! o = Some td ∧ h !! src = Some tsrc
                         ∧ shape td = shape tsrc) →
       (∀ (i j : nat) o itl_i o_j itl src,
          outs !! i = Some o → ins !! i = Some itl_i →
          outs !! j = Some o_j → ins !! j = Some itl →
          index itl (rank self) = Ok src → src ≠ o) →
       ∃ h', reduce_scatter self outs ins h = (Ok mkDummyWork, h')
             ∧ (∀ l, (∀ (i : nat) itl,
                        outs !! i = Some l → ins !! i = Some itl → False) →
                     h' !! l = h !! l)
             ∧ (∀ (i : nat) o itl src,
                  outs !! i = Some o → ins !! i = Some itl →
                  index itl (rank self) = Ok src →
                  (∀ (j : nat) itl' src',
                     outs !! j = Some o → ins !! j = Some itl' →
                     index itl' (rank self) = Ok src' → src' = src) →
                  h' !! o = h !! src))
  ∧ (∀ self (outs : list loc) inp (h : heap Float32),
       h !! inp = Some (mul_scalar 7 (ones [2; 2]%nat)) →
       (∀ o, o ∈ outs → h !! o = Some (zeros [2; 2]%nat)) →
       inp ∉ outs →
       ∃ h', dist.all_gather self outs inp false h = (Ok None, h')
             ∧ h' !! inp = Some (mul_scalar 7 (ones [2; 2]%nat))
             ∧ ∀ o, o ∈ outs → h' !! o = h' !! inp)
  ∧ (∀ self t (h : heap Float32),
       h !! t = Some (mul_scalar 7 (ones [2; 2]%nat)) →
       ∃ h' x, dist.all_reduce self t false h = (Ok None, h')
               ∧ h' !! t = Some x
               ∧ shape x = [2; 2]%nat ∧ data x = replicate 4 (of_number 9))
  ∧ (∀ self t src (h : heap Float32),
       h !! t = Some (zeros [2; 2]%nat) →
       ∃ h', dist.broadcast self t src true h = (Ok (Some mkDummyWork), h')
             ∧ h' !! t = Some (mkTensor [2; 2]%nat (replicate 4 (of_number 1))))
  ∧ (∀ self out (ins : list loc) (h : heap Float32),
       h !! out = Some (zeros [2; 2]%nat) →
       (∀ i, i ∈ ins → h !! i = Some (ones [2; 2]%nat)) →
       out ∉ ins →
       0 ≤ rank self < Z.of_nat (length ins) →
       ∃ h', dist.reduce_scatter self out ins false h = (Ok None, h')
             ∧ h' !! out = Some (mkTensor [2; 2]%nat (replicate 4 (of_number 1))))
  ∧ (∀ (σ : store) (rk ws : Z) (h : heap Float32),
       0 ≤ rk < ws → (test_collectives σ rk ws h).1 = Ok tt).
Proof.
  split; [exact allreduce_spec|].
  split; [exact broadcast_spec|].
  split; [exact send_spec|].
  split; [exact recv_spec|].
  split; [exact allgather_spec|].
  split; [exact reduce_scatter_spec|].
  split; [exact all_gather_sevens|].
  split; [exact all_reduce_sevens|].
  split; [exact broadcast_zeros|].
  split; [exact reduce_scatter_ones|].
  exact test_collectives_passes_always.
Qed.

End CollectivesSemantics.

Lemma dummy_collectives_semantics_witness :
  let sevens : Tensor Float32 := mul_scalar 7 (ones [2; 2]%nat) in
  let h : heap Float32 :=
    <[1%positive := sevens]>
      (<[2%positive := zeros [2; 2]%nat]>
         (<[3%positive := zeros [2; 2]%nat]> ∅)) in
  let outs := [2%positive; 3%positive] in
  h !! 1%positive = Some sevens
  ∧ (∀ o, o ∈ outs → h !! o = Some (zeros [2; 2]%nat))
  ∧ (1%positive ∉ outs)
  ∧ ∃ h', dist.all_gather (mkDummyProcessGroup 0 2) outs 1%positive false h
          = (Ok None, h')
          ∧ h' !! 1%positive = Some sevens
          ∧ ∀ o, o ∈ outs → h' !! o = h' !! 1%positive.
Proof.
  intros sevens h outs.
  assert (H1 : h !! 1%positive = Some sevens) by reflexivity.
  assert (H2 : ∀ o, o ∈ outs → h !! o = Some (zeros [2; 2]%nat)).
  { intros o Ho. unfold outs in Ho.
    repeat (apply elem_of_cons in Ho as [->|Ho]); [reflexivity..|].
    by apply elem_of_nil in Ho. }
  assert (H3 : 1%positive ∉ outs).
  { unfold outs. intros Ho.
    repeat (apply elem_of_cons in Ho as [Ho|Ho]); [done..|].
    by apply elem_of_nil in Ho. }
  split; [exact H1|]. split; [exact H2|]. split; [exact H3|].
  destruct (dummy_collectives_semantics (E := Float32))
    as (_ & _ & _ & _ & _ & _ & Hgather & _).
  exact (Hgather (mkDummyProcessGroup 0 2) outs 1%positive h H1 H2 H3).
Defined.

(** ** The work objects *)

Lemma barrier_alone_other_rank self σ :
  rank self ≠ 0 →
  barrier_alone 1 self BEntry σ
  = Some (mkDummyWork, (store_add barrier_key 1 σ).2).
Proof.
  intros Hr. simpl. by rewrite decide_False.
Qed.

Lemma barrier_alone_rank0 self σ :
  rank self = 0 →
  size self - 1 ≤ counter barrier_key σ →
  ∃ σ', barrier_alone 3 self BEntry σ = Some (mkDummyWork, σ')
        ∧ counter barrier_key σ' = counter barrier_key σ.
Proof.
  intros Hr Hc. cbn -[counter barrier_key]. rewrite decide_True by done.
  cbn -[counter barrier_key].
  destruct (decide (0 < size self - 1)) as [Hlt|Hge]; cbn -[counter barrier_key].
  - rewrite decide_False by lia. eexists. split; [done|].
    unfold counter at 1. rewrite lookup_insert_eq. simpl. lia.
  - eauto.
Qed.

(** ** Registering the backend *)

Example upper_dummy : upper "dummy" = "DUMMY".
Proof. reflexivity. Qed.

(** C4: [create_dummy] takes the four arguments (store, rank, size, timeout)
    and returns the [DummyProcessGroup] built from rank and size; after
    [register_backend("dummy", create_dummy)] the attribute [DUMMY] of
    [Backend] is the string "DUMMY" and [_plugins] holds the constructor
    under the key "DUMMY", whatever was registered before. *)
Theorem register_dummy_backend :
  (∀ (σ : store) (rk sz : Z) (timeout : timedelta),
     create_dummy σ rk sz timeout = mkDummyProcessGroup rk sz
     ∧ rank (create_dummy σ rk sz timeout) = rk
     ∧ size (create_dummy σ rk sz timeout) = sz)
  ∧ (∀ cls : Backend,
       attributes (register_backend "dummy" create_dummy cls) !! "DUMMY"
       = Some "DUMMY"
       ∧ _plugins (register_backend "dummy" create_dummy cls) !! "DUMMY"
         = Some create_dummy).
Proof.
  split; [done|].
  intros cls. unfold register_backend. rewrite upper_dummy. simpl.
  by rewrite !lookup_insert_eq.
Qed.

(** ** Invalid PowerSGD configurations *)

Example product3_order :
  product3 [0; 1] [true; false] [true; false]
  = [(0, true, true); (0, true, false); (0, false, true); (0, false, false);
     (1, true, true); (1, true, false); (1, false, true); (1, false, false)].
Proof. reflexivity. Qed.

(** C7: with [start_powerSGD_iter] 0 or 1 and at least one of
    [use_error_feedback] and [warm_start] enabled, constructing a
    [PowerSGDState] raises the [ValueError] with the message on
    [start_powerSGD_iter]; [test_invalid_powerSGD_state], which goes through
    these combinations, passes. *)
Theorem invalid_powerSGD_state_raises
    (rk start : Z) (use_error_feedback warm_start : bool) :
  start = 0 ∨ start = 1 →
  use_error_feedback || warm_start = true →
  PowerSGDState_init rk start use_error_feedback warm_start
  = Raised (ValueError
      "Expect `start_powerSGD_iter` > 1 if `use_error_feedback` or `warm_start` is enabled, because PowerSGD can only be applied after the first two iterations in DDP.")
  ∧ test_invalid_powerSGD_state = Ok tt.
Proof.
  intros Hstart Hflag. split; [|by vm_compute].
  unfold PowerSGDState_init. rewrite Hflag. simpl.
  rewrite bool_decide_eq_false_2 by lia. done.
Qed.

Lemma invalid_powerSGD_state_raises_witness :
  (1 = 0 ∨ 1 = 1)
  ∧ true || false = true
  ∧ PowerSGDState_init 1 1 true false
    = Raised (ValueError
        "Expect `start_powerSGD_iter` > 1 if `use_error_feedback` or `warm_start` is enabled, because PowerSGD can only be applied after the first two iterations in DDP.")
  ∧ test_invalid_powerSGD_state = Ok tt.
Proof.
  split; [right; reflexivity|]. split; [reflexivity|].
  apply (invalid_powerSGD_state_raises 1 1 true false);
    [right; reflexivity | reflexivity].
Defined.

(** ** Bucket assignment *)

Example test_single_limit_single_dtype :
  _compute_bucket_assignment_by_size
    [empty 100 float32; empty 200 float32; empty 100 float32; empty 50 float32]
    [400]
  = Some ([[0]; [1]; [2]; [3]]%nat, [400; 400; 400; 400]).
Proof. vm_compute. reflexivity. Qed.

Example test_single_limit_multi_dtype :
  _compute_bucket_assignment_by_size
    [empty 50 float32; empty 25 float64; empty 50 float32; empty 25 float64;
     empty 50 float32; empty 25 float64]
    [400]
  = Some ([[0; 2]; [1; 3]; [4]; [5]]%nat, [400; 400; 400; 400]).
Proof. vm_compute. reflexivity. Qed.

Example test_multi_limit_single_dtype :
  _compute_bucket_assignment_by_size
    [empty 10 float32; empty 10 float32; empty 10 float32; empty 10 float32]
    [40; 80]
  = Some ([[0]; [1; 2]; [3]]%nat, [40; 80; 80]).
Proof. vm_compute. reflexivity. Qed.

Example test_multi_limit_multi_dtype :
  _compute_bucket_assignment_by_size
    [empty 50 float32; empty 25 float64; empty 50 float32; empty 25 float64;
     empty 50 float32; empty 25 float64]
    [200; 400]
  = Some ([[0]; [1]; [2; 4]; [3; 5]]%nat, [200; 200; 400; 400]).
Proof. vm_compute. reflexivity. Qed.

Section BucketAssignment.

Implicit Types (ts : list grad_tensor) (idx : list nat).

Lemma nbytes_nonneg t : 0 ≤ nbytes t.
Proof. unfold nbytes. destruct (dtype_of t); simpl; lia. Qed.

Lemma bucket_bytes_app ts idx idx' :
  bucket_bytes ts (idx ++ idx') = bucket_bytes ts idx + bucket_bytes ts idx'.
Proof.
  unfold bucket_bytes. induction idx as [|i idx IH]; simpl; [done|].
  rewrite IH. lia.
Qed.

Lemma bucket_bytes_nonneg ts idx : 0 ≤ bucket_bytes ts idx.
Proof.
  unfold bucket_bytes. induction idx as [|i idx IH]; simpl; [done|].
  destruct (ts !! i) as [t|]; simpl; [|lia].
  pose proof (nbytes_nonneg t). lia.
Qed.

Lemma bucket_bytes_extend ts more idx :
  (∀ i, i ∈ idx → (i < length ts)%nat) →
  bucket_bytes (ts ++ more) idx = bucket_bytes ts idx.
Proof.
  unfold bucket_bytes. induction idx as [|i idx IH]; intros Hlt; simpl; [done|].
  rewrite IH by (intros; apply Hlt; by right).
  rewrite lookup_app_l by (apply Hlt; by left). done.
Qed.

Lemma bucket_bytes_snoc ts t idx :
  (∀ i, i ∈ idx → (i < length ts)%nat) →
  bucket_bytes (ts ++ [t]) (idx ++ [length ts])
  = bucket_bytes ts idx + nbytes t.
Proof.
  intros Hlt. rewrite bucket_bytes_app, bucket_bytes_extend by done.
  unfold bucket_bytes at 2. simpl.
  rewrite lookup_app_r, Nat.sub_diag by done. simpl. lia.
Qed.

Lemma good_bucket_extend ts more limits b :
  good_bucket ts limits b → good_bucket (ts ++ more) limits b.
Proof.
  intros (Hne & Hsort & [d Hd] & Hlim & Hpre).
  split; [done|]. split; [done|]. split; [|split; [done|]].
  - exists d. intros i Hi. destruct (Hd i Hi) as (t & Ht & Hdt).
    exists t. split; [|done]. by apply lookup_app_l_Some.
  - intros pre i Hb. destruct (Hpre pre i Hb) as [->|Hlt]; [by left|right].
    rewrite bucket_bytes_extend; [done|].
    intros j Hj. destruct (Hd j) as (t & Ht & _).
    + rewrite Hb. apply elem_of_app. by left.
    + by apply lookup_lt_Some in Ht.
Qed.

Lemma pending_insert (m : gmap dtype BucketAccumulator) k b :
  pending (<[k := b]> m) ≡ₚ indices b ++ pending (delete k m).
Proof.
  unfold pending. rewrite <- insert_delete_eq.
  rewrite map_to_list_insert by apply lookup_delete_eq. done.
Qed.

Lemma pending_lookup (m : gmap dtype BucketAccumulator) k :
  pending m
  ≡ₚ indices (default empty_accumulator (m !! k)) ++ pending (delete k m).
Proof.
  unfold pending. destruct (m !! k) as [b|] eqn:Hk; simpl.
  - by rewrite <- (map_to_list_delete m k b Hk).
  - by rewrite delete_id.
Qed.

Lemma assign_inv_init limits : assign_inv limits [] (mkAssignment ∅ ∅ []).
Proof.
  split; simpl.
  - constructor.
  - intros k b Hb. by rewrite lookup_empty in Hb.
  - intros k left Hl. by rewrite lookup_empty in Hl.
  - unfold pending. by rewrite map_to_list_empty.
Qed.

Lemma StronglySorted_lt_snoc idx n :
  StronglySorted lt idx → (∀ i, i ∈ idx → (i < n)%nat) →
  StronglySorted lt (idx ++ [n]).
Proof.
  intros Hs Hlt. apply StronglySorted_app_2; [|done|repeat constructor].
  intros x1 x2 H1 ->%list_elem_of_singleton. by apply Hlt.
Qed.

Lemma assign_inv_step limits ts st t :
  limits ≠ [] →
  assign_inv limits ts st →
  assign_inv limits (ts ++ [t]) (assign_tensor limits st (length ts, t)).
Proof.
  intros Hlimits [Hres Hopen Hleft Hperm].
  set (k := dtype_of t).
  set (bucket := default empty_accumulator (buckets st !! k)).
  set (lims := default limits (limit_left st !! k)).
  assert (Hbucket : acc_size bucket = bucket_bytes ts (indices bucket)
            ∧ StronglySorted lt (indices bucket)
            ∧ (∀ i, i ∈ indices bucket → ∃ t', ts !! i = Some t' ∧ dtype_of t' = k)
            ∧ (indices bucket ≠ [] →
                 acc_size bucket < size_limit bucket
                 ∧ size_limit bucket = hd 0 lims)).
  { unfold bucket, lims. destruct (buckets st !! k) as [b|] eqn:Hb; simpl.
    - by apply Hopen.
    - split; [done|]. split; [constructor|]. split; [|done].
      intros i Hi. by apply elem_of_nil in Hi. }
  destruct Hbucket as (Hsz & Hsorted & Hdt & Hlim).
  assert (Hbound : ∀ i, i ∈ indices bucket → (i < length ts)%nat).
  { intros i Hi. destruct (Hdt i Hi) as (t' & Ht' & _).
    by apply lookup_lt_Some in Ht'. }
  assert (Hleft' : lims ≠ [] ∧ ∀ x, x ∈ lims → x ∈ limits).
  { unfold lims. destruct (limit_left st !! k) as [l|] eqn:Hl; simpl; [eauto|done]. }
  destruct Hleft' as [Hleft_ne Hleft_in].
  assert (Hhd : hd 0 lims ∈ limits).
  { apply Hleft_in. destruct lims; [done|]. by left. }
  assert (Hnew_sorted : StronglySorted lt (indices bucket ++ [length ts]))
    by (by apply StronglySorted_lt_snoc).
  assert (Hnew_dt : ∀ i, i ∈ indices bucket ++ [length ts] →
            ∃ t', (ts ++ [t]) !! i = Some t' ∧ dtype_of t' = k).
  { intros i [Hi| ->%list_elem_of_singleton]%elem_of_app.
    - destruct (Hdt i Hi) as (t' & Ht' & ?). exists t'.
      split; [by apply lookup_app_l_Some|done].
    - exists t. split; [|done]. by rewrite lookup_app_r, Nat.sub_diag. }
  assert (Hperm' : concat ((result st).*1)
                   ++ (indices bucket ++ [length ts])
                   ++ pending (delete k (buckets st))
                   ≡ₚ seq 0 (length (ts ++ [t]))).
  { rewrite length_app, Nat.add_1_r, seq_S. simpl. rewrite <- Hperm.
    rewrite (pending_lookup (buckets st) k). fold bucket.
    rewrite <- !app_assoc. do 2 f_equiv. apply Permutation_app_comm. }
  assert (Hres' : Forall (good_bucket (ts ++ [t]) limits) (result st)).
  { eapply Forall_impl; [exact Hres|]. intros b. apply good_bucket_extend. }
  assert (Hopen' : ∀ k' b, k' ≠ k → buckets st !! k' = Some b →
            acc_size b = bucket_bytes (ts ++ [t]) (indices b)
            ∧ StronglySorted lt (indices b)
            ∧ (∀ i, i ∈ indices b →
                 ∃ t', (ts ++ [t]) !! i = Some t' ∧ dtype_of t' = k')
            ∧ (indices b ≠ [] →
                 acc_size b < size_limit b
                 ∧ size_limit b = hd 0 (default limits (limit_left st !! k')))).
  { intros k' b Hne Hb. destruct (Hopen k' b Hb) as (H1 & H2 & H3 & H4).
    split; [|split; [done|split; [|done]]].
    - rewrite bucket_bytes_extend; [done|].
      intros i Hi. destruct (H3 i Hi) as (t' & Ht' & _).
      by apply lookup_lt_Some in Ht'.
    - intros i Hi. destruct (H3 i Hi) as (t' & Ht' & ?). exists t'.
      split; [by apply lookup_app_l_Some|done]. }
  unfold assign_tensor. cbv beta iota zeta. fold k. fold bucket. fold lims.
  clearbody bucket lims.
  destruct (decide (hd 0 lims ≤ acc_size bucket + nbytes t)) as [Hclose|Hopen_].
  - (* the bucket is closed *)
    split; simpl.
    + apply Forall_app. split; [done|]. apply Forall_singleton.
      unfold good_bucket. simpl.
      split; [by intros [_ ?]%app_eq_nil|].
      split; [done|]. split; [by exists k|]. split; [done|].
      intros pre i [<- _]%app_inj_tail.
      destruct (decide (indices bucket = [])) as [?|Hne]; [by left|right].
      rewrite bucket_bytes_extend by done.
      destruct (Hlim Hne) as [? ?]. lia.
    + intros k' b. destruct (decide (k' = k)) as [->|Hne].
      * rewrite lookup_insert_eq. intros; simplify_eq. simpl.
        split; [done|]. split; [constructor|]. split; [|done].
        intros i Hi. by apply elem_of_nil in Hi.
      * rewrite !lookup_insert_ne by done. by apply Hopen'.
    + intros k' l. destruct (decide (k' = k)) as [->|Hne].
      * rewrite lookup_insert_eq. intros; simplify_eq.
        destruct lims as [|x [|y lims']]; simpl; [done| |].
        -- split; [done|]. by apply Hleft_in.
        -- split; [done|]. intros z Hz. apply Hleft_in. by right.
      * rewrite lookup_insert_ne by done. by apply Hleft.
    + rewrite fmap_app, concat_app. simpl. rewrite app_nil_r.
      rewrite pending_insert. simpl. rewrite <- Hperm'.
      by rewrite <- !app_assoc.
  - (* the bucket stays open *)
    split; simpl.
    + done.
    + intros k' b. destruct (decide (k' = k)) as [->|Hne].
      * rewrite !lookup_insert_eq. intros; simplify_eq. simpl.
        split; [by rewrite bucket_bytes_snoc, Hsz|].
        split; [done|]. split; [done|]. intros _. split; [lia|done].
      * rewrite !lookup_insert_ne by done. by apply Hopen'.
    + intros k' l. destruct (decide (k' = k)) as [->|Hne].
      * rewrite lookup_insert_eq. intros; simplify_eq. done.
      * rewrite lookup_insert_ne by done. by apply Hleft.
    + rewrite pending_insert. simpl. by rewrite <- Hperm'.
Qed.

Lemma assign_inv_foldl limits ts :
  limits ≠ [] →
  assign_inv limits ts
    (foldl (assign_tensor limits) (mkAssignment ∅ ∅ []) (imap pair ts)).
Proof.
  intros Hlimits. induction ts as [|t ts IH] using rev_ind.
  - apply assign_inv_init.
  - rewrite imap_app, foldl_app. simpl. rewrite Nat.add_0_r.
    by apply assign_inv_step.
Qed.

Lemma concat_open_buckets st :
  concat ((open_buckets st).*1) = pending (buckets st).
Proof.
  unfold open_buckets, pending.
  induction (map_to_list (buckets st)) as [|[k b] l IH]; csimpl; [done|].
  destruct (decide (indices b = [])) as [Hb|Hb].
  - rewrite filter_cons_False by (simpl; auto). by rewrite Hb, IH.
  - rewrite filter_cons_True by done. csimpl. by rewrite IH.
Qed.

Lemma good_open_buckets limits ts st :
  limits ≠ [] → assign_inv limits ts st →
  Forall (good_bucket ts limits) (open_buckets st).
Proof.
  intros Hlimits [_ Hopen Hleft _]. unfold open_buckets.
  apply Forall_fmap, Forall_forall. intros [k b] [Hne Hin]%list_elem_of_filter.
  simpl in *. apply elem_of_map_to_list in Hin.
  destruct (Hopen k b Hin) as (Hsz & Hsorted & Hdt & Hlim).
  destruct (Hlim Hne) as [Hlt Heq].
  split; [done|]. split; [done|]. split; [by exists k|]. simpl. split.
  - rewrite Heq. destruct (limit_left st !! k) as [l|] eqn:Hl; simpl.
    + destruct (Hleft k l Hl) as [? Hsub]. apply Hsub.
      destruct l; [done|]. by left.
    + destruct limits; [done|]. by left.
  - intros pre i Hpre. right.
    rewrite Hsz, Hpre, bucket_bytes_app in Hlt.
    pose proof (bucket_bytes_nonneg ts [i]). lia.
Qed.

Lemma concat_Permutation {A} (ls ls' : list (list A)) :
  ls ≡ₚ ls' → concat ls ≡ₚ concat ls'.
Proof.
  induction 1 as [|l ls ls' _ IH|l l' ls|ls1 ls2 ls3 _ IH1 _ IH2]; simpl.
  - done.
  - by rewrite IH.
  - rewrite !app_assoc. f_equiv. apply Permutation_app_comm.
  - by rewrite IH1.
Qed.

Lemma compute_bucket_assignment_general tensors limits :
  limits ≠ [] →
  ∃ bs ls,
    _compute_bucket_assignment_by_size tensors limits = Some (bs, ls)
    ∧ length bs = length ls
    ∧ (∀ (k : nat) idx L, bs !! k = Some idx → ls !! k = Some L →
         good_bucket tensors limits (idx, L))
    ∧ concat bs ≡ₚ seq 0 (length tensors).
Proof.
  intros Hlimits.
  pose proof (assign_inv_foldl limits tensors Hlimits) as Hinv.
  unfold _compute_bucket_assignment_by_size.
  destruct limits as [|l0 limits']; [done|].
  set (limits := l0 :: limits') in *.
  set (st := foldl (assign_tensor limits) _ _) in *.
  set (sorted := merge_sort by_min_index (result st ++ open_buckets st)).
  assert (Hsorted : sorted ≡ₚ result st ++ open_buckets st)
    by apply merge_sort_Permutation.
  exists (sorted.*1), (sorted.*2). split; [done|].
  split; [by rewrite !length_fmap|]. split.
  - intros k idx L Hidx HL.
    rewrite list_lookup_fmap in Hidx. rewrite list_lookup_fmap in HL.
    destruct (sorted !! k) as [[idx' L']|] eqn:Hk; simplify_eq/=.
    assert (Hall : Forall (good_bucket tensors limits) sorted).
    { rewrite Hsorted. apply Forall_app. split; [apply Hinv|].
      by apply good_open_buckets. }
    rewrite Forall_forall in Hall. apply Hall.
    apply list_elem_of_lookup. eauto.
  - rewrite (concat_Permutation _ ((result st ++ open_buckets st).*1))
      by (by rewrite Hsorted).
    rewrite fmap_app, concat_app, concat_open_buckets. apply Hinv.
Qed.

End BucketAssignment.

(** The tensors of [test_single_limit_single_dtype]: the second one alone has
    800 bytes, twice the limit, and is a bucket of the expected result. *)
Lemma bucket_bytes_not_bounded_by_limit :
  ¬ (∀ tensors limits bs ls,
       _compute_bucket_assignment_by_size tensors limits = Some (bs, ls) →
       ∀ (k : nat) idx L, bs !! k = Some idx → ls !! k = Some L →
         bucket_bytes tensors idx ≤ L).
Proof.
  intros Hclaim.
  pose proof (Hclaim
    [empty 100 float32; empty 200 float32; empty 100 float32; empty 50 float32]
    [400] _ _ test_single_limit_single_dtype 1%nat [1%nat] 400
    eq_refl eq_refl) as Hle.
  vm_compute in Hle. by apply Hle.
Qed.

(** Whatever the assignment, the bucket that holds the second of these
    tensors has more bytes than the limit. *)
Lemma bucket_with_large_tensor idx :
  1%nat ∈ idx →
  400 < bucket_bytes
          [empty 100 float32; empty 200 float32; empty 100 float32;
           empty 50 float32] idx.
Proof.
  induction idx as [|i idx IH]; intros Hin; [by apply elem_of_nil in Hin|].
  change (i :: idx) with ([i] ++ idx). rewrite bucket_bytes_app.
  pose proof (bucket_bytes_nonneg
    [empty 100 float32; empty 200 float32; empty 100 float32; empty 50 float32]
    [i]) as Hi.
  pose proof (bucket_bytes_nonneg
    [empty 100 float32; empty 200 float32; empty 100 float32; empty 50 float32]
    idx) as Hidx.
  apply elem_of_cons in Hin as [<-|Hin].
  - change (bucket_bytes _ [1%nat]) with 800. lia.
  - specialize (IH Hin). lia.
Qed.

(** C5, amended: for every list of tensors and every non-empty list of
    limits, [_compute_bucket_assignment_by_size] returns buckets that
    together hold every index once; each bucket has increasing indices of
    tensors of one element type and a limit taken from the given limits, and
    is closed as soon as its bytes reach that limit: without its last tensor
    it is empty or below the limit.  Six alternating float[50]/double[25]
    tensors with limit [400] give [[0, 2], [1, 3], [4], [5]], all with limit
    400, and four float[10] tensors with limits [40, 80] give
    [[0], [1, 2], [3]] with limits [40, 80, 80]. *)
Theorem bucket_assignment_closes_at_limit
    (tensors : list grad_tensor) (limits : list Z) :
  limits ≠ [] →
  (∃ bs ls,
     _compute_bucket_assignment_by_size tensors limits = Some (bs, ls)
     ∧ length bs = length ls
     ∧ (∀ (k : nat) idx L, bs !! k = Some idx → ls !! k = Some L →
          idx ≠ []
          ∧ StronglySorted lt idx
          ∧ (∃ d, ∀ i, i ∈ idx → ∃ t, tensors !! i = Some t ∧ dtype_of t = d)
          ∧ L ∈ limits
          ∧ (∀ pre i, idx = pre ++ [i] →
               pre = [] ∨ bucket_bytes tensors pre < L))
     ∧ concat bs ≡ₚ seq 0 (length tensors))
  ∧ _compute_bucket_assignment_by_size
      [empty 50 float32; empty 25 float64; empty 50 float32;
       empty 25 float64; empty 50 float32; empty 25 float64]
      [400]
    = Some ([[0; 2]; [1; 3]; [4]; [5]]%nat, [400; 400; 400; 400])
  ∧ _compute_bucket_assignment_by_size
      [empty 10 float32; empty 10 float32; empty 10 float32; empty 10 float32]
      [40; 80]
    = Some ([[0]; [1; 2]; [3]]%nat, [40; 80; 80]).
Proof.
  intros Hlimits. split; [|split].
  - destruct (compute_bucket_assignment_general tensors limits Hlimits)
      as (bs & ls & Hrun & Hlen & Hgood & Hperm).
    exists bs, ls. split; [done|]. split; [done|]. split; [|done].
    intros k idx L Hidx HL. exact (Hgood k idx L Hidx HL).
  - exact test_single_limit_multi_dtype.
  - exact test_multi_limit_single_dtype.
Qed.

Lemma bucket_assignment_closes_at_limit_witness :
  let tensors :=
    [empty 100 float32; empty 200 float32; empty 100 float32; empty 50 float32] in
  [400] ≠ []
  ∧ ∃ bs ls,
      _compute_bucket_assignment_by_size tensors [400] = Some (bs, ls)
      ∧ length bs = length ls
      ∧ (∀ (k : nat) idx L, bs !! k = Some idx → ls !! k = Some L →
           idx ≠ []
           ∧ StronglySorted lt idx
           ∧ (∃ d, ∀ i, i ∈ idx → ∃ t, tensors !! i = Some t ∧ dtype_of t = d)
           ∧ L ∈ [400]
           ∧ (∀ pre i, idx = pre ++ [i] →
                pre = [] ∨ bucket_bytes tensors pre < L))
      ∧ concat bs ≡ₚ seq 0 (length tensors).
Proof.
  intros tensors.
  assert (Hne : [400] ≠ []) by discriminate.
  split; [exact Hne|].
  exact (proj1 (bucket_assignment_closes_at_limit tensors [400] Hne)).
Defined.

(** ** The stats-export script *)

Example command_split :
  split_on " "%char "git ls-remote https://github.com/pytorch/test-infra generated-stats"
  = ls_remote.
Proof. reflexivity. Qed.

Example split_ls_remote_output :
  split (str_of_string "0123abc	refs/heads/generated-stats
")
  = [str_of_string "0123abc"; str_of_string "refs/heads/generated-stats"].
Proof. vm_compute. reflexivity. Qed.

Example decode_utf8_ascii :
  decode_utf8 (bytes_of_string "ab c") = Ok (str_of_string "ab c").
Proof. vm_compute. reflexivity. Qed.

Example decode_utf8_two_bytes :
  decode_utf8 [Byte.xc3; Byte.xa9] = Ok [233%N].
Proof. vm_compute. reflexivity. Qed.

Example decode_utf8_euro :
  decode_utf8 [Byte.xe2; Byte.x82; Byte.xac] = Ok [8364%N].
Proof. vm_compute. reflexivity. Qed.

Example decode_utf8_overlong :
  decode_utf8 [Byte.xc0; Byte.x80] = Raised UnicodeDecodeError.
Proof. vm_compute. reflexivity. Qed.

Example decode_utf8_surrogate :
  decode_utf8 [Byte.xed; Byte.xa0; Byte.x80] = Raised UnicodeDecodeError.
Proof. vm_compute. reflexivity. Qed.

Section Split.

Implicit Types (s cur tok : str).

Lemma split_from_nonempty cur s : cur ≠ [] → split_from cur s ≠ [].
Proof.
  revert cur. induction s as [|c s IH]; intros cur Hcur; simpl.
  - by destruct cur.
  - destruct (isspace c).
    + by destruct cur.
    + apply IH. by intros [? _]%app_eq_nil.
Qed.

(** No token at all: the text is whitespace throughout. *)
Lemma split_nil_iff s : split s = [] ↔ Forall (λ c, isspace c = true) s.
Proof.
  unfold split. induction s as [|c s IH]; simpl.
  - split; [constructor|done].
  - destruct (isspace c) eqn:Hc.
    + rewrite IH. split; [by constructor|by inv 1].
    + split.
      * intros Hnil. by apply split_from_nonempty in Hnil.
      * inv 1. congruence.
Qed.

(** The first token: the text is whitespace, then the token, then nothing
    or a whitespace character; the token has no whitespace in it. *)
Local Ltac side :=
  first [done | by constructor | by left | by rewrite ?app_nil_r].

Lemma split_from_first cur s tok rest :
  split_from cur s = tok :: rest →
  ∃ ws w tl,
    s = ws ++ w ++ tl
    ∧ tok = cur ++ w
    ∧ Forall (λ c, isspace c = true) ws
    ∧ Forall (λ c, isspace c = false) w
    ∧ (cur ≠ [] → ws = [])
    ∧ (cur = [] → w ≠ [])
    ∧ (tl = [] ∨ ∃ c tl', tl = c :: tl' ∧ isspace c = true).
Proof.
  revert cur. induction s as [|c s IH]; intros cur Hsplit; simpl in Hsplit.
  - destruct cur as [|c0 cur]; [done|]. simplify_eq.
    exists [], [], []. rewrite app_nil_r.
    split_and!; side.
  - destruct (isspace c) eqn:Hc.
    + destruct cur as [|c0 cur].
      * destruct (IH [] Hsplit)
          as (ws & w & tl & -> & -> & Hws & Hw & _ & Hne & Htl).
        exists (c :: ws), w, tl.
        split_and!; side.
      * simplify_eq. exists [], [], (c :: s). rewrite app_nil_r.
        split_and!; try side. right. eauto.
    + destruct (IH _ Hsplit)
        as (ws & w & tl & -> & -> & Hws & Hw & Hcur & _ & Htl).
      rewrite Hcur by (by intros [_ ?]%app_eq_nil). simpl.
      exists [], (c :: w), tl. rewrite <- app_assoc. simpl.
      split_and!; side.
Qed.

Lemma split_first s tok rest :
  split s = tok :: rest →
  ∃ ws tl,
    s = ws ++ tok ++ tl
    ∧ Forall (λ c, isspace c = true) ws
    ∧ tok ≠ []
    ∧ Forall (λ c, isspace c = false) tok
    ∧ (tl = [] ∨ ∃ c tl', tl = c :: tl' ∧ isspace c = true).
Proof.
  intros Hsplit.
  destruct (split_from_first [] s tok rest Hsplit)
    as (ws & w & tl & -> & -> & Hws & Hw & _ & Hne & Htl).
  exists ws, tl. simpl. split_and!; auto.
Qed.

End Split.

Lemma get_sha_decoded run output text :
  run ls_remote = Exited 0 output →
  decode_utf8 output = Ok text →
  get_sha_of_generated_stats_branch run = index (split text) 0.
Proof.
  intros Hrun Hdec. unfold get_sha_of_generated_stats_branch.
  rewrite command_split. unfold check_output. rewrite Hrun. simpl.
  by rewrite Hdec.
Qed.

(** C3: when the query exits with 0 and its output decodes to a text with at
    least one token, [main] leaves in the file of the branch hash exactly the
    first whitespace-separated token of that text (the text is whitespace,
    then the token, then nothing or whitespace), and touches no other file. *)
Theorem main_writes_first_token
    (run : list string → process_result) (fs : files)
    (output : list Byte.byte) (text tok : str) (rest : list str) :
  run ls_remote = Exited 0 output →
  decode_utf8 output = Ok text →
  split text = tok :: rest →
  get_sha_of_generated_stats_branch run = Ok tok
  ∧ main run fs = (Ok tt, <[sha_file := tok]> fs)
  ∧ ∃ ws tl,
      text = ws ++ tok ++ tl
      ∧ Forall (λ c, isspace c = true) ws
      ∧ tok ≠ []
      ∧ Forall (λ c, isspace c = false) tok
      ∧ (tl = [] ∨ ∃ c tl', tl = c :: tl' ∧ isspace c = true).
Proof.
  intros Hrun Hdec Hsplit.
  assert (Hsha : get_sha_of_generated_stats_branch run = Ok tok).
  { rewrite (get_sha_decoded run output text Hrun Hdec), Hsplit. done. }
  split; [done|]. split; [|by eapply split_first].
  unfold main. rewrite Hsha. f_equal.
  apply map_eq. intros path. destruct (decide (path = sha_file)) as [->|Hne].
  - by rewrite lookup_alter_eq, !lookup_insert_eq.
  - by rewrite lookup_alter_ne, !lookup_insert_ne.
Qed.

Lemma main_writes_first_token_witness :
  let output := bytes_of_string "0123abc	refs/heads/generated-stats
" in
  let run : list string → process_result := λ _, Exited 0 output in
  let text := str_of_string "0123abc	refs/heads/generated-stats
" in
  let tok := str_of_string "0123abc" in
  let rest := [str_of_string "refs/heads/generated-stats"] in
  run ls_remote = Exited 0 output
  ∧ decode_utf8 output = Ok text
  ∧ split text = tok :: rest
  ∧ get_sha_of_generated_stats_branch run = Ok tok
  ∧ main run ∅ = (Ok tt, <[sha_file := tok]> ∅)
  ∧ ∃ ws tl,
      text = ws ++ tok ++ tl
      ∧ Forall (λ c, isspace c = true) ws
      ∧ tok ≠ []
      ∧ Forall (λ c, isspace c = false) tok
      ∧ (tl = [] ∨ ∃ c tl', tl = c :: tl' ∧ isspace c = true).
Proof.
  intros output run text tok rest.
  assert (H1 : run ls_remote = Exited 0 output) by reflexivity.
  assert (H2 : decode_utf8 output = Ok text) by (vm_compute; reflexivity).
  assert (H3 : split text = tok :: rest) by (vm_compute; reflexivity).
  split; [exact H1|]. split; [exact H2|]. split; [exact H3|].
  exact (main_writes_first_token run ∅ output text tok rest H1 H2 H3).
Defined.

(** C10: when the query exits with 0 and its output decodes to a text
    without any token, the index [[0]] raises [IndexError] in
    [get_sha_of_generated_stats_branch], nothing in [main] catches it, and
    the file of the branch hash, created or emptied before, holds nothing. *)
Theorem main_without_token_raises
    (run : list string → process_result) (fs : files)
    (output : list Byte.byte) (text : str) :
  run ls_remote = Exited 0 output →
  decode_utf8 output = Ok text →
  split text = [] →
  get_sha_of_generated_stats_branch run = Raised IndexError
  ∧ (main run fs).1 = Raised IndexError
  ∧ (main run fs).2 = <[sha_file := []]> fs
  ∧ (main run fs).2 !! sha_file = Some [].
Proof.
  intros Hrun Hdec Hsplit.
  assert (Hsha : get_sha_of_generated_stats_branch run = Raised IndexError).
  { rewrite (get_sha_decoded run output text Hrun Hdec), Hsplit. done. }
  unfold main. rewrite Hsha. simpl.
  split_and!; [done..|]. by rewrite lookup_insert_eq.
Qed.

Lemma main_without_token_raises_witness :
  let run : list string → process_result := λ _, Exited 0 [] in
  let fs : files := <[sha_file := str_of_string "old"]> ∅ in
  run ls_remote = Exited 0 []
  ∧ decode_utf8 [] = Ok []
  ∧ split [] = []
  ∧ get_sha_of_generated_stats_branch run = Raised IndexError
  ∧ (main run fs).1 = Raised IndexError
  ∧ (main run fs).2 = <[sha_file := []]> fs
  ∧ (main run fs).2 !! sha_file = Some [].
Proof.
  intros run fs.
  assert (H1 : run ls_remote = Exited 0 []) by reflexivity.
  assert (H2 : decode_utf8 [] = Ok []) by reflexivity.
  assert (H3 : split [] = []) by reflexivity.
  split; [exact H1|]. split; [exact H2|]. split; [exact H3|].
  exact (main_without_token_raises run fs [] [] H1 H2 H3).
Defined.

Example main_only_whitespace :
  main (λ _, Exited 0 (bytes_of_string "  
")) ∅
  = (Raised IndexError, <[sha_file := []]> ∅).
Proof. vm_compute. reflexivity. Qed.

(** * Further properties of the code *)

(** ** More on the devices of a rank *)

Section GpusForRankMore.

(** Without ranks there is nothing to divide by; a negative world has no
    rank at all; with fewer devices than ranks every rank gets the empty
    list. *)
Theorem gpus_for_rank_edges (d : Z) :
  gpus_for_rank d 0 = Raised ZeroDivisionError
  ∧ (∀ w, w < 0 → gpus_for_rank d w = Ok [])
  ∧ (∀ w, 0 ≤ d < w → gpus_for_rank d w = Ok (replicate (Z.to_nat w) [])).
Proof.
  split; [done|]. split.
  - intros w Hw. unfold gpus_for_rank, floordiv.
    rewrite decide_False by lia. simpl.
    unfold range. by rewrite (seqZ_nil 0 w) by lia.
  - intros w Hw. rewrite gpus_for_rank_eq by lia. f_equal.
    rewrite Z.div_small by lia.
    apply list_eq. intros i. rewrite list_lookup_fmap.
    destruct (decide (i < Z.to_nat w)%nat) as [Hi|Hi].
    + unfold range. rewrite lookup_seqZ_lt by lia. simpl.
      by rewrite lookup_replicate_2.
    + unfold range. rewrite lookup_seqZ_ge by lia. simpl.
      symmetry. apply lookup_replicate_None. lia.
Qed.

Lemma gpus_for_rank_edges_witness :
  gpus_for_rank 2 0 = Raised ZeroDivisionError
  ∧ gpus_for_rank 2 (-1) = Ok []
  ∧ gpus_for_rank 2 3 = Ok [[]; []; []].
Proof.
  destruct (gpus_for_rank_edges 2) as (Hzero & Hneg & Hfew).
  split; [exact Hzero|].
  split; [apply Hneg; lia|apply (Hfew 3); lia].
Defined.

Lemma concat_seqZ_blocks (k : Z) (n : nat) :
  0 ≤ k →
  concat ((λ r, seqZ (r * k) k) <$> seqZ 0 (Z.of_nat n))
  = seqZ 0 (Z.of_nat n * k).
Proof.
  intros Hk. induction n as [|n IH].
  - done.
  - rewrite seqZ_S, fmap_app, concat_app, IH. simpl. rewrite app_nil_r.
    replace (Z.of_nat (S n) * k) with (Z.of_nat n * k + k) by lia.
    rewrite (seqZ_app 0 (Z.of_nat n * k) k) by lia. done.
Qed.

(** Put one after the other, the lists of the ranks are the first
    [world_size * (device_count // world_size)] devices, in order. *)
Theorem gpus_for_rank_concat (d w : Z) :
  0 ≤ d → 1 ≤ w →
  ∃ L, gpus_for_rank d w = Ok L
       ∧ concat L = range (w * (d `div` w))
       ∧ concat L ++ seqZ (w * (d `div` w)) (d `mod` w) = range d.
Proof.
  intros Hd Hw. eexists. split; [by apply gpus_for_rank_eq|].
  assert (Hk : 0 ≤ d `div` w) by (apply Z.div_pos; lia).
  assert (Hcat : concat ((λ r, seqZ (r * (d `div` w)) (d `div` w)) <$> range w)
                 = range (w * (d `div` w))).
  { unfold range. rewrite <- (Z2Nat.id w) at 1 2 by lia.
    by rewrite concat_seqZ_blocks. }
  split; [done|]. rewrite Hcat. unfold range.
  pose proof (Z.mod_pos_bound d w ltac:(lia)).
  rewrite <- (seqZ_app 0) by lia.
  f_equal. pose proof (Z.div_mod d w ltac:(lia)). lia.
Qed.

Lemma gpus_for_rank_concat_witness :
  0 ≤ 7 ∧ 1 ≤ 3
  ∧ ∃ L, gpus_for_rank 7 3 = Ok L
         ∧ concat L = range (3 * (7 `div` 3))
         ∧ concat L ++ seqZ (3 * (7 `div` 3)) (7 `mod` 3) = range 7.
Proof.
  split; [lia|]. split; [lia|]. apply (gpus_for_rank_concat 7 3); lia.
Defined.

(** The device of a rank is the first of its list: [rank * k] when every
    rank has [k >= 1] devices, so two ranks never share it; with fewer
    devices than ranks the list is empty and the index raises. *)
Theorem device_id_of_rank (d w r : Z) :
  0 ≤ d → 0 ≤ r < w →
  (w ≤ d → device_id d w r = Ok (r * (d `div` w))
           ∧ ∀ r', 0 ≤ r' < w → device_id d w r' = device_id d w r → r' = r)
  ∧ (d < w → device_id d w r = Raised IndexError).
Proof.
  intros Hd Hr.
  assert (Hidx : index ((λ r, seqZ (r * (d `div` w)) (d `div` w)) <$> range w) r
                 = Ok (seqZ (r * (d `div` w)) (d `div` w))).
  { unfold index. rewrite length_fmap. unfold range. rewrite length_seqZ.
    destruct (decide (r < 0)) as [|_]; [lia|].
    rewrite decide_True by lia. rewrite list_lookup_fmap.
    rewrite lookup_seqZ_lt by lia. simpl. by rewrite Z2Nat.id by lia. }
  assert (Hdev : ∀ r0, 0 ≤ r0 < w → w ≤ d →
            device_id d w r0 = Ok (r0 * (d `div` w))).
  { intros r0 Hr0 Hwd. unfold device_id.
    rewrite gpus_for_rank_eq by lia. simpl.
    assert (1 ≤ d `div` w) by (apply Z.div_le_lower_bound; lia).
    unfold index at 1. rewrite length_fmap. unfold range. rewrite length_seqZ.
    destruct (decide (r0 < 0)) as [|_]; [lia|].
    rewrite decide_True by lia. rewrite list_lookup_fmap.
    rewrite lookup_seqZ_lt by lia. simpl. rewrite Z2Nat.id by lia.
    unfold index. rewrite length_seqZ. simpl.
    rewrite decide_True by lia. rewrite lookup_seqZ_lt by lia.
    f_equal. lia. }
  split.
  - intros Hwd. split; [by apply Hdev|].
    intros r' Hr' Heq. rewrite !Hdev in Heq by done.
    assert (1 ≤ d `div` w) by (apply Z.div_le_lower_bound; lia).
    simplify_eq. nia.
  - intros Hdw. unfold device_id. rewrite gpus_for_rank_eq by lia. simpl.
    rewrite Hidx. simpl. rewrite Z.div_small by lia. done.
Qed.

Lemma device_id_of_rank_witness :
  0 ≤ 8 ∧ 0 ≤ 1 < 4
  ∧ (4 ≤ 8 → device_id 8 4 1 = Ok (1 * (8 `div` 4))
             ∧ ∀ r', 0 ≤ r' < 4 → device_id 8 4 r' = device_id 8 4 1 → r' = 1)
  ∧ (8 < 4 → device_id 8 4 1 = Raised IndexError).
Proof.
  split; [lia|]. split; [lia|]. apply (device_id_of_rank 8 4 1); lia.
Defined.

End GpusForRankMore.

(** ** The batches of the ranks *)

Section DummyData.

Lemma slice_block {A} (l : list A) (k r : Z) :
  0 ≤ k → 0 ≤ r →
  slice l (r * k) (r * k + k)
  = take (Z.to_nat k) (drop (Z.to_nat r * Z.to_nat k) l).
Proof.
  intros Hk Hr. unfold slice, slice_bound.
  destruct (decide (r * k < 0)) as [|_]; [nia|].
  destruct (decide (r * k + k < 0)) as [|_]; [nia|].
  replace (Z.to_nat r * Z.to_nat k)%nat with (Z.to_nat (r * k)) by nia.
  destruct (decide (Z.of_nat (length l) ≤ r * k)) as [Hge|Hlt].
  - rewrite !drop_ge by lia. by rewrite !take_nil.
  - rewrite (Z.min_l (r * k)) by lia.
    destruct (decide (r * k + k ≤ Z.of_nat (length l))) as [Hin|Hout].
    + rewrite Z.min_l by lia. f_equal. lia.
    + rewrite Z.min_r by lia.
      rewrite !take_ge; [done|rewrite length_drop; lia..].
Qed.

Lemma concat_blocks {A} (l : list A) (k n : nat) :
  concat ((λ r, take k (drop (r * k) l)) <$> seq 0 n) = take (n * k) l.
Proof.
  induction n as [|n IH]; [done|].
  rewrite seq_S, fmap_app, concat_app, IH. simpl. rewrite app_nil_r.
  rewrite take_take_drop. f_equal. lia.
Qed.

(** The inputs of the ranks, one after the other, are the whole batch, and
    so are the targets; every rank has 16 rows of each. *)
Theorem prepare_dummy_data_tiles {Row : Type} (rand randn : Z → list Row)
    (world_size : Z) :
  0 ≤ world_size →
  (∀ n, 0 ≤ n → length (rand n) = Z.to_nat n) →
  (∀ n, 0 ≤ n → length (randn n) = Z.to_nat n) →
  concat ((λ rank, (_prepare_dummy_data rand randn rank world_size).1.1.2)
            <$> range world_size)
  = rand (16 * world_size)
  ∧ concat ((λ rank, (_prepare_dummy_data rand randn rank world_size).2)
              <$> range world_size)
    = randn (16 * world_size)
  ∧ ∀ rank, 0 ≤ rank < world_size →
      length (_prepare_dummy_data rand randn rank world_size).1.1.2 = 16%nat
      ∧ length (_prepare_dummy_data rand randn rank world_size).2 = 16%nat.
Proof.
  intros Hws Hrand Hrandn.
  assert (Htile : ∀ l : list Row, length l = Z.to_nat (16 * world_size) →
            concat ((λ rank, slice l (rank * 16) (rank * 16 + 16))
                      <$> range world_size) = l).
  { intros l Hl. unfold range, seqZ. rewrite <- list_fmap_compose.
    erewrite list_fmap_ext.
    - rewrite (concat_blocks l 16 (Z.to_nat world_size)).
      apply take_ge. lia.
    - intros i r _. simpl. rewrite slice_block by lia.
      do 2 f_equal. lia. }
  assert (Hblock : ∀ (l : list Row) rank,
            length l = Z.to_nat (16 * world_size) → 0 ≤ rank < world_size →
            length (slice l (rank * 16) (rank * 16 + 16)) = 16%nat).
  { intros l rank Hl Hrank. rewrite slice_block by lia.
    rewrite length_take, length_drop. lia. }
  unfold _prepare_dummy_data. simpl.
  split; [apply Htile, Hrand; lia|].
  split; [apply Htile, Hrandn; lia|].
  intros rank Hrank. split; apply Hblock; auto with lia.
Qed.

Lemma prepare_dummy_data_tiles_witness :
  let rand : Z → list Z := λ n, seqZ 0 n in
  let randn : Z → list Z := λ n, seqZ 100 n in
  0 ≤ 2
  ∧ (∀ n, 0 ≤ n → length (rand n) = Z.to_nat n)
  ∧ (∀ n, 0 ≤ n → length (randn n) = Z.to_nat n)
  ∧ concat ((λ rank, (_prepare_dummy_data rand randn rank 2).1.1.2)
              <$> range 2)
    = rand (16 * 2)
  ∧ concat ((λ rank, (_prepare_dummy_data rand randn rank 2).2) <$> range 2)
    = randn (16 * 2)
  ∧ ∀ rank, 0 ≤ rank < 2 →
      length (_prepare_dummy_data rand randn rank 2).1.1.2 = 16%nat
      ∧ length (_prepare_dummy_data rand randn rank 2).2 = 16%nat.
Proof.
  intros rand randn.
  assert (H0 : 0 ≤ 2) by lia.
  assert (H1 : ∀ n, 0 ≤ n → length (rand n) = Z.to_nat n)
    by (intros n _; apply length_seqZ).
  assert (H2 : ∀ n, 0 ≤ n → length (randn n) = Z.to_nat n)
    by (intros n _; apply length_seqZ).
  split; [exact H0|]. split; [exact H1|]. split; [exact H2|].
  exact (prepare_dummy_data_tiles rand randn 2 H0 H1 H2).
Defined.

End DummyData.

(** ** More on the collectives *)

Section CollectivesMore.
Context {E : Type} `{!Scalar E}.

Implicit Types (h : heap E) (l t : loc) (ts : list loc).

Lemma same_shapes_refl h : same_shapes h h.
Proof. done. Qed.

Lemma same_shapes_trans h1 h2 h3 :
  same_shapes h1 h2 → same_shapes h2 h3 → same_shapes h1 h3.
Proof. intros H12 H23 l. by rewrite H23, H12. Qed.

Lemma for_same_shapes {A} (xs : list A) (body : A → M E unit) h :
  (∀ x h0, same_shapes h0 (body x h0).2) →
  same_shapes h (for_ xs body h).2.
Proof.
  intros Hbody. revert h. induction xs as [|x xs IH]; intros h; simpl; [done|].
  unfold bindM. pose proof (Hbody x h) as Hx.
  destruct (body x h) as [[[]|e] h1]; simpl in *; [|done].
  eapply same_shapes_trans; [exact Hx|apply IH].
Qed.

Lemma add__same_shapes t c h : same_shapes h (add_ t c h).2.
Proof.
  intros l. unfold add_. simpl.
  destruct (decide (l = t)) as [->|Hne].
  - rewrite lookup_alter_eq. by destruct (h !! t).
  - by rewrite lookup_alter_ne.
Qed.

Lemma copy__same_shapes dst src h : same_shapes h (copy_ dst src h).2.
Proof.
  intros l. unfold copy_.
  destruct (h !! dst) as [d|] eqn:Hd; [|done].
  destruct (h !! src) as [s|] eqn:Hs; [|done].
  assert (Hins : ∀ xs, shape <$> <[dst := mkTensor (shape d) xs]> h !! l
                       = shape <$> h !! l).
  { intros xs. destruct (decide (l = dst)) as [->|Hne].
    - by rewrite lookup_insert_eq, Hd.
    - by rewrite lookup_insert_ne. }
  destruct (decide (shape d = shape s)); [apply Hins|].
  destruct (decide (broadcastable (shape s) (shape d))); [apply Hins|done].
Qed.

Lemma then_ret_heap {A} (m : M E unit) (a : A) h :
  (bindM m (λ _, ret a) h).2 = (m h).2.
Proof. unfold bindM. by destruct (m h) as [[[]|e] h1]. Qed.

(** Whatever their arguments, and also when they raise, the collectives
    leave every tensor object in place with its shape: they create none,
    drop none and reshape none. *)
Theorem collectives_keep_shapes (self : DummyProcessGroup) (h : heap E) :
  (∀ outs ins, same_shapes h (allgather self outs ins h).2)
  ∧ (∀ ts, same_shapes h (allreduce self ts h).2)
  ∧ (∀ ts, same_shapes h (broadcast self ts h).2)
  ∧ (∀ outs ins, same_shapes h (reduce_scatter self outs ins h).2)
  ∧ (∀ ts dst tag, same_shapes h (send self ts dst tag h).2)
  ∧ (∀ ts src tag, same_shapes h (recv self ts src tag h).2).
Proof.
  split_and!; intros;
    unfold allgather, allreduce, broadcast, reduce_scatter, send, recv;
    rewrite then_ret_heap; apply for_same_shapes.
  - intros [otl it] h0. apply for_same_shapes. intros o h1.
    apply copy__same_shapes.
  - intros; apply add__same_shapes.
  - intros; apply add__same_shapes.
  - intros [o itl] h0. unfold bindM, lift.
    destruct (index itl (rank self)) as [src|e]; [|done].
    apply copy__same_shapes.
  - intros; apply add__same_shapes.
  - intros; apply add__same_shapes.
Qed.

Lemma zip_take_both {A B} (xs : list A) (ys : list B) :
  zip xs ys = zip (take (length ys) xs) (take (length xs) ys).
Proof.
  revert ys. induction xs as [|x xs IH]; intros [|y ys]; simpl; try done.
  by rewrite <- IH.
Qed.

(** The lists are walked in step, up to the end of the shorter one: the
    tensors beyond it are neither read nor written. *)
Theorem collectives_stop_at_shorter (self : DummyProcessGroup) (h : heap E) :
  (∀ (outs : list (list loc)) (ins : list loc),
     allgather self outs ins h
     = allgather self (take (length ins) outs) (take (length outs) ins) h)
  ∧ (∀ (outs : list loc) (ins : list (list loc)),
       reduce_scatter self outs ins h
       = reduce_scatter self (take (length ins) outs)
                        (take (length outs) ins) h).
Proof.
  split; intros outs ins; unfold allgather, reduce_scatter;
    by rewrite <- zip_take_both.
Qed.

(** When the first input list that is too short for the rank is reached,
    [reduce_scatter] raises [IndexError]; the copies made before stay. *)
Theorem reduce_scatter_short_list (self : DummyProcessGroup)
    (outs1 outs2 : list loc) (o : loc) (ins1 ins2 : list (list loc))
    (itl : list loc) (h h1 : heap E) :
  length outs1 = length ins1 →
  0 ≤ rank self →
  Z.of_nat (length itl) ≤ rank self →
  reduce_scatter self outs1 ins1 h = (Ok mkDummyWork, h1) →
  reduce_scatter self (outs1 ++ o :: outs2) (ins1 ++ itl :: ins2) h
  = (Raised IndexError, h1).
Proof.
  intros Hlen Hrank Hshort Hrun. unfold reduce_scatter in *.
  rewrite zip_with_app by done. simpl.
  unfold bindM at 1. rewrite for_app. unfold bindM at 1.
  unfold bindM at 1 in Hrun.
  destruct (for_ (zip outs1 ins1) _ h) as [[[]|e] h'] eqn:Hfor;
    [|discriminate].
  unfold ret in Hrun. simplify_eq. simpl.
  unfold bindM at 1 2, lift, index.
  destruct (decide (rank self < 0)) as [|_]; [lia|].
  rewrite decide_False by lia. done.
Qed.

End CollectivesMore.

Lemma reduce_scatter_short_list_witness :
  let self := mkDummyProcessGroup 1 2 in
  let h : heap Float32 :=
    <[1%positive := zeros [2; 2]%nat]>
      (<[2%positive := zeros [2; 2]%nat]>
         (<[3%positive := ones [2; 2]%nat]>
            (<[4%positive := mul_scalar 7 (ones [2; 2]%nat)]> ∅))) in
  let h1 : heap Float32 := <[1%positive := mul_scalar 7 (ones [2; 2]%nat)]> h in
  length [1%positive] = length [[3%positive; 4%positive]]
  ∧ 0 ≤ rank self
  ∧ Z.of_nat (length [3%positive]) ≤ rank self
  ∧ reduce_scatter self [1%positive] [[3%positive; 4%positive]] h
    = (Ok mkDummyWork, h1)
  ∧ h1 ≠ h
  ∧ reduce_scatter self ([1%positive] ++ 2%positive :: [])
                   ([[3%positive; 4%positive]] ++ [3%positive] :: []) h
    = (Raised IndexError, h1).
Proof.
  intros self h h1.
  assert (H1 : length [1%positive] = length [[3%positive; 4%positive]])
    by reflexivity.
  assert (H2 : 0 ≤ rank self) by (simpl; lia).
  assert (H3 : Z.of_nat (length [3%positive]) ≤ rank self) by (simpl; lia).
  assert (H4 : reduce_scatter self [1%positive] [[3%positive; 4%positive]] h
               = (Ok mkDummyWork, h1)) by (vm_compute; reflexivity).
  split; [exact H1|]. split; [exact H2|]. split; [exact H3|]. split; [exact H4|].
  split; [by vm_compute|].
  exact (reduce_scatter_short_list self [1%positive] [] 2%positive
           [[3%positive; 4%positive]] [] [3%positive] h h1 H1 H2 H3 H4).
Defined.

Section AddingCollectives.
Context {E : Type} `{!Scalar E}.

Implicit Types (h : heap E) (l t : loc) (ts : list loc).

Lemma iter_commute {A} (f g : A → A) (k m : nat) (x : A) :
  (∀ y, f (g y) = g (f y)) →
  Nat.iter k f (Nat.iter m g x) = Nat.iter m g (Nat.iter k f x).
Proof.
  intros Hfg. induction k as [|k IH]; simpl; [done|].
  rewrite IH. clear IH. induction m as [|m IH]; simpl; [done|].
  by rewrite <- IH, Hfg.
Qed.

Lemma iter_compose {A} (f g fg : A → A) (k : nat) (x : A) :
  (∀ y, f (g y) = g (f y)) → (∀ y, f (g y) = fg y) →
  Nat.iter k f (Nat.iter k g x) = Nat.iter k fg x.
Proof.
  intros Hcomm Hfg. induction k as [|k IH]; simpl; [done|].
  rewrite <- IH, <- Hfg. f_equal.
  change (g (Nat.iter k g x)) with (Nat.iter 1 g (Nat.iter k g x)).
  by rewrite (iter_commute f g k 1).
Qed.

(** Adding [c1] and then [c2] to the listed tensors, in a dtype in which
    the two additions commute and make up the addition of [c3]. *)
Lemma foldl_alter_add_add ts c1 c2 c3 h :
  (∀ x : E, add_number (add_number x c1) c2
            = add_number (add_number x c2) c1) →
  (∀ x : E, add_number (add_number x c1) c2 = add_number x c3) →
  foldl (λ h t, alter (add_scalar c2) t h)
        (foldl (λ h t, alter (add_scalar c1) t h) h ts) ts
  = foldl (λ h t, alter (add_scalar c3) t h) h ts.
Proof.
  intros Hcomm Hsum.
  apply map_eq. intros l. rewrite !lookup_foldl_alter.
  destruct (h !! l) as [x|]; simpl; [|done].
  rewrite !iter_add_scalar. simpl. do 2 f_equal.
  rewrite <- list_fmap_compose. apply list_fmap_ext. intros i v _. simpl.
  by apply iter_compose.
Qed.

Lemma adding_collectives_commuting (self : DummyProcessGroup)
    (ts : list loc) (dst src tag : Z) (h : heap E) :
  (∀ x : E, add_number (add_number x 2) 1 = add_number (add_number x 1) 2) →
  (∀ x : E, add_number (add_number x 2) 1 = add_number x 3) →
  ∃ h',
    bindM (allreduce self ts) (λ _, broadcast self ts) h = (Ok mkDummyWork, h')
    ∧ bindM (broadcast self ts) (λ _, allreduce self ts) h
      = (Ok mkDummyWork, h')
    ∧ bindM (send self ts dst tag) (λ _, recv self ts src tag) h
      = (Ok mkDummyWork, h')
    ∧ bindM (recv self ts src tag) (λ _, send self ts dst tag) h
      = (Ok mkDummyWork, h')
    ∧ adds_elementwise 3 ts h h'.
Proof.
  intros Hcomm Hsum.
  destruct (for_add_adds_elementwise ts 3 h) as (h' & Hrun & Hadd).
  rewrite for_add_ in Hrun. simplify_eq.
  eexists. split_and!; [| | | |exact Hadd];
    unfold allreduce, broadcast, send, recv, bindM;
    rewrite !for_add_; simpl; rewrite !for_add_; simpl;
    apply f_equal, foldl_alter_add_add; congruence.
Qed.

End AddingCollectives.

Lemma wrap64_add (x a b : Z) : wrap64 (wrap64 (x + a) + b) = wrap64 (x + (a + b)).
Proof.
  unfold wrap64.
  change (2 ^ 63) with 9223372036854775808.
  change (2 ^ 64) with 18446744073709551616.
  Z.div_mod_to_equations. lia.
Qed.

(** One collective after the other on the same list of [Int64] tensors,
    whose additions wrap around: [allreduce] and [broadcast], in either
    order, and [send] and [recv], in either order, add 3 to every entry of
    every listed tensor (once per listing), and the order makes no
    difference to any tensor.  On [Float32] tensors the order does make a
    difference: from an entry [2^24], [allreduce] and then [broadcast] give
    16777220, [broadcast] and then [allreduce] 16777218. *)
Theorem adding_collectives_compose :
  (∀ (self : DummyProcessGroup) (ts : list loc) (dst src tag : Z)
     (h : heap Int64),
     ∃ h',
       bindM (allreduce self ts) (λ _, broadcast self ts) h
       = (Ok mkDummyWork, h')
       ∧ bindM (broadcast self ts) (λ _, allreduce self ts) h
         = (Ok mkDummyWork, h')
       ∧ bindM (send self ts dst tag) (λ _, recv self ts src tag) h
         = (Ok mkDummyWork, h')
       ∧ bindM (recv self ts src tag) (λ _, send self ts dst tag) h
         = (Ok mkDummyWork, h')
       ∧ adds_elementwise 3 ts h h')
  ∧ (∀ self : DummyProcessGroup,
       let h : heap Float32 := {[ 1%positive := full [1]%nat 16777216 ]} in
       bindM (allreduce self [1%positive]) (λ _, broadcast self [1%positive]) h
       = (Ok mkDummyWork, {[ 1%positive := full [1]%nat 16777220 ]})
       ∧ bindM (broadcast self [1%positive]) (λ _, allreduce self [1%positive]) h
         = (Ok mkDummyWork, {[ 1%positive := full [1]%nat 16777218 ]})).
Proof.
  split.
  - intros self ts dst src tag h.
    apply adding_collectives_commuting; intros x; simpl;
      rewrite !wrap64_add; f_equal; lia.
  - intros self h. split; by vm_compute.
Qed.

Section GatherAgain.
Context {E : Type} `{!Scalar E}.

Implicit Types (h : heap E) (l t : loc) (ts : list loc).

Lemma for_copy_pairs_idempotent (pairs : list (loc * loc)) h h' :
  (∀ d s, (d, s) ∈ pairs →
     ∃ td tsrc, h !! d = Some td ∧ h !! s = Some tsrc ∧ shape td = shape tsrc) →
  (∀ d s d' s', (d, s) ∈ pairs → (d', s') ∈ pairs → s ≠ d') →
  (∀ d s s', (d, s) ∈ pairs → (d, s') ∈ pairs → s' = s) →
  for_ pairs (λ '(d, s), copy_ d s) h = (Ok tt, h') →
  for_ pairs (λ '(d, s), copy_ d s) h' = (Ok tt, h').
Proof.
  intros Halloc Hsep Hfun Hrun.
  destruct (for_copy_pairs pairs h Halloc Hsep) as (h1 & Hrun1 & Hoth1 & Hdst1).
  assert (h1 = h') as -> by congruence.
  assert (Hsrc : ∀ d s, (d, s) ∈ pairs → h' !! s = h !! s).
  { intros d s Hin. apply Hoth1. intros s' Hin'.
    by apply (Hsep d s s s'). }
  destruct (for_copy_pairs pairs h') as (h2 & Hrun2 & Hoth2 & Hdst2).
  { intros d s Hin. destruct (Halloc d s Hin) as (td & tsrc & _ & Hs & _).
    exists tsrc, tsrc. rewrite (Hsrc d s Hin).
    rewrite (Hdst1 d s Hin) by (intros; by eapply Hfun). done. }
  { done. }
  rewrite Hrun2. f_equal. apply map_eq. intros l.
  destruct (decide (l ∈ pairs.*1)) as [Hin|Hnin].
  - apply list_elem_of_fmap in Hin as ([d s] & -> & Hin). simpl.
    rewrite (Hdst2 d s Hin) by (intros; by eapply Hfun).
    rewrite (Hsrc d s Hin).
    by rewrite (Hdst1 d s Hin) by (intros; by eapply Hfun).
  - apply Hoth2. intros s Hin. apply Hnin.
    apply list_elem_of_fmap. by exists (l, s).
Qed.

(** Gathering again changes nothing: when no input tensor is also an output
    and every output tensor is listed under one input only, a second
    [allgather] with the same arguments returns with the same heap. *)
Theorem allgather_idempotent (self : DummyProcessGroup)
    (outs : list (list loc)) (ins : list loc) (h h' : heap E) :
  (∀ (i : nat) otl it o, outs !! i = Some otl → ins !! i = Some it → o ∈ otl →
     ∃ td tsrc, h !! o = Some td ∧ h !! it = Some tsrc
                ∧ shape td = shape tsrc) →
  (∀ (i j : nat) otl it_i otl_j it,
     outs !! i = Some otl → ins !! i = Some it_i →
     outs !! j = Some otl_j → ins !! j = Some it → it ∉ otl) →
  (∀ (i j : nat) otl otl' it it' o,
     outs !! i = Some otl → ins !! i = Some it →
     outs !! j = Some otl' → ins !! j = Some it' →
     o ∈ otl → o ∈ otl' → it' = it) →
  allgather self outs ins h = (Ok mkDummyWork, h') →
  allgather self outs ins h' = (Ok mkDummyWork, h').
Proof.
  intros Halloc Hsep Hfun Hrun.
  rewrite allgather_as_pairs in Hrun. rewrite allgather_as_pairs.
  unfold bindM in *.
  destruct (for_ (allgather_pairs outs ins) _ h) as [[[]|e] h1] eqn:Hfor;
    [|discriminate].
  unfold ret in Hrun. simplify_eq.
  rewrite (for_copy_pairs_idempotent _ h h'); [done| | | |done].
  - intros d s (i & otl & Ho & Hi & Hd)%elem_of_allgather_pairs. eauto.
  - intros d s d' s' (i & otl & Ho & Hi & Hd)%elem_of_allgather_pairs
      (j & otl' & Ho' & Hi' & Hd')%elem_of_allgather_pairs ->.
    by apply (Hsep j i otl' s' otl d').
  - intros d s s' (i & otl & Ho & Hi & Hd)%elem_of_allgather_pairs
      (j & otl' & Ho' & Hi' & Hd')%elem_of_allgather_pairs.
    by apply (Hfun i j otl otl' s s' d).
Qed.

End GatherAgain.

Lemma allgather_idempotent_witness :
  let self := mkDummyProcessGroup 0 2 in
  let outs := [[2%positive; 3%positive]] in
  let ins := [1%positive] in
  let h : heap Float32 := <[1%positive := mul_scalar 7 (ones [2; 2]%nat)]>
                    (<[2%positive := zeros [2; 2]%nat]>
                       (<[3%positive := zeros [2; 2]%nat]> ∅)) in
  let h' : heap Float32 := <[1%positive := mul_scalar 7 (ones [2; 2]%nat)]>
                     (<[2%positive := mul_scalar 7 (ones [2; 2]%nat)]>
                        (<[3%positive := mul_scalar 7 (ones [2; 2]%nat)]> ∅)) in
  allgather self outs ins h = (Ok mkDummyWork, h')
  ∧ allgather self outs ins h' = (Ok mkDummyWork, h').
Proof.
  intros self outs ins h h'.
  assert (Hrun : allgather self outs ins h = (Ok mkDummyWork, h'))
    by (vm_compute; reflexivity).
  split; [exact Hrun|].
  apply (allgather_idempotent self outs ins h h'); [| | |exact Hrun].
  - intros [|i] otl it o Ho Hi Hin; simplify_eq/=.
    repeat (apply elem_of_cons in Hin as [->|Hin]);
      [by eexists _, _..|by apply elem_of_nil in Hin].
  - intros [|i] [|j] otl it_i otl_j it Ho Hi Ho' Hi' Hin; simplify_eq/=.
    repeat (apply elem_of_cons in Hin as [Hin|Hin]); [done..|].
    by apply elem_of_nil in Hin.
  - intros [|i] [|j] otl otl' it it' o Ho Hi Ho' Hi' _ _; by simplify_eq/=.
Defined.

(** ** More on the barrier *)

Section BarrierMore.

Lemma count_returned_Forall l :
  Forall (λ pc, pc = BReturned mkDummyWork) l →
  count_returned l = length l.
Proof. induction 1 as [|pc l -> _ IH]; simpl; [done|]. by rewrite IH. Qed.

Lemma step_rank_procs_other n w r j :
  j ≠ r → procs (step_rank n w r) !! j = procs w !! j.
Proof.
  intros Hne. unfold step_rank.
  destruct (procs w !! r) as [pc|]; [|done].
  destruct (barrier_step _ pc (shared w)) as [[[pc' σ'] ev]|]; [|done].
  simpl. by rewrite list_lookup_insert_ne.
Qed.

Lemma step_rank_length n w r :
  length (procs (step_rank n w r)) = length (procs w).
Proof.
  unfold step_rank.
  destruct (procs w !! r) as [pc|]; [|done].
  destruct (barrier_step _ pc (shared w)) as [[[pc' σ'] ev]|]; [|done].
  simpl. by rewrite length_insert.
Qed.

Lemma step_rank_nonzero n σ0 w r :
  0 ≤ counter barrier_key σ0 → reachable n σ0 w →
  (1 ≤ r)%nat → (r < length (procs w))%nat →
  procs (step_rank n w r) !! r = Some (BReturned mkDummyWork).
Proof.
  intros Hc0 Hreach Hr1 Hlt.
  destruct (barrier_inv_reachable n σ0 w Hc0 Hreach) as [_ _ _ _ Hoth].
  destruct (lookup_lt_is_Some_2 _ _ Hlt) as [pc Hpc].
  assert (Htl : tail (procs w) !! pred r = Some pc).
  { destruct r as [|r]; [lia|]. simpl. by destruct (procs w). }
  unfold step_rank. rewrite Hpc.
  destruct (Hoth _ _ Htl) as [[-> _]|[-> _]].
  - unfold barrier_step; cbn [rank].
    destruct (decide (Z.of_nat r = 0)) as [|_]; [lia|].
    simpl. by apply list_lookup_insert_eq.
  - done.
Qed.

Lemma run_schedule_app n s1 s2 w :
  run_schedule n (s1 ++ s2) w = run_schedule n s2 (run_schedule n s1 w).
Proof. unfold run_schedule. by rewrite foldl_app. Qed.

Lemma run_schedule_length n s w :
  length (procs (run_schedule n s w)) = length (procs w).
Proof.
  unfold run_schedule. revert w. induction s as [|r s IH]; intros w; simpl.
  - done.
  - by rewrite IH, step_rank_length.
Qed.

Lemma others_finish n σ0 w (k : nat) :
  0 ≤ counter barrier_key σ0 → reachable n σ0 w →
  ∀ r, (1 ≤ r < 1 + k)%nat → (r < length (procs w))%nat →
    procs (run_schedule n (seq 1 k) w) !! r = Some (BReturned mkDummyWork).
Proof.
  intros Hc0 Hreach. induction k as [|k IH]; intros r Hr Hlt; [lia|].
  rewrite seq_S, run_schedule_app. simpl.
  set (w1 := run_schedule n (seq 1 k) w) in *.
  assert (Hreach1 : reachable n σ0 w1) by by apply reachable_run_schedule.
  unfold run_schedule. simpl.
  destruct (decide (r = S k)) as [->|Hne].
  - apply (step_rank_nonzero n σ0); [done|done|lia|].
    unfold w1. by rewrite run_schedule_length.
  - rewrite step_rank_procs_other by done. apply IH; [lia|done].
Qed.

Lemma step_rank0_entry n rest σ cs :
  step_rank n (mkWorld (BEntry :: rest) σ cs) 0
  = mkWorld (BLoop 0 :: rest) σ (cs ++ []).
Proof. done. Qed.

Lemma step_rank0_poll n wc rest σ cs :
  wc < n - 1 →
  step_rank n (mkWorld (BLoop wc :: rest) σ cs) 0
  = mkWorld (BLoop (counter barrier_key σ + 0) :: rest)
            (<[barrier_key := counter barrier_key σ + 0]> σ)
            (cs ++ [(0%nat, StoreAdd barrier_key 0)]).
Proof.
  intros Hwc. unfold step_rank, barrier_step. cbn [procs shared calls size].
  change ((BLoop wc :: rest) !! 0%nat) with (Some (BLoop wc)).
  cbn match. by rewrite decide_True.
Qed.

Lemma step_rank0_leave n wc rest σ cs :
  ¬ wc < n - 1 →
  step_rank n (mkWorld (BLoop wc :: rest) σ cs) 0
  = mkWorld (BReturned mkDummyWork :: rest) σ (cs ++ []).
Proof.
  intros Hwc. unfold step_rank, barrier_step. cbn [procs shared calls size].
  change ((BLoop wc :: rest) !! 0%nat) with (Some (BLoop wc)).
  cbn match. by rewrite decide_False.
Qed.

Lemma step_rank0_returned n wk rest σ cs :
  step_rank n (mkWorld (BReturned wk :: rest) σ cs) 0
  = mkWorld (BReturned wk :: rest) σ cs.
Proof. done. Qed.

Lemma rank0_finishes n σ0 w :
  0 ≤ counter barrier_key σ0 → reachable n σ0 w →
  Forall (λ pc, pc = BReturned mkDummyWork) (tail (procs w)) →
  Forall (λ pc, pc = BReturned mkDummyWork)
         (procs (run_schedule n [0; 0; 0]%nat w)).
Proof.
  intros Hc0 Hreach Hall.
  destruct (barrier_inv_reachable n σ0 w Hc0 Hreach)
    as [Hlen Hcnt Hloop _ _].
  rewrite (count_returned_Forall _ Hall) in Hcnt.
  destruct w as [ps σ cs]. cbn [procs shared calls] in *.
  destruct ps as [|p0 rest]; [done|]. cbn [tail length] in *.
  assert (Hn : ¬ counter barrier_key σ + 0 < n - 1) by lia.
  unfold run_schedule. cbn [foldl].
  destruct p0 as [|wc|[]].
  - rewrite step_rank0_entry.
    destruct (decide (0 < n - 1)).
    + rewrite step_rank0_poll, step_rank0_leave by done. by constructor.
    + rewrite step_rank0_leave, step_rank0_returned by done. by constructor.
  - destruct (decide (wc < n - 1)).
    + rewrite step_rank0_poll, step_rank0_leave, step_rank0_returned by done.
      by constructor.
    + rewrite step_rank0_leave, !step_rank0_returned by done. by constructor.
  - rewrite !step_rank0_returned. by constructor.
Qed.

Lemma workers_then_rank0 n σ0 w :
  0 ≤ counter barrier_key σ0 → reachable n σ0 w →
  Forall (λ pc, pc = BReturned mkDummyWork)
         (procs (run_schedule n (seq 1 (Z.to_nat n - 1) ++ [0; 0; 0]%nat) w)).
Proof.
  intros Hc0 Hreach.
  assert (Hlen : length (procs w) = Z.to_nat n)
    by (by destruct (barrier_inv_reachable n σ0 w Hc0 Hreach)).
  rewrite run_schedule_app.
  set (w1 := run_schedule n (seq 1 (Z.to_nat n - 1)) w).
  apply (rank0_finishes n σ0); [done|by apply reachable_run_schedule|].
  apply Forall_lookup. intros i pc Hi.
  assert (Hi' : procs w1 !! S i = Some pc) by (by destruct (procs w1)).
  assert (Hlt : (S i < length (procs w))%nat).
  { apply lookup_lt_Some in Hi'. unfold w1 in Hi'.
    by rewrite run_schedule_length in Hi'. }
  unfold w1 in Hi'.
  rewrite (others_finish n σ0 w _ Hc0 Hreach (S i)) in Hi' by lia.
  by simplify_eq.
Qed.

(** The barrier cannot get stuck: from every state the ranks can reach,
    letting the ranks other than 0 take their step and then rank 0 take
    three makes every rank return. *)
Theorem barrier_can_complete (n : Z) (σ0 : store) (w : world) :
  0 ≤ counter barrier_key σ0 →
  reachable n σ0 w →
  ∃ schedule,
    (length schedule ≤ Z.to_nat n + 3)%nat
    ∧ reachable n σ0 (run_schedule n schedule w)
    ∧ Forall (λ pc, pc = BReturned mkDummyWork)
             (procs (run_schedule n schedule w)).
Proof.
  intros Hc0 Hreach.
  exists (seq 1 (Z.to_nat n - 1) ++ [0; 0; 0]%nat).
  split; [rewrite length_app, length_seq; simpl; lia|].
  split; [by apply reachable_run_schedule|].
  by apply (workers_then_rank0 n σ0).
Qed.

Lemma barrier_can_complete_witness :
  0 ≤ counter barrier_key ∅
  ∧ reachable 3 ∅ (world_init 3 ∅)
  ∧ ∃ schedule,
      (length schedule ≤ Z.to_nat 3 + 3)%nat
      ∧ reachable 3 ∅ (run_schedule 3 schedule (world_init 3 ∅))
      ∧ Forall (λ pc, pc = BReturned mkDummyWork)
               (procs (run_schedule 3 schedule (world_init 3 ∅))).
Proof.
  assert (H0 : 0 ≤ counter barrier_key ∅) by reflexivity.
  assert (H1 : reachable 3 ∅ (world_init 3 ∅)) by constructor.
  split; [exact H0|]. split; [exact H1|].
  exact (barrier_can_complete 3 ∅ (world_init 3 ∅) H0 H1).
Defined.

Lemma barrier_step_store self pc σ pc' σ' ev :
  barrier_step self pc σ = Some (pc', σ', ev) →
  (∀ k, k ≠ barrier_key → σ' !! k = σ !! k)
  ∧ (rank self = 0 → ∀ e, ev = Some e → e = StoreAdd barrier_key 0)
  ∧ (∀ e, ev = Some e →
       e = StoreAdd barrier_key 0 ∨ e = StoreAdd barrier_key 1).
Proof.
  intros Hstep. destruct pc as [|wc|wk]; simpl in Hstep; [| |done].
  - destruct (decide (rank self = 0)); simplify_eq.
    + split_and!; [done|by intros|by intros].
    + split_and!.
      * intros k Hk. by rewrite lookup_insert_ne.
      * done.
      * intros e ?; simplify_eq. by right.
  - destruct (decide (wc < size self - 1)); simplify_eq.
    + split_and!.
      * intros k Hk. by rewrite lookup_insert_ne.
      * by intros ? e ?; simplify_eq.
      * intros e ?; simplify_eq. by left.
    + split_and!; [done|by intros|by intros].
Qed.

(** What the barrier does to the store: in every state the ranks can reach,
    the counter is its first value plus the number of ranks other than 0
    that have returned, so it never goes down and grows by [size - 1] at
    most; no other key is ever written; rank 0 only ever adds 0, and every
    call is an [add] of 0 or 1 on the barrier's key. *)
Theorem barrier_store_usage (n : Z) (σ0 : store) (w : world) :
  0 ≤ counter barrier_key σ0 →
  reachable n σ0 w →
  counter barrier_key (shared w)
  = counter barrier_key σ0 + Z.of_nat (count_returned (tail (procs w)))
  ∧ counter barrier_key σ0 ≤ counter barrier_key (shared w)
  ∧ counter barrier_key (shared w) ≤ counter barrier_key σ0 + Z.max 0 (n - 1)
  ∧ (∀ k, k ≠ barrier_key → shared w !! k = σ0 !! k)
  ∧ Forall (λ e, e = StoreAdd barrier_key 0) (calls_of 0 (calls w))
  ∧ Forall (λ c, c.2 = StoreAdd barrier_key 0 ∨ c.2 = StoreAdd barrier_key 1)
           (calls w).
Proof.
  intros Hc0 Hreach.
  destruct (barrier_inv_reachable n σ0 w Hc0 Hreach) as [Hlen Hcnt _ _ _].
  split; [done|].
  pose proof (count_returned_le (tail (procs w))) as Hle.
  assert (Htl : length (tail (procs w)) = pred (length (procs w)))
    by (by destruct (procs w)).
  split; [lia|]. split; [lia|].
  clear Hlen Hcnt Hle Htl.
  induction Hreach as [|w w' Hreach IH Hstep].
  - split_and!; [done|constructor|constructor].
  - destruct IH as (Hkeys & Hzero & Hall).
    destruct Hstep as [w r pc pc' σ' ev Hpc Hstep]. cbn [shared calls].
    destruct (barrier_step_store _ _ _ _ _ _ Hstep) as (Hk & H0 & Hev).
    split_and!.
    + intros k Hne. by rewrite Hk, Hkeys.
    + rewrite calls_of_app. apply Forall_app. split; [done|].
      destruct ev as [e|]; [|constructor].
      destruct (decide (r = 0%nat)) as [->|Hr].
      * rewrite calls_of_same. constructor; [|constructor].
        by apply H0.
      * rewrite calls_of_other by done. constructor.
    + apply Forall_app. split; [done|].
      destruct ev as [e|]; [|constructor].
      constructor; [|constructor]. by apply Hev.
Qed.

Lemma barrier_store_usage_witness :
  let w := run_schedule 2 [0; 0; 1; 0; 0]%nat (world_init 2 ∅) in
  0 ≤ counter barrier_key ∅
  ∧ reachable 2 ∅ w
  ∧ counter barrier_key (shared w)
    = counter barrier_key ∅ + Z.of_nat (count_returned (tail (procs w)))
  ∧ counter barrier_key ∅ ≤ counter barrier_key (shared w)
  ∧ counter barrier_key (shared w) ≤ counter barrier_key ∅ + Z.max 0 (2 - 1)
  ∧ (∀ k, k ≠ barrier_key → shared w !! k = (∅ : store) !! k)
  ∧ Forall (λ e, e = StoreAdd barrier_key 0) (calls_of 0 (calls w))
  ∧ Forall (λ c, c.2 = StoreAdd barrier_key 0 ∨ c.2 = StoreAdd barrier_key 1)
           (calls w).
Proof.
  intros w.
  assert (H0 : 0 ≤ counter barrier_key ∅) by reflexivity.
  assert (H1 : reachable 2 ∅ w) by apply reachable_run_schedule, reach_init.
  split; [exact H0|]. split; [exact H1|].
  exact (barrier_store_usage 2 ∅ w H0 H1).
Defined.

Lemma barrier_alone_single self σ :
  rank self = 0 → size self ≤ 1 →
  barrier_alone 2 self BEntry σ = Some (mkDummyWork, σ).
Proof.
  intros Hrank Hsize. cbn -[counter barrier_key]. rewrite decide_True by done.
  cbn -[counter barrier_key]. by rewrite decide_False by lia.
Qed.

Lemma barrier_alone_polls self σ :
  rank self = 0 → counter barrier_key σ < size self - 1 → 1 < size self →
  ∀ fuel, barrier_alone fuel self BEntry σ = None.
Proof.
  intros Hrank Hlow Hsize fuel.
  assert (Hloop : ∀ k σ1 wc,
            wc < size self - 1 → counter barrier_key σ1 < size self - 1 →
            barrier_alone k self (BLoop wc) σ1 = None).
  { induction k as [|k IH]; intros σ1 wc Hwc Hσ1; [done|].
    cbn -[counter barrier_key]. rewrite decide_True by done.
    cbn -[counter barrier_key]. apply IH; [lia|].
    unfold counter at 1. rewrite lookup_insert_eq. simpl. lia. }
  destruct fuel as [|fuel]; [done|].
  cbn -[counter barrier_key]. rewrite decide_True by done.
  apply Hloop; lia.
Qed.

(** Rank 0 on its own: in a world of one process it returns without a call
    on the store; in a larger world, over a store whose counter is below
    [size - 1] and that no other rank touches, it polls for ever. *)
Theorem barrier_rank0_alone (self : DummyProcessGroup) (σ : store) :
  rank self = 0 →
  (size self ≤ 1 → barrier_alone 2 self BEntry σ = Some (mkDummyWork, σ))
  ∧ (counter barrier_key σ < size self - 1 → 1 < size self →
     ∀ fuel, barrier_alone fuel self BEntry σ = None).
Proof.
  intros Hrank. split.
  - by apply barrier_alone_single.
  - by apply barrier_alone_polls.
Qed.

Lemma barrier_rank0_alone_witness :
  let self := mkDummyProcessGroup 0 3 in
  rank self = 0
  ∧ (size self ≤ 1 → barrier_alone 2 self BEntry ∅ = Some (mkDummyWork, ∅))
  ∧ (counter barrier_key ∅ < size self - 1 → 1 < size self →
     ∀ fuel, barrier_alone fuel self BEntry ∅ = None).
Proof.
  intros self.
  assert (H0 : rank self = 0) by reflexivity.
  split; [exact H0|]. exact (barrier_rank0_alone self ∅ H0).
Defined.

End BarrierMore.

(** ** More on the stats-export script *)

Section ExportMore.

Lemma get_sha_Ok_inv run sha :
  get_sha_of_generated_stats_branch run = Ok sha →
  ∃ text rest, split text = sha :: rest.
Proof.
  unfold get_sha_of_generated_stats_branch, bind.
  destruct (check_output run _) as [out|]; [|done].
  destruct (decode_utf8 out) as [text|]; [|done].
  intros Hidx. exists text. destruct (split text) as [|tok rest]; [done|].
  exists rest. unfold index in Hidx. simpl in Hidx. by simplify_eq.
Qed.

Lemma insert_sha_twice (fs : files) x y :
  <[sha_file := y]> (<[sha_file := x]> fs) = <[sha_file := y]> fs.
Proof. apply insert_insert_eq. Qed.

Lemma main_files run (fs : files) :
  (main run fs).2
  = <[sha_file := match get_sha_of_generated_stats_branch run with
                  | Ok sha => sha
                  | Raised _ => []
                  end]> fs.
Proof.
  unfold main. destruct (get_sha_of_generated_stats_branch run) as [sha|e].
  - simpl. apply map_eq. intros path.
    destruct (decide (path = sha_file)) as [->|Hne].
    + by rewrite lookup_alter_eq, !lookup_insert_eq.
    + by rewrite lookup_alter_ne, !lookup_insert_ne.
  - done.
Qed.

(** However the query ends, [main] changes no file but the one of the branch
    hash, which exists afterwards and holds no whitespace; it is empty
    exactly when [main] raised.  What the file held before plays no role,
    and running [main] again with the same answer of the query changes
    nothing. *)
Theorem main_leaves_token_or_nothing
    (run : list string → process_result) (fs : files) :
  (∀ path, path ≠ sha_file → (main run fs).2 !! path = fs !! path)
  ∧ (∃ content,
       (main run fs).2 !! sha_file = Some content
       ∧ Forall (λ c, isspace c = false) content
       ∧ ((main run fs).1 = Ok tt ↔ content ≠ []))
  ∧ (∀ old, main run (<[sha_file := old]> fs) = main run fs)
  ∧ main run (main run fs).2 = main run fs.
Proof.
  assert (Hold : ∀ old, main run (<[sha_file := old]> fs) = main run fs).
  { intros old. rewrite (surjective_pairing (main run (<[sha_file := old]> fs))),
      (surjective_pairing (main run fs)), !main_files, insert_sha_twice.
    f_equal. unfold main.
    by destruct (get_sha_of_generated_stats_branch run). }
  split_and!.
  - intros path Hne. rewrite main_files. by rewrite lookup_insert_ne.
  - rewrite main_files, lookup_insert_eq. eexists. split; [done|].
    unfold main.
    destruct (get_sha_of_generated_stats_branch run) as [sha|e] eqn:Hsha.
    + destruct (get_sha_Ok_inv run sha Hsha) as (text & rest & Hsplit).
      destruct (split_first text sha rest Hsplit)
        as (ws & tl & _ & _ & Hne & Hns & _).
      split; [done|]. simpl. by split.
    + split; [constructor|]. simpl. by split.
  - exact Hold.
  - rewrite main_files. apply Hold.
Qed.

Lemma to_N_byte_of_ascii (c : ascii) :
  Strings.Byte.to_N (byte_of_ascii c) = N_of_ascii c.
Proof.
  apply Strings.Byte.to_of_N. symmetry. apply byte_of_ascii_via_N.
Qed.

Lemma decode_utf8_ascii_bytes (s : string) :
  Forall (λ c, (c < 128)%N) (str_of_string s) →
  decode_utf8 (bytes_of_string s) = Ok (str_of_string s).
Proof.
  induction s as [|c s IH]; intros Hs; [done|].
  simpl in Hs. inv Hs. cbn [bytes_of_string str_of_string decode_utf8].
  rewrite to_N_byte_of_ascii.
  destruct (N.ltb_spec (N_of_ascii c) 128) as [_|?]; [|lia].
  rewrite IH by done. done.
Qed.

Lemma str_of_string_app (s1 s2 : string) :
  str_of_string (s1 +:+ s2) = str_of_string s1 ++ str_of_string s2.
Proof. induction s1 as [|c s1 IH]; simpl; [done|]. by rewrite IH. Qed.

Lemma split_from_word cur w c tl :
  Forall (λ c, isspace c = false) w → isspace c = true → cur ++ w ≠ [] →
  split_from cur (w ++ c :: tl) = (cur ++ w) :: split_from [] tl.
Proof.
  intros Hw Hc. revert cur. induction Hw as [|x w Hx Hw IH]; intros cur Hne.
  - simpl. rewrite Hc. rewrite app_nil_r in *. by destruct cur.
  - simpl. rewrite Hx. rewrite IH.
    + by rewrite <- app_assoc.
    + rewrite <- app_assoc. simpl. by intros [_ ?]%app_eq_nil.
Qed.

(** On an answer of the form the query gives, a hash, a tab, the name of
    the reference and a newline, all ASCII, the hash being non-empty and
    without whitespace: the hash comes back as it was sent, and [main]
    writes it. *)
Theorem get_sha_of_ls_remote_line
    (run : list string → process_result) (fs : files) (sha ref : string) :
  sha ≠ EmptyString →
  Forall (λ c, (c < 128)%N ∧ isspace c = false) (str_of_string sha) →
  Forall (λ c, (c < 128)%N) (str_of_string ref) →
  run ls_remote
  = Exited 0 (bytes_of_string
                (sha +:+ String "009"%char (ref +:+ String "010"%char EmptyString))) →
  get_sha_of_generated_stats_branch run = Ok (str_of_string sha)
  ∧ main run fs = (Ok tt, <[sha_file := str_of_string sha]> fs).
Proof.
  intros Hne Hsha Href Hrun.
  set (text := str_of_string
         (sha +:+ String "009"%char (ref +:+ String "010"%char EmptyString))).
  assert (Htext : text = str_of_string sha ++ 9%N ::
                           (str_of_string ref ++ [10%N])).
  { unfold text. rewrite str_of_string_app. simpl.
    by rewrite str_of_string_app. }
  assert (Hdec : decode_utf8 (bytes_of_string
            (sha +:+ String "009"%char (ref +:+ String "010"%char EmptyString)))
            = Ok text).
  { apply decode_utf8_ascii_bytes. fold text. rewrite Htext.
    apply Forall_app. split; [eapply Forall_impl; [exact Hsha|by intros ? [? _]]|].
    constructor; [done|]. apply Forall_app. split; [done|].
    by constructor. }
  assert (Hsplit : split text = str_of_string sha :: split_from []
                     (str_of_string ref ++ [10%N])).
  { rewrite Htext. unfold split.
    rewrite (split_from_word [] (str_of_string sha) 9%N); [done| |done|].
    - eapply Forall_impl; [exact Hsha|by intros ? [_ ?]].
    - simpl. by destruct sha. }
  assert (Hget : get_sha_of_generated_stats_branch run
                 = Ok (str_of_string sha)).
  { rewrite (get_sha_decoded run _ text Hrun Hdec), Hsplit. done. }
  split; [done|].
  rewrite (surjective_pairing (main run fs)), main_files, Hget.
  f_equal. unfold main. by rewrite Hget.
Qed.

Lemma get_sha_of_ls_remote_line_witness :
  let sha := "0123abc" in
  let ref := "refs/heads/generated-stats" in
  let run : list string → process_result :=
    λ _, Exited 0 (bytes_of_string
           (sha +:+ String "009"%char (ref +:+ String "010"%char EmptyString))) in
  sha ≠ EmptyString
  ∧ Forall (λ c, (c < 128)%N ∧ isspace c = false) (str_of_string sha)
  ∧ Forall (λ c, (c < 128)%N) (str_of_string ref)
  ∧ get_sha_of_generated_stats_branch run = Ok (str_of_string sha)
  ∧ main run ∅ = (Ok tt, <[sha_file := str_of_string sha]> ∅).
Proof.
  intros sha ref run.
  assert (H1 : sha ≠ EmptyString) by discriminate.
  assert (H2 : Forall (λ c, (c < 128)%N ∧ isspace c = false)
                      (str_of_string sha))
    by (repeat constructor).
  assert (H3 : Forall (λ c, (c < 128)%N) (str_of_string ref))
    by (repeat constructor).
  split; [exact H1|]. split; [exact H2|]. split; [exact H3|].
  exact (get_sha_of_ls_remote_line run ∅ sha ref H1 H2 H3 eq_refl).
Defined.

End ExportMore.

(** ** The checks on sequence numbers and groups *)

Section SequenceNumbers.

(** The sequence number comes back exactly when every rank reported it;
    otherwise, also for no rank at all, the assertion fails, and the index
    never raises. *)
Theorem verify_sequence_number_agrees (obj_list : list Z) (v : Z) :
  (_verify_sequence_number_across_pg obj_list = Ok v
   ↔ obj_list ≠ [] ∧ Forall (λ x, x = v) obj_list)
  ∧ (_verify_sequence_number_across_pg obj_list = Raised AssertionError
     ∨ ∃ x, _verify_sequence_number_across_pg obj_list = Ok x).
Proof.
  unfold _verify_sequence_number_across_pg.
  destruct (decide (base.size (list_to_set obj_list : gset Z) = 1%nat))
    as [H1|H1].
  - apply size_1_elem_of in H1 as [x Hx].
    assert (Hall : Forall (λ y, y = x) obj_list).
    { apply Forall_forall. intros y Hy.
      assert (y ∈ (list_to_set obj_list : gset Z)) as Hin
        by by apply elem_of_list_to_set.
      rewrite Hx in Hin. by apply elem_of_singleton in Hin. }
    destruct obj_list as [|y l].
    { exfalso. assert (x ∈ (list_to_set [] : gset Z)) as Hin
        by (rewrite Hx; by apply elem_of_singleton).
      by apply elem_of_empty in Hin. }
    inv Hall. split; [|right; eexists; reflexivity].
    unfold index. simpl. split.
    + intros ?. simplify_eq. split; [done|]. by constructor.
    + intros [_ Hv]. inv Hv. done.
  - split; [|by left]. split; [done|].
    intros [Hne Hall]. exfalso. apply H1.
    destruct obj_list as [|y l]; [done|]. inv Hall.
    assert ((list_to_set (v :: l) : gset Z) = {[v]}) as ->.
    { apply set_eq. intros z. rewrite elem_of_list_to_set, elem_of_singleton.
      split.
      - intros [->|Hz]%elem_of_cons; [done|].
        by eapply Forall_forall in Hz; [|eassumption].
      - intros ->. by left. }
    apply size_singleton.
Qed.

Lemma foldl_insert_lookup (l : list (Z * Z)) (d0 : gmap Z Z) r v :
  NoDup l.*1 →
  foldl (λ d p, <[p.1 := p.2]> d) d0 l !! r = Some v
  ↔ (r, v) ∈ l ∨ ((r ∉ l.*1) ∧ d0 !! r = Some v).
Proof.
  revert d0. induction l as [|[r0 v0] l IH]; intros d0 Hnd; simpl.
  - split; [intros ?; right; split; [by intros ?%elem_of_nil|done] |].
    intros [?%elem_of_nil|[_ ?]]; done.
  - inv Hnd. rewrite IH by done. split.
    + intros [Hin|[Hnin Hlook]]; [left; by right|].
      destruct (decide (r = r0)) as [->|Hne].
      * rewrite lookup_insert_eq in Hlook. simplify_eq. left. by left.
      * rewrite lookup_insert_ne in Hlook by done. right. split; [|done].
        by intros [?|?]%elem_of_cons.
    + intros [[Heq|Hin]%elem_of_cons|[Hnin Hlook]].
      * simplify_eq. right. split; [done|]. by rewrite lookup_insert_eq.
      * by left.
      * apply not_elem_of_cons in Hnin as [Hne Hnin]. right.
        split; [done|]. by rewrite lookup_insert_ne.
Qed.

Lemma rank_to_seq_num_lookup (obj_list : list (Z * Z)) r v :
  NoDup obj_list.*1 →
  rank_to_seq_num obj_list !! r = Some v ↔ (r, v) ∈ obj_list.
Proof.
  intros Hnd. unfold rank_to_seq_num. rewrite foldl_insert_lookup by done.
  rewrite lookup_empty. split; [|by left].
  by intros [?|[_ ?]].
Qed.

Lemma lagging_ranks_check_map (obj_list : list (Z * Z)) :
  let d := rank_to_seq_num obj_list in
  lagging_ranks_check obj_list = Passed
  ↔ ∃ n, d !! 0 = Some n ∧ d !! 2 = Some n ∧ d !! 1 = Some (n + 1)
         ∧ ∀ i v, d !! i = Some v → i ≠ 0 → i ≠ 2 → v = n + 1.
Proof.
  intros d. unfold lagging_ranks_check. fold d.
  set (others := filter (λ kv : Z * Z, kv.1 ∉ [0; 2]) d).
  assert (Hothers : ∀ x, x ∈ (map_img others : gset Z)
            ↔ ∃ i, d !! i = Some x ∧ i ≠ 0 ∧ i ≠ 2).
  { intros x. rewrite elem_of_map_img. unfold others.
    split.
    - intros (i & [Hi Hp]%map_lookup_filter_Some). simpl in Hp.
      exists i. rewrite !not_elem_of_cons in Hp. by destruct Hp as (? & ? & _).
    - intros (i & Hi & ? & ?). exists i. apply map_lookup_filter_Some.
      split; [done|]. simpl. rewrite !not_elem_of_cons.
      split_and!; [done..|]. apply not_elem_of_nil. }
  split.
  - intros Hpass.
    destruct (decide (base.size (map_img d : gset Z) = 2%nat)); [|done].
    destruct (d !! 0) as [n0|] eqn:H0; [|done].
    destruct (d !! 2) as [n2|] eqn:H2; [|done].
    destruct (decide (n0 = n2)) as [<-|]; [|done].
    destruct (decide (base.size (map_img others : gset Z) = 1%nat))
      as [Hone|]; [|done].
    destruct (d !! 1) as [n1|] eqn:H1; [|done].
    destruct (decide (n0 + 1 = n1)) as [<-|]; [|done].
    exists n0. split_and!; [done..|].
    intros i v Hi Hi0 Hi2.
    apply (size_singleton_inv _ _ _ Hone); apply Hothers.
    + by exists i.
    + by exists 1.
  - intros (n & H0 & H2 & H1 & Hrest).
    assert (Himg : (map_img d : gset Z) = {[n]} ∪ {[n + 1]}).
    { apply set_eq. intros x.
      rewrite elem_of_map_img, elem_of_union, !elem_of_singleton. split.
      - intros [i Hi].
        destruct (decide (i = 0)) as [->|?]; [left; congruence|].
        destruct (decide (i = 2)) as [->|?]; [left; congruence|].
        right. by apply (Hrest i).
      - intros [->| ->]; eauto. }
    assert (Hexp : (map_img others : gset Z) = {[n + 1]}).
    { apply set_eq. intros x. rewrite Hothers, elem_of_singleton. split.
      - intros (i & Hi & ? & ?). by apply (Hrest i).
      - intros ->. by exists 1. }
    rewrite Himg, size_union, !size_singleton
      by (apply disjoint_singleton_l; rewrite elem_of_singleton; lia).
    rewrite decide_True by done. rewrite H0, H2, decide_True by done.
    rewrite Hexp, size_singleton, decide_True by done.
    rewrite H1. by rewrite decide_True.
Qed.

(** When every rank reports once, the checks on lagging ranks pass exactly
    when ranks 0 and 2 report one number and every other rank, rank 1 among
    them, reports the next one; a [KeyError] can only name a rank among 0, 1
    and 2 that did not report. *)
Theorem lagging_ranks_check_passes (obj_list : list (Z * Z)) :
  NoDup obj_list.*1 →
  (lagging_ranks_check obj_list = Passed
   ↔ ∃ n, (0, n) ∈ obj_list ∧ (2, n) ∈ obj_list ∧ (1, n + 1) ∈ obj_list
          ∧ ∀ r v, (r, v) ∈ obj_list → r ≠ 0 → r ≠ 2 → v = n + 1)
  ∧ (∀ k, lagging_ranks_check obj_list = KeyError k →
       (k = 0 ∨ k = 1 ∨ k = 2) ∧ k ∉ obj_list.*1).
Proof.
  intros Hnd. split.
  - rewrite lagging_ranks_check_map.
    setoid_rewrite (λ r v, rank_to_seq_num_lookup obj_list r v Hnd). done.
  - intros k. unfold lagging_ranks_check.
    assert (Hmiss : ∀ r, rank_to_seq_num obj_list !! r = None →
              r ∉ obj_list.*1).
    { intros r Hr [[r' v] [-> Hin]]%list_elem_of_fmap. simpl in Hr.
      apply (rank_to_seq_num_lookup _ _ _ Hnd) in Hin. congruence. }
    destruct (decide (base.size _ = 2%nat)); [|done].
    destruct (rank_to_seq_num obj_list !! 0) as [n0|] eqn:H0.
    2:{ intros ?; simplify_eq. split; [by left|by apply Hmiss]. }
    destruct (rank_to_seq_num obj_list !! 2) as [n2|] eqn:H2.
    2:{ intros ?; simplify_eq. split; [by right; right|by apply Hmiss]. }
    destruct (decide (n0 = n2)); [|done].
    destruct (decide (base.size _ = 1%nat)); [|done].
    destruct (rank_to_seq_num obj_list !! 1) as [n1|] eqn:H1.
    2:{ intros ?; simplify_eq. split; [by right; left|by apply Hmiss]. }
    by destruct (decide (n0 + 1 = n1)).
Qed.

Lemma lagging_ranks_check_passes_witness :
  let obj_list := [(0, 5); (1, 6); (2, 5); (3, 6)] in
  NoDup obj_list.*1
  ∧ (lagging_ranks_check obj_list = Passed
     ↔ ∃ n, (0, n) ∈ obj_list ∧ (2, n) ∈ obj_list ∧ (1, n + 1) ∈ obj_list
            ∧ ∀ r v, (r, v) ∈ obj_list → r ≠ 0 → r ≠ 2 → v = n + 1)
  ∧ (∀ k, lagging_ranks_check obj_list = KeyError k →
       (k = 0 ∨ k = 1 ∨ k = 2) ∧ k ∉ obj_list.*1).
Proof.
  intros obj_list.
  assert (Hnd : NoDup obj_list.*1) by (by apply (bool_decide_unpack _)).
  split; [exact Hnd|]. exact (lagging_ranks_check_passes obj_list Hnd).
Defined.

Example lagging_ranks_check_example :
  lagging_ranks_check [(0, 5); (1, 6); (2, 5); (3, 6)] = Passed
  ∧ lagging_ranks_check [(0, 5); (1, 6); (2, 6); (3, 6)] = AssertionFailed
  ∧ lagging_ranks_check [(1, 6); (2, 5); (3, 6)] = KeyError 0.
Proof. vm_compute. done. Qed.

End SequenceNumbers.

Section GroupsAndPeers.

Lemma elem_of_in_group_ranks (world_size rank : Z) :
  rank ∈ in_group_ranks world_size
  ↔ 0 ≤ rank < world_size ∧ rank `mod` 2 = 0.
Proof.
  unfold in_group_ranks, range. rewrite list_elem_of_filter, elem_of_seqZ. lia.
Qed.

Lemma filter_even_seqZ (n : nat) :
  filter (λ x, x `mod` 2 = 0) (seqZ 0 (Z.of_nat n))
  = (λ i, 2 * i) <$> seqZ 0 ((Z.of_nat n + 1) `div` 2).
Proof.
  induction n as [|n IH]; [done|].
  rewrite Nat2Z.inj_succ, <-Z.add_1_r.
  rewrite seqZ_app by lia. rewrite filter_app, IH.
  change (seqZ (0 + Z.of_nat n) 1) with [0 + Z.of_nat n].
  destruct (decide (Z.of_nat n `mod` 2 = 0)) as [Hev|Hodd].
  - rewrite filter_cons_True, filter_nil by (by rewrite Z.add_0_l).
    replace ((Z.of_nat n + 1 + 1) `div` 2)
      with ((Z.of_nat n + 1) `div` 2 + 1) by (Z.div_mod_to_equations; lia).
    rewrite seqZ_app by (Z.div_mod_to_equations; lia).
    rewrite fmap_app. f_equal.
    change (seqZ (0 + (Z.of_nat n + 1) `div` 2) 1)
      with [0 + (Z.of_nat n + 1) `div` 2].
    simpl. f_equal. Z.div_mod_to_equations; lia.
  - rewrite filter_cons_False, filter_nil, app_nil_r by (by rewrite Z.add_0_l).
    do 2 f_equal. Z.div_mod_to_equations; lia.
Qed.

(** The group of [_test_warn_not_in_group] holds the even ranks of the world
    in increasing order, every second rank rounded up; a process expects the
    warning for each of its four calls exactly when its rank is not an even
    rank of the world, and hands [all_gather] one output for each member of
    the group. *)
Theorem warn_not_in_group_odd_ranks (rank world_size : Z) :
  in_group_ranks world_size = (λ i, 2 * i) <$> range ((world_size + 1) `div` 2)
  ∧ _test_warn_not_in_group rank world_size
    = (λ c, (c, bool_decide (¬ (0 ≤ rank < world_size ∧ rank `mod` 2 = 0))))
      <$> [CallAllGather (Z.to_nat ((world_size + 1) `div` 2));
           CallAllReduce; CallBarrier; CallBroadcast 0].
Proof.
  assert (Hranks : in_group_ranks world_size
                   = (λ i, 2 * i) <$> range ((world_size + 1) `div` 2)).
  { unfold in_group_ranks, range.
    destruct (decide (world_size ≤ 0)) as [Hle|Hpos].
    { rewrite !seqZ_nil; [done|Z.div_mod_to_equations; lia..]. }
    rewrite <-(Z2Nat.id world_size) by lia. apply filter_even_seqZ. }
  assert (Hlen : length (in_group_ranks world_size)
                 = Z.to_nat ((world_size + 1) `div` 2)).
  { rewrite Hranks, length_fmap. apply length_seqZ. }
  split; [done|]. unfold _test_warn_not_in_group. rewrite Hlen. simpl.
  destruct (decide (rank ∉ in_group_ranks world_size)) as [Hout|Hin].
  - rewrite elem_of_in_group_ranks in Hout. by rewrite bool_decide_eq_true_2.
  - apply dec_stable in Hin. rewrite elem_of_in_group_ranks in Hin.
    rewrite bool_decide_eq_false_2; [done|]. by intros ?.
Qed.

Section SendRecv.
Context {E : Type} `{!Scalar E}.

Implicit Types (h : heap E) (l : loc).

Lemma dist_send_one group l dst h x :
  h !! l = Some x →
  dist.send group l dst h = (Ok tt, <[l := add_scalar 1 x]> h).
Proof.
  intros Hl. unfold dist.send, send, for_, bindM, add_, ret. simpl.
  f_equal. apply map_eq. intros l'. destruct (decide (l' = l)) as [->|Hne].
  - by rewrite lookup_alter_eq, lookup_insert_eq, Hl.
  - by rewrite lookup_alter_ne, lookup_insert_ne.
Qed.

Lemma dist_recv_one group l src h x :
  h !! l = Some x →
  dist.recv group l src h = (Ok tt, <[l := add_scalar 2 x]> h).
Proof.
  intros Hl. unfold dist.recv, recv, for_, bindM, add_, ret. simpl.
  f_equal. apply map_eq. intros l'. destruct (decide (l' = l)) as [->|Hne].
  - by rewrite lookup_alter_eq, lookup_insert_eq, Hl.
  - by rewrite lookup_alter_ne, lookup_insert_ne.
Qed.

Lemma read_Some l h x : h !! l = Some x → read l h = (Ok x, h).
Proof. intros Hl. unfold read. by rewrite Hl. Qed.

Lemma assertEqual_same (x : Tensor E) h : assertEqual x x h = (Ok tt, h).
Proof. unfold assertEqual. by rewrite decide_True. Qed.

End SendRecv.

(** [test_send_recv] passes on any heap, for any rank and any world size
    other than zero, the negative ones among them; in a world of size zero
    it raises [ZeroDivisionError] when it computes the peer.  Either way
    every tensor that was there before is left as it was. *)
Theorem test_send_recv_outcome (σ : store) (rank world_size : Z)
    (h : heap Float32) :
  (test_send_recv σ rank world_size h).1
  = (if decide (world_size = 0) then Raised ZeroDivisionError else Ok tt)
  ∧ h ⊆ (test_send_recv σ rank world_size h).2.
Proof.
  unfold test_send_recv.
  destruct (alloc_fresh (zeros [2; 2]%nat) h) as (l & Ha & Hl).
  rewrite (bindM_ok _ _ _ _ _ Ha).
  destruct (decide (world_size = 0)) as [Hz|Hnz].
  { split; [done|]. by apply insert_subseteq. }
  rewrite (bindM_ok (lift (Ok ((rank + 1) `mod` world_size))) _ _ _ _ eq_refl).
  rewrite (bindM_ok _ _ _ _ _
             (dist_send_one _ l _ _ _ (lookup_insert_eq _ _ _))).
  rewrite insert_insert_eq.
  rewrite (bindM_ok _ _ _ _ _ (read_Some l _ _ (lookup_insert_eq _ _ _))).
  rewrite (bindM_ok _ _ _ _ _ (assertEqual_same _ _)).
  destruct (alloc_fresh (zeros [2; 2]%nat)
              (<[l := add_scalar 1 (zeros [2; 2]%nat)]> h))
    as (l2 & Ha2 & Hl2).
  rewrite (bindM_ok _ _ _ _ _ Ha2).
  rewrite (bindM_ok _ _ _ _ _
             (dist_recv_one _ l2 _ _ _ (lookup_insert_eq _ _ _))).
  rewrite insert_insert_eq.
  rewrite (bindM_ok _ _ _ _ _ (read_Some l2 _ _ (lookup_insert_eq _ _ _))).
  rewrite assertEqual_same. split; [done|]. simpl.
  etrans; [|by apply insert_subseteq]. by apply insert_subseteq.
Qed.

End GroupsAndPeers.

(** ** The work objects *)

Section WorkObjects.
Context {E : Type} `{!Scalar E}.

Implicit Types (h : heap E) (l : loc).

Lemma broadcastable_refl (sh : list nat) : broadcastable sh sh.
Proof.
  split; [done|]. rewrite Nat.sub_diag. simpl.
  apply Forall_Forall2_diag, Forall_forall. intros; by left.
Qed.

Lemma copy__Ok dst src h : (copy_ dst src h).1 = Ok tt ↔ can_copy h dst src.
Proof.
  unfold copy_, can_copy.
  destruct (h !! dst) as [d|]; [|done].
  destruct (h !! src) as [s|]; [|done].
  destruct (decide (shape d = shape s)) as [Heq|Hne]; simpl.
  { split; [|done]. intros _ d0 s0 ? ?. simplify_eq. rewrite Heq.
    apply broadcastable_refl. }
  destruct (decide (broadcastable (shape s) (shape d))) as [Hb|Hnb]; simpl.
  - split; [|done]. intros _ d0 s0 ? ?. by simplify_eq.
  - split; [done|]. intros Hcan. destruct Hnb. by apply Hcan.
Qed.

Lemma copy__raises dst src h e :
  (copy_ dst src h).1 = Raised e → ∃ msg, e = RuntimeError msg.
Proof.
  unfold copy_.
  destruct (h !! dst) as [d|]; [|done].
  destruct (h !! src) as [s|]; [|done].
  destruct (decide (shape d = shape s)); [done|].
  destruct (decide (broadcastable (shape s) (shape d))); [done|].
  simpl. intros ?; simplify_eq. eauto.
Qed.

Lemma can_copy_same_shapes h h' dst src :
  same_shapes h h' → can_copy h dst src ↔ can_copy h' dst src.
Proof.
  intros Hsh. unfold can_copy.
  pose proof (Hsh dst) as Hd. pose proof (Hsh src) as Hs.
  destruct (h !! dst) as [d|], (h' !! dst) as [d'|]; simplify_eq/=;
    try (split; intros; simplify_eq; done).
  destruct (h !! src) as [s|], (h' !! src) as [s'|]; simplify_eq/=;
    try (split; intros; simplify_eq; done).
  split; intros Hcan d0 s0 ? ?; simplify_eq.
  - rewrite Hd, Hs. by apply Hcan.
  - rewrite <- Hd, <- Hs. by apply Hcan.
Qed.

(** A loop whose body leaves the shapes alone, and whose body returns
    exactly on the states that satisfy a condition on shapes, returns
    exactly when every element satisfies the condition at the start. *)
Lemma for_Ok_iff {A} (xs : list A) (body : A → M E unit)
    (P : heap E → A → Prop) h :
  (∀ x h0, (body x h0).1 = Ok tt ↔ P h0 x) →
  (∀ x h0, same_shapes h0 (body x h0).2) →
  (∀ x h0 h1, same_shapes h0 h1 → P h0 x ↔ P h1 x) →
  (for_ xs body h).1 = Ok tt ↔ ∀ x, x ∈ xs → P h x.
Proof.
  intros HP Hsh Hinv. revert h.
  induction xs as [|x xs IH]; intros h; simpl.
  { split; [|done]. by intros _ x ?%elem_of_nil. }
  unfold bindM. pose proof (HP x h) as Hx. pose proof (Hsh x h) as Hs.
  destruct (body x h) as [[[]|e] h1]; simpl in *.
  - rewrite IH. split.
    + intros Hall y [->|Hy]%elem_of_cons; [by apply Hx|].
      apply (Hinv y h h1 Hs). by apply Hall.
    + intros Hall y Hy. apply (Hinv y h h1 Hs). apply Hall. by right.
  - split; [done|]. intros Hall.
    assert (Hno : @Raised unit e = Ok tt) by (apply Hx, Hall; by left).
    done.
Qed.

Lemma for_raises {A} (xs : list A) (body : A → M E unit) (Q : exn → Prop)
    h e :
  (∀ x h0 e0, (body x h0).1 = Raised e0 → Q e0) →
  (for_ xs body h).1 = Raised e → Q e.
Proof.
  intros Hbody. revert h. induction xs as [|x xs IH]; intros h; simpl; [done|].
  unfold bindM. pose proof (Hbody x h) as Hx.
  destruct (body x h) as [[[]|e0] h1]; simpl in *.
  - apply IH.
  - intros ?; simplify_eq. by apply Hx.
Qed.

Lemma then_ret_outcome {A} (m : M E unit) (a : A) h :
  (bindM m (λ _, ret a) h).1
  = match (m h).1 with Ok _ => Ok a | Raised e => Raised e end.
Proof. unfold bindM. by destruct (m h) as [[[]|e] h1]. Qed.

Lemma elem_of_zip_lookup {A B} (xs : list A) (ys : list B) x y :
  (x, y) ∈ zip xs ys ↔ ∃ i : nat, xs !! i = Some x ∧ ys !! i = Some y.
Proof.
  rewrite list_elem_of_lookup. split.
  - intros (i & (a & b & ? & ? & ?)%lookup_zip_with_Some). simplify_eq. eauto.
  - intros (i & ? & ?). exists i. apply lookup_zip_with_Some. eauto.
Qed.

Lemma index_raises {A} (xs : list A) (i : Z) e :
  index xs i = Raised e → e = IndexError.
Proof.
  unfold index. intros Hidx.
  destruct (decide (0 ≤ _ < _)); [|by simplify_eq].
  destruct (xs !! _); by simplify_eq.
Qed.

(** [allgather] returns exactly when every copy has shapes it can work
    on; otherwise the first copy that has not raises a [RuntimeError]. *)
Lemma allgather_returns self (outs : list (list loc)) (ins : list loc) h :
  ((allgather self outs ins h).1 = Ok mkDummyWork
   ↔ ∀ (i : nat) otl it o,
       outs !! i = Some otl → ins !! i = Some it → o ∈ otl → can_copy h o it)
  ∧ ((allgather self outs ins h).1 = Ok mkDummyWork
     ∨ ∃ msg, (allgather self outs ins h).1 = Raised (RuntimeError msg)).
Proof.
  rewrite allgather_as_pairs, then_ret_outcome.
  set (body := λ '(d, s), copy_ d s : M E unit).
  assert (Hiff : (for_ (allgather_pairs outs ins) body h).1 = Ok tt
                 ↔ ∀ p, p ∈ allgather_pairs outs ins → can_copy h p.1 p.2).
  { apply (for_Ok_iff _ body (λ h0 p, can_copy h0 p.1 p.2)).
    - intros [d s] h0. apply copy__Ok.
    - intros [d s] h0. apply copy__same_shapes.
    - intros [d s] h0 h1. apply can_copy_same_shapes. }
  pose proof (for_raises (allgather_pairs outs ins) body
                (λ e, ∃ msg, e = RuntimeError msg) h) as Hraise.
  destruct ((for_ (allgather_pairs outs ins) body h).1) as [[]|e] eqn:Hrun.
  - split; [|by left]. split; [|done]. intros _ i otl it o Ho Hi Hin.
    apply (proj1 Hiff eq_refl (o, it)), elem_of_allgather_pairs. eauto.
  - destruct (Hraise e) as [msg ->]; [|done|].
    { intros [d s] h0 e0. apply copy__raises. }
    split; [|right; eauto]. split; [done|]. intros Hall.
    assert (Hno : @Raised unit (RuntimeError msg) = Ok tt); [|done].
    apply Hiff. intros [d s] (i & otl & Ho & Hi & Hd)%elem_of_allgather_pairs.
    by apply (Hall i otl s d).
Qed.

(** [reduce_scatter] returns exactly when every input list has a tensor at
    index [rank] that can be copied into its output; otherwise the first
    pair that has not raises, [IndexError] from the index or [RuntimeError]
    from the copy. *)
Lemma reduce_scatter_returns self (outs : list loc) (ins : list (list loc)) h :
  ((reduce_scatter self outs ins h).1 = Ok mkDummyWork
   ↔ ∀ (i : nat) o itl, outs !! i = Some o → ins !! i = Some itl →
       ∃ src, index itl (rank self) = Ok src ∧ can_copy h o src)
  ∧ ((reduce_scatter self outs ins h).1 = Ok mkDummyWork
     ∨ (reduce_scatter self outs ins h).1 = Raised IndexError
     ∨ ∃ msg, (reduce_scatter self outs ins h).1 = Raised (RuntimeError msg)).
Proof.
  unfold reduce_scatter. rewrite then_ret_outcome.
  set (body := (λ '(output_tensor, input_tensor_list),
                  bindM (lift (index input_tensor_list (rank self)))
                        (λ src, copy_ output_tensor src))
               : loc * list loc → M E unit).
  set (P := λ (h0 : heap E) (p : loc * list loc),
              ∃ src, index p.2 (rank self) = Ok src ∧ can_copy h0 p.1 src).
  assert (Hiff : (for_ (zip outs ins) body h).1 = Ok tt
                 ↔ ∀ p, p ∈ zip outs ins → P h p).
  { apply (for_Ok_iff _ body P).
    - intros [o itl] h0. unfold body, P, bindM, lift. simpl.
      destruct (index itl (rank self)) as [src|e]; simpl.
      + rewrite copy__Ok. split; [eauto|]. by intros (? & ? & ?); simplify_eq.
      + split; [done|]. by intros (? & ? & _).
    - intros [o itl] h0. unfold body, bindM, lift.
      destruct (index itl (rank self)) as [src|e]; [|done].
      apply copy__same_shapes.
    - intros [o itl] h0 h1 Hsh. unfold P. simpl.
      by setoid_rewrite (can_copy_same_shapes h0 h1 _ _ Hsh). }
  pose proof (for_raises (zip outs ins) body
                (λ e, e = IndexError ∨ ∃ msg, e = RuntimeError msg) h)
    as Hraise.
  destruct ((for_ (zip outs ins) body h).1) as [[]|e] eqn:Hrun.
  - split; [|by left]. split; [|done]. intros _ i o itl Ho Hi.
    apply (proj1 Hiff eq_refl (o, itl)), elem_of_zip_lookup. eauto.
  - assert (He : e = IndexError ∨ ∃ msg, e = RuntimeError msg).
    { apply Hraise; [|done]. intros [o itl] h0 e0. unfold body, bindM, lift.
      destruct (index itl (rank self)) as [src|e1] eqn:Hidx; simpl.
      - intros ?%copy__raises. by right.
      - intros ?; simplify_eq. left. by apply index_raises in Hidx. }
    split.
    + split; [done|]. intros Hall.
      assert (Hno : @Raised unit e = Ok tt); [|done].
      apply Hiff. intros [o itl] (i & Ho & Hi)%elem_of_zip_lookup.
      by apply (Hall i).
    + right. destruct He as [->|[msg ->]]; eauto.
Qed.

Lemma barrier_alone_returns self σ :
  rank self = 0 →
  (∃ fuel σ', barrier_alone fuel self BEntry σ = Some (mkDummyWork, σ'))
  ↔ size self ≤ 1 ∨ size self - 1 ≤ counter barrier_key σ.
Proof.
  intros Hrank. split.
  - intros (fuel & σ' & Hrun).
    destruct (decide (size self ≤ 1)) as [|Hbig]; [by left|].
    destruct (decide (size self - 1 ≤ counter barrier_key σ)) as [|Hlow];
      [by right|].
    rewrite (barrier_alone_polls self σ) in Hrun by (done || lia). done.
  - intros [Hsingle|Hreached].
    + exists 2%nat, σ. by apply barrier_alone_single.
    + destruct (barrier_alone_rank0 self σ Hrank Hreached) as (σ' & ? & _).
      eauto.
Qed.

(** C2 as stated fails: an operation does not return a work object where
    it raises or does not return at all.  With rank 1 and an input list of
    one tensor, [reduce_scatter] raises [IndexError]; and in a world of two
    whose other rank never calls [barrier], rank 0 never returns from
    it. *)
Lemma some_operations_return_no_work :
  let h : heap Float32 :=
    <[1%positive := zeros [2; 2]%nat]> (<[2%positive := ones [2; 2]%nat]> ∅) in
  (reduce_scatter (mkDummyProcessGroup 1 2) [1%positive] [[2%positive]] h).1
  = Raised IndexError
  ∧ ∀ fuel, barrier_alone fuel (mkDummyProcessGroup 0 2) BEntry ∅ = None.
Proof.
  intros h. split; [by vm_compute|].
  apply barrier_alone_polls; [done|by vm_compute|by vm_compute].
Qed.

(** C2, as amended: the class [DummyProcessGroup] has a method for every
    operation of the capability set, its backend name is "Dummy", and an
    operation that returns, returns a [DummyWork], whose [wait] answers
    [True].  The four adding operations always return.  [allgather]
    returns exactly when every copy has shapes it can work on, and raises
    [RuntimeError] otherwise; [reduce_scatter] returns exactly when every
    input list has a tensor at index [rank] that can be copied to its
    output, and raises [IndexError] or [RuntimeError] otherwise.
    [barrier] returns after one step on a rank other than 0; rank 0 left
    alone returns exactly when it is the only rank or the counter of the
    store has reached [size - 1]; and when all ranks are in [barrier], over
    a counter that is not negative, they can all return from every state
    they reach. *)
Theorem dummy_process_group_returns_work :
  DummyProcessGroup_method <$> capability_set
  = [Some (GatherMethod allgather); Some (TensorsMethod allreduce);
     Some (BarrierMethod barrier_step); Some (TensorsMethod broadcast);
     Some (ScatterMethod reduce_scatter); Some (PeerMethod send);
     Some (PeerMethod recv)]
  ∧ DummyProcessGroup_method "getBackendName"
    = Some (NameMethod (E := E) getBackendName)
  ∧ (∀ self, getBackendName self = "Dummy")
  ∧ (∀ cuda_is_available work, (wait cuda_is_available work).2 = true)
  ∧ (∀ self ts h, (allreduce self ts h).1 = Ok mkDummyWork)
  ∧ (∀ self ts h, (broadcast self ts h).1 = Ok mkDummyWork)
  ∧ (∀ self ts dst tag h, (send self ts dst tag h).1 = Ok mkDummyWork)
  ∧ (∀ self ts src tag h, (recv self ts src tag h).1 = Ok mkDummyWork)
  ∧ (∀ self (outs : list (list loc)) (ins : list loc) h,
       ((allgather self outs ins h).1 = Ok mkDummyWork
        ↔ ∀ (i : nat) otl it o,
            outs !! i = Some otl → ins !! i = Some it → o ∈ otl →
            can_copy h o it)
       ∧ ((allgather self outs ins h).1 = Ok mkDummyWork
          ∨ ∃ msg, (allgather self outs ins h).1 = Raised (RuntimeError msg)))
  ∧ (∀ self (outs : list loc) (ins : list (list loc)) h,
       ((reduce_scatter self outs ins h).1 = Ok mkDummyWork
        ↔ ∀ (i : nat) o itl, outs !! i = Some o → ins !! i = Some itl →
            ∃ src, index itl (rank self) = Ok src ∧ can_copy h o src)
       ∧ ((reduce_scatter self outs ins h).1 = Ok mkDummyWork
          ∨ (reduce_scatter self outs ins h).1 = Raised IndexError
          ∨ ∃ msg, (reduce_scatter self outs ins h).1
                   = Raised (RuntimeError msg)))
  ∧ (∀ self (σ : store), rank self ≠ 0 →
       barrier_alone 1 self BEntry σ
       = Some (mkDummyWork, (store_add barrier_key 1 σ).2))
  ∧ (∀ self (σ : store), rank self = 0 →
       (∃ fuel σ', barrier_alone fuel self BEntry σ = Some (mkDummyWork, σ'))
       ↔ size self ≤ 1 ∨ size self - 1 ≤ counter barrier_key σ)
  ∧ (∀ n (σ0 : store) w, 0 ≤ counter barrier_key σ0 → reachable n σ0 w →
       ∃ schedule,
         Forall (λ pc, pc = BReturned mkDummyWork)
                (procs (run_schedule n schedule w)))
  ∧ (∀ self pc (σ : store), barrier_step self pc σ = None →
       pc = BReturned mkDummyWork).
Proof.
  split; [reflexivity|]. split; [reflexivity|].
  split; [done|]. split; [done|].
  split. { intros self ts h. by destruct (allreduce_spec self ts h) as (? & -> & _). }
  split. { intros self ts h. by destruct (broadcast_spec self ts h) as (? & -> & _). }
  split. { intros self ts dst tag h.
           by destruct (send_spec self ts dst tag h) as (? & -> & _). }
  split. { intros self ts src tag h.
           by destruct (recv_spec self ts src tag h) as (? & -> & _). }
  split; [exact allgather_returns|].
  split; [exact reduce_scatter_returns|].
  split; [exact barrier_alone_other_rank|].
  split; [exact barrier_alone_returns|].
  split.
  { intros n σ0 w Hc0 Hreach. eexists.
    by apply (workers_then_rank0 n σ0). }
  intros self pc σ Hstep. destruct pc as [|wc|[]]; simpl in Hstep; [| |done].
  - destruct (decide (rank self = 0)); simplify_eq.
  - destruct (decide (wc < size self - 1)); simplify_eq.
Qed.

End WorkObjects.

Lemma dummy_process_group_returns_work_witness :
  let self := mkDummyProcessGroup 1 3 in
  let h : heap Float32 :=
    <[1%positive := zeros [2; 2]%nat]>
      (<[2%positive := ones [2; 2]%nat]>
         (<[3%positive := mul_scalar 7 (ones [2]%nat)]> ∅)) in
  let w := run_schedule 3 [0; 0; 2; 0]%nat (world_init 3 ∅) in
  (reduce_scatter self [1%positive] [[2%positive; 3%positive]] h).1
  = Ok mkDummyWork
  ∧ (reduce_scatter self [1%positive] [[2%positive; 3%positive]] h).2
      !! 1%positive
    = Some (mkTensor [2; 2]%nat (replicate 4 (of_number 7)))
  ∧ 0 ≤ counter barrier_key ∅
  ∧ reachable 3 ∅ w
  ∧ procs w !! 0%nat = Some (BLoop 1)
  ∧ ∃ schedule,
      Forall (λ pc, pc = BReturned mkDummyWork)
             (procs (run_schedule 3 schedule w)).
Proof.
  intros self h w.
  destruct (dummy_process_group_returns_work (E := Float32))
    as (_ & _ & _ & _ & _ & _ & _ & _ & _ & Hscatter & _ & _ & Hlive & _).
  assert (Hc0 : 0 ≤ counter barrier_key ∅) by reflexivity.
  assert (Hreach : reachable 3 ∅ w)
    by apply reachable_run_schedule, reach_init.
  split.
  { apply (Hscatter self [1%positive] [[2%positive; 3%positive]] h).
    intros [|i] o itl Ho Hi; simplify_eq/=. exists 3%positive.
    split; [reflexivity|]. intros d s Hd Hs.
    vm_compute in Hd, Hs. simplify_eq. by apply (bool_decide_unpack _). }
  split; [by vm_compute|]. split; [exact Hc0|]. split; [exact Hreach|].
  split; [by vm_compute|].
  exact (Hlive 3 ∅ w Hc0 Hreach).
Defined.
